(** * gosloppy: source instrumentation for Go, verified against its specification

    A shallow embedding of the instrumentation toolkit:
    - [strings], [filepath]-like helpers of the Go standard library that the
      code calls (only the ones whose behaviour matters are implemented, the
      rest is taken from an environment class);
    - package [instrument]: patches, the relevance predicate, the closure
      instrumenter ([instrument.go]) and the toolchain command model
      ([buildcmd.go]);
    - package [main]: the scope walker ([scopewalker.go]) and the implicit
      error-check pass ([shorterror.go]).

    Definitions come first, the theorems about them follow. *)

From Stdlib Require Import ZArith List Ascii String Lia Bool.
From stdpp Require Import base option list gmap strings fin_maps.

Open Scope string_scope.
Open Scope list_scope.
Open Scope Z_scope.

(* ===================================================================== *)
(** * Part I: definitions                                                  *)
(* ===================================================================== *)

(** ** Go standard library helpers *)

Module strings.

(** [strings.HasPrefix(s, prefix)] *)
Definition HasPrefix (s prefix : string) : bool := String.prefix prefix s.

(** [strings.Contains(s, substr)] *)
Definition Contains (s substr : string) : bool :=
  match String.index 0 substr s with
  | Some _ => true
  | None => false
  end.

(** [strings.HasSuffix(s, suffix)] *)
Definition HasSuffix (s suffix : string) : bool :=
  let n := String.length s in
  let m := String.length suffix in
  (m <=? n)%nat && String.eqb (String.substring (n - m) m s) suffix.

(** [strings.Replace(s, "..", "__", -1)]: every non-overlapping occurrence
    of two dots, from the left. *)
Fixpoint ReplaceDotDot (s : string) : string :=
  match s with
  | String "." (String "." r) => String "_" (String "_" (ReplaceDotDot r))
  | String c r => String c (ReplaceDotDot r)
  | EmptyString => EmptyString
  end.

(** [fmt.Sprint] of a non-negative [int]: its decimal digits. *)
Fixpoint digits (fuel : nat) (n : N) (acc : string) : string :=
  match fuel with
  | O => acc
  | S fuel' =>
    let d := ascii_of_N (48 + N.modulo n 10) in
    let q := N.div n 10 in
    if N.eqb q 0 then String d acc else digits fuel' q (String d acc)
  end.

(** [strconv.Itoa]: a minus sign for negative numbers. *)
Definition Itoa (z : Z) : string :=
  match z with
  | Z0 => "0"
  | Zpos p => digits (Pos.to_nat p) (Npos p) EmptyString
  | Zneg p => String "-" (digits (Pos.to_nat p) (Npos p) EmptyString)
  end.

End strings.

(** ** Package [patch] *)

Module patch.

(** Modelled from the spec: the [patch] package is not part of the sources
    at hand.  A patch is one of insert-before-position(text) and
    replace-range(start, end, text), addressed by offset into the original
    source; [StartPos] and [EndPos] are the two ends of its range, which
    coincide for an insertion. *)
Inductive Patch :=
| Insert (pos : Z) (text : string)
| Replace (start end_ : Z) (text : string).

Definition StartPos (p : Patch) : Z :=
  match p with
  | Insert pos _ => pos
  | Replace s _ _ => s
  end.

Definition EndPos (p : Patch) : Z :=
  match p with
  | Insert pos _ => pos
  | Replace _ e _ => e
  end.

Abbreviation Patches := (list Patch).

End patch.

(** ** Package [instrument] *)

Module instrument.

(** Go's [error] values are carried as their message. *)
Abbreviation error := string.

Import patch.

(** The test of the loop body of [appendNoContradict]. *)
Definition contradicts (toadd p : Patch) : bool :=
  (EndPos toadd <=? EndPos p) && (StartPos p <=? EndPos toadd)
  || (StartPos toadd <=? EndPos p) && (StartPos p <=? StartPos toadd).

(** [appendNoContradict] of instrument.go. *)
Fixpoint appendNoContradict_loop (rest : Patches) (patches : Patches)
         (toadd : Patch) : Patches :=
  match rest with
  | [] => patches ++ [toadd]
  | p :: rest' =>
    if contradicts toadd p then patches
    else appendNoContradict_loop rest' patches toadd
  end.

Definition appendNoContradict (patches : Patches) (toadd : Patch) : Patches :=
  appendNoContradict_loop patches patches toadd.

(** *** The environment: [go/build], [path/filepath], [os] and the parser *)

(** A call that returns [(value, error)]. *)
Inductive res (T : Type) :=
| OK (v : T)
| Fail (e : error).
Arguments OK {T} v.
Arguments Fail {T} e.

(** The fields of [build.Package] that the instrumenter reads. *)
Record Package := {
  Dir : string;
  Name : string;
  ImportPath : string;
  GoFiles : list string;
  CgoFiles : list string;
  TestGoFiles : list string;
  XTestGoFiles : list string;
  Imports : list string;
  TestImports : list string;
  XTestImports : list string
}.

(** An import declaration of a parsed file: the position of its path
    literal and the path between the quotes ([imp.Path.Value] without its
    first and last byte). *)
Record ImportSpec := {
  PathPos : Z;
  PathText : string
}.

(** End of the quoted literal. *)
Definition PathEnd (imp : ImportSpec) : Z :=
  PathPos imp + Z.of_nat (String.length (PathText imp)) + 2.

(** [patch.PatchableFile], as far as the instrumenter looks into it. *)
Record PatchableFile := {
  FileId : nat;
  FileImports : list ImportSpec
}.

(** [patch.PatchablePkg.Files]: file name to file, in iteration order. *)
Abbreviation PatchablePkg := (list (string * PatchableFile)).

(** What the code asks of the Go standard library and of the file system.
    Each function is the one of the same name, on the machine and at the
    moment of the run. *)
Class GoEnv := {
  build_Import : string -> res Package;
  build_ImportDir : string -> res Package;
  filepath_Join : list string -> string;
  filepath_Dir : string -> string;
  filepath_Base : string -> string;
  filepath_Clean : string -> string;
  filepath_Rel : string -> string -> res string;
  filepath_Abs : string -> res string;
  repoRootForImportPathStatic : string -> res string;
  os_MkdirAll : string -> option error;
  os_Create : string -> option error;
  os_Close : string -> option error;
  ParseFiles : list string -> res PatchablePkg
}.

(** [build.IsLocalImport] *)
Definition IsLocalImport (path : string) : bool :=
  String.eqb path "." || String.eqb path ".."
  || strings.HasPrefix path "./" || strings.HasPrefix path "../".

(** [filepath.HasPrefix]: a plain string prefix test. *)
Definition filepath_HasPrefix (p prefix : string) : bool :=
  strings.HasPrefix p prefix.

(** *** instrument.go *)

Record Instrumentable := {
  pkg : Package;
  basepkg : string;
  name : string
}.

Definition joinDir `{GoEnv} (dir : string) (files : list string) : list string :=
  map (fun file => filepath_Join [dir; file]) files.

Definition Files `{GoEnv} (i : Instrumentable) : list string :=
  joinDir (Dir (pkg i)) (GoFiles (pkg i) ++ CgoFiles (pkg i)).

Definition TestFiles `{GoEnv} (i : Instrumentable) : list string :=
  joinDir (Dir (pkg i))
          (GoFiles (pkg i) ++ CgoFiles (pkg i) ++ TestGoFiles (pkg i)).

Definition XTestFiles `{GoEnv} (i : Instrumentable) : list string :=
  joinDir (Dir (pkg i)) (XTestGoFiles (pkg i)).

(** The loop of [guessBasepkg]; [None] when [fuel] iterations were not
    enough. *)
Fixpoint guessBasepkg_loop `{GoEnv} (fuel : nat) (p : string) : option string :=
  if strings.Contains p "/" then
    match fuel with
    | O => None
    | S fuel' =>
      let parent := filepath_Dir p in
      match build_Import parent with
      | Fail _ => Some p
      | OK _ => guessBasepkg_loop fuel' parent
      end
    end
  else Some p.

Definition guessBasepkg `{GoEnv} (fuel : nat) (importpath : string)
  : option string :=
  match repoRootForImportPathStatic importpath with
  | Fail _ => guessBasepkg_loop fuel importpath
  | OK root => Some root
  end.

Definition Import_ `{GoEnv} (fuel : nat) (basepkg pkgname : string)
  : option (res Instrumentable) :=
  match build_Import pkgname with
  | Fail err => Some (Fail err)
  | OK pkg =>
    if String.eqb basepkg EmptyString then
      match guessBasepkg fuel (ImportPath pkg) with
      | None => None
      | Some guessed =>
        Some (OK {| pkg := pkg; basepkg := guessed; name := pkgname |})
      end
    else Some (OK {| pkg := pkg; basepkg := basepkg; name := pkgname |})
  end.

Definition ImportFiles (basepkg : string) (files : list string)
  : Instrumentable :=
  {| pkg := {| Dir := EmptyString; Name := EmptyString;
               ImportPath := EmptyString;
               GoFiles := files; CgoFiles := []; TestGoFiles := [];
               XTestGoFiles := []; Imports := []; TestImports := [];
               XTestImports := [] |};
     basepkg := basepkg; name := EmptyString |}.

Definition ImportDir `{GoEnv} (basepkg pkgname : string)
  : res Instrumentable :=
  match build_ImportDir pkgname with
  | Fail err => Fail err
  | OK pkg => OK {| pkg := pkg; basepkg := basepkg; name := pkgname |}
  end.

Definition IsInGopath (i : Instrumentable) : bool :=
  negb (String.eqb (ImportPath (pkg i)) ".").

Definition relevantImport (i : Instrumentable) (imp : string) : bool :=
  if String.eqb (basepkg i) "*" then true
  else if IsInGopath i || negb (String.eqb (basepkg i) EmptyString) then
    filepath_HasPrefix imp (basepkg i) || filepath_HasPrefix (basepkg i) imp
  else IsLocalImport imp.

Definition doimport `{GoEnv} (fuel : nat) (i : Instrumentable) (pkg_ : string)
  : option (res Instrumentable) :=
  if IsLocalImport pkg_ then
    Some (ImportDir (basepkg i) (filepath_Join [Dir (pkg i); pkg_]))
  else
    match Import_ fuel (basepkg i) pkg_ with
    | None => None
    | Some (Fail err) => Some (Fail err)
    | Some (OK r) =>
      Some (OK {| pkg := pkg r; basepkg := basepkg r; name := name i |})
    end.

(** The double quote character, as a string. *)
Definition quote : string := String (ascii_of_nat 34) EmptyString.

(** One turn of the loop over [file.File.Imports] in
    [instrumentPatchable]. *)
Definition rewriteImport `{GoEnv} (i : Instrumentable) (path : string)
           (imp : ImportSpec) (patches : Patches) : res Patches :=
  let v := PathText imp in
  let repl text := Replace (PathPos imp) (PathEnd imp) text in
  if String.eqb v (ImportPath (pkg i)) then
    OK (appendNoContradict patches (repl (quote +:+ "." +:+ quote)))
  else if negb (relevantImport i v) then OK patches
  else if IsLocalImport v then
    let v := filepath_Clean (filepath_Join [path; v]) in
    OK (appendNoContradict patches (repl (quote +:+ v +:+ quote)))
  else
    let v := if String.eqb v (name i) then EmptyString
             else filepath_Join ["gopath"; v] in
    match filepath_Rel path v with
    | Fail err => Fail err
    | OK rel =>
      OK (appendNoContradict patches (repl (quote +:+ "./" +:+ rel +:+ quote)))
    end.

Fixpoint rewriteImports `{GoEnv} (i : Instrumentable) (path : string)
         (imps : list ImportSpec) (patches : Patches) : res Patches :=
  match imps with
  | [] => OK patches
  | imp :: rest =>
    match rewriteImport i path imp patches with
    | Fail err => Fail err
    | OK patches' => rewriteImports i path rest patches'
    end
  end.

(** The files written so far: output path and the patches rendered into
    it ([file.FprintPatched]). *)
Abbreviation Output := (list (string * Patches)).

(** The loop over [pkg.Files] in [instrumentPatchable]. *)
Fixpoint instrumentFiles `{GoEnv} (i : Instrumentable) (outdir path : string)
         (f : PatchableFile -> Patches) (files : PatchablePkg) (out : Output)
  : option error * Output :=
  match files with
  | [] => (None, out)
  | (filename, file) :: rest =>
    let outfile := filepath_Join [outdir; path; filepath_Base filename] in
    match os_Create outfile with
    | Some err => (Some err, out)
    | None =>
      match rewriteImports i path (FileImports file) (f file) with
      | Fail err => (Some err, out)
      | OK patches =>
        let out := out ++ [(outfile, patches)] in
        match os_Close outfile with
        | Some err => (Some err, out)
        | None => instrumentFiles i outdir path f rest out
        end
      end
    end
  end.

Definition instrumentPatchable `{GoEnv} (i : Instrumentable)
           (outdir relpath : string) (pkg_ : PatchablePkg)
           (f : PatchableFile -> Patches) (out : Output)
  : option error * Output :=
  let path :=
    if IsLocalImport relpath then
      strings.ReplaceDotDot (filepath_Join ["locals"; relpath])
    else if negb (String.eqb relpath EmptyString) then
      filepath_Join ["gopath"; ImportPath (pkg i)]
    else EmptyString in
  match os_MkdirAll (filepath_Join [outdir; path]) with
  | Some err => (Some err, out)
  | None => instrumentFiles i outdir path f pkg_ out
  end.

(** Which of a package's file sets a call of [instrumentPatchable] works
    on. *)
Inductive FileSet := Primary | WithTests | ExternalTests.

#[global] Instance FileSet_eq_dec : EqDecision FileSet.
Proof. solve_decision. Defined.

(** The state of one run: the [processed] map, the calls of
    [instrumentPatchable] made so far (package import path and file set),
    and the files written. *)
Record RunState := {
  processed : gmap string bool;
  calls : list (string * FileSet);
  written : Output
}.

Definition emptyRun : RunState :=
  {| processed := ∅; calls := []; written := [] |}.

(** [processed[path]]: a missing key reads as [false]. *)
Definition isProcessed (st : RunState) (path : string) : bool :=
  default false (processed st !! path).

(** [processed[path] = true] *)
Definition markProcessed (st : RunState) (path : string) : RunState :=
  {| processed := <[path := true]> (processed st);
     calls := calls st; written := written st |}.

(** How a call of [instrumentTo] ends: with a nil error, with an error, or
    not within the given recursion depth. *)
Inductive Outcome :=
| Done
| Failed (e : error)
| OutOfFuel.

(** [pkg.ParseFiles(files...)] followed by [i.instrumentPatchable]. *)
Definition parseAndInstrument `{GoEnv} (i : Instrumentable)
           (outdir relpath : string) (f : PatchableFile -> Patches)
           (kind : FileSet) (files : list string) (st : RunState)
  : Outcome * RunState :=
  match ParseFiles files with
  | Fail err => (Failed err, st)
  | OK pkg_ =>
    let '(r, out) := instrumentPatchable i outdir relpath pkg_ f (written st) in
    let st' := {| processed := processed st;
                  calls := calls st ++ [(ImportPath (pkg i), kind)];
                  written := out |} in
    match r with
    | Some err => (Failed err, st')
    | None => (Done, st')
    end
  end.

(** The two nested loops over the import lists in [instrumentTo]; [rec] is
    the recursive call [pkg.instrumentTo(processed, false, outdir, imp, f)]. *)
Fixpoint instrumentImports `{GoEnv} (fuel : nat)
         (rec : Instrumentable -> string -> RunState -> Outcome * RunState)
         (i : Instrumentable) (relpath : string) (imps : list string)
         (st : RunState) : Outcome * RunState :=
  match imps with
  | [] => (Done, st)
  | imp :: rest =>
    if relevantImport i imp then
      match doimport fuel i imp with
      | None => (OutOfFuel, st)
      | Some (Fail err) => (Failed err, st)
      | Some (OK pkg_) =>
        let imp' := if IsLocalImport imp then filepath_Join [relpath; imp]
                    else imp in
        match rec pkg_ imp' st with
        | (Done, st') => instrumentImports fuel rec i relpath rest st'
        | other => other
        end
      end
    else instrumentImports fuel rec i relpath rest st
  end.

Fixpoint instrumentTo `{GoEnv} (fuel : nat) (i : Instrumentable)
         (istest : bool) (outdir relpath : string)
         (f : PatchableFile -> Patches) (st : RunState)
  : Outcome * RunState :=
  match fuel with
  | O => (OutOfFuel, st)
  | S fuel' =>
    if isProcessed st (ImportPath (pkg i)) then (Done, st)
    else
      let st := markProcessed st (ImportPath (pkg i)) in
      match instrumentImports fuel'
              (fun pkg_ imp st => instrumentTo fuel' pkg_ false outdir imp f st)
              i relpath
              (Imports (pkg i) ++ TestImports (pkg i) ++ XTestImports (pkg i))
              st with
      | (Done, st) =>
        if negb istest then
          parseAndInstrument i outdir relpath f Primary (Files i) st
        else
          match parseAndInstrument i outdir relpath f WithTests
                                   (TestFiles i) st with
          | (Done, st) =>
            parseAndInstrument i outdir relpath f ExternalTests
                               (XTestFiles i) st
          | other => other
          end
      | other => other
      end
  end.

(** [InstrumentTo]: a run starts from an empty [processed] map. *)
Definition InstrumentTo `{GoEnv} (fuel : nat) (i : Instrumentable)
           (withtests : bool) (outdir : string)
           (f : PatchableFile -> Patches) : Outcome * RunState :=
  instrumentTo fuel i withtests outdir EmptyString f emptyRun.

(** *** buildcmd.go *)

(** [Flags]: flag name to the text of its value. *)
Abbreviation Flags := (gmap string string).

Record GoCmd := {
  WorkDir : string;
  Executable : string;
  Command : string;
  BuildFlags : Flags;
  Params : list string;
  ExtraFlags : list string
}.

(** The standard [flag] package.  A flag set knows the flags defined on it
    ([formal]), the flags a parse has set with the text of their values, in
    the order [Visit] yields them ([actual]), and the arguments left after
    the flags ([remaining]). *)
Inductive FlagKind := BoolFlag | IntFlag | StringFlag.

Record FlagSet := {
  formal : list (string * FlagKind);
  actual : list (string * string);
  remaining : list string
}.

(** [flag.NewFlagSet] *)
Definition NewFlagSet : FlagSet :=
  {| formal := []; actual := []; remaining := [] |}.

(** The parsing algorithm of [FlagSet.Parse], from the defined flags and the
    argument list to the flags set and the arguments left over, or an
    error. *)
Class FlagEnv := {
  flag_parse : list (string * FlagKind) -> list string ->
               res (list (string * string) * list string)
}.

(** How a call ends that may also panic. *)
Inductive Result (T : Type) :=
| Ret (v : T)
| Error (e : error)
| Panic (msg : string).
Arguments Ret {T} v.
Arguments Error {T} e.
Arguments Panic {T} msg.

Definition isDefined (fs : FlagSet) (name : string) : bool :=
  existsb (fun d => String.eqb (fst d) name) (formal fs).

(** [fs.Bool], [fs.Int], [fs.String]: defining a flag twice panics; [None]
    stands for that panic. *)
Definition defineFlag (fs : FlagSet) (name : string) (kind : FlagKind)
  : option FlagSet :=
  if isDefined fs name then None
  else Some {| formal := formal fs ++ [(name, kind)];
               actual := actual fs; remaining := remaining fs |}.

Fixpoint defineFlags (fs : FlagSet) (names : list string) (kind : FlagKind)
  : option FlagSet :=
  match names with
  | [] => Some fs
  | n :: rest =>
    match defineFlag fs n kind with
    | None => None
    | Some fs' => defineFlags fs' rest kind
    end
  end.

(** [fs.Parse(arguments)] *)
Definition Parse `{FlagEnv} (fs : FlagSet) (arguments : list string)
  : res FlagSet :=
  match flag_parse (formal fs) arguments with
  | Fail err => Fail err
  | OK (set, rest) =>
    OK {| formal := formal fs; actual := set; remaining := rest |}
  end.

(** [Flags.FromFlagSet] on a new map. *)
Definition FromFlagSet (fs : FlagSet) : Flags :=
  fold_left (fun (flags : Flags) f => <[fst f := snd f]> flags) (actual fs) ∅.

(** [l[i:]], which panics ([None]) when [i] is beyond the length. *)
Definition sliceFrom (l : list string) (i : nat) : option (list string) :=
  if (i <=? length l)%nat then Some (drop i l) else None.

(** The loops of the [run] and [test] cases of [NewGoCmdWithFlags]: leading
    arguments for which [stop] is false are parameters, and at the first
    other one, at index [i], the rest is taken from index [i] of
    [globalArgs], which is [flag.Args()] of the process-wide flag set. *)
Fixpoint splitParams (stop : string -> bool) (globalArgs : list string)
         (i : nat) (args : list string) (params : list string)
  : option (list string * list string) :=
  match args with
  | [] => Some (params, [])
  | param :: rest =>
    if stop param then
      match sliceFrom globalArgs i with
      | None => None
      | Some extra => Some (params, extra)
      end
    else splitParams stop globalArgs (S i) rest (params ++ [param])
  end.

(** [sort.SearchStrings(a, x)]: the least index whose element is not below
    [x], the length if there is none. *)
Fixpoint SearchStrings (a : list string) (x : string) : Z :=
  match a with
  | [] => 0
  | y :: rest =>
    match String.compare y x with
    | Lt => 1 + SearchStrings rest x
    | _ => 0
    end
  end.

(** [NewGoCmdWithFlags]; [commandLine] is the process-wide flag set
    [flag.CommandLine], returned as the call leaves it. *)
Definition NewGoCmdWithFlags `{FlagEnv} (commandLine : FlagSet)
           (flags : FlagSet) (workdir : string) (args : list string)
  : Result GoCmd * FlagSet :=
  match args with
  | [] | [_] =>
    (Error "GoCmd must have at least two arguments (e.g. go build)", commandLine)
  | exe :: verb :: rest =>
    let defined :=
      if SearchStrings ["build"; "run"; "test"] verb >? -1 then
        match defineFlag flags "p" IntFlag with
        | None => None
        | Some flags =>
          match defineFlags flags ["x"; "v"; "n"; "a"; "work"] BoolFlag with
          | None => None
          | Some flags =>
            match defineFlags commandLine
                    ["compiler"; "gccgoflags"; "gcflags"; "ldflags"; "tags"]
                    StringFlag with
            | None => None
            | Some commandLine => Some (flags, commandLine)
            end
          end
        end
      else Some (flags, commandLine) in
    match defined with
    | None => (Panic "flag redefined", commandLine)
    | Some (flags, commandLine) =>
      let verbFlags : Result FlagSet :=
        if String.eqb verb "run" then Ret flags
        else if String.eqb verb "build" then
          match defineFlag flags "o" StringFlag with
          | None => Panic "flag redefined"
          | Some flags => Ret flags
          end
        else if String.eqb verb "test" then
          match defineFlags flags ["i"; "c"] BoolFlag with
          | None => Panic "flag redefined"
          | Some flags => Ret flags
          end
        else Error "Currently only build run and test commands supported" in
      match verbFlags with
      | Panic msg => (Panic msg, commandLine)
      | Error e => (Error e, commandLine)
      | Ret flags =>
        match Parse flags rest with
        | Fail err => (Error err, commandLine)
        | OK flags =>
          let split : option (list string * list string) :=
            if String.eqb verb "buid" then Some (remaining flags, [])
            else if String.eqb verb "run" then
              splitParams (fun param => negb (strings.HasSuffix param ".go"))
                          (remaining commandLine) 0 (remaining flags) []
            else if String.eqb verb "test" then
              splitParams (fun param => strings.HasPrefix param "-")
                          (remaining commandLine) 0 (remaining flags) []
            else Some ([], []) in
          match split with
          | None => (Panic "slice bounds out of range", commandLine)
          | Some (params, extra) =>
            (Ret {| WorkDir := workdir; Executable := exe; Command := verb;
                    BuildFlags := FromFlagSet flags;
                    Params := params; ExtraFlags := extra |}, commandLine)
          end
        end
      end
    end
  end.

(** [NewGoCmd]: [NewGoCmdWithFlags] on a new flag set. *)
Definition NewGoCmd `{FlagEnv} (commandLine : FlagSet) (workdir : string)
           (args : list string) : Result GoCmd * FlagSet :=
  NewGoCmdWithFlags commandLine NewFlagSet workdir args.

(** The package [getOutputFileName] imports: the one of the working
    directory when there is no parameter, the first parameter otherwise. *)
Definition targetPackage `{GoEnv} (cmd : GoCmd) : res Package :=
  match Params cmd with
  | [] => build_ImportDir (WorkDir cmd)
  | p :: _ => build_Import p
  end.

Definition getOutputFileName `{GoEnv} (cmd : GoCmd) : res string :=
  if (1 <? length (Params cmd))%nat then
    Fail "No support for more than a single package"
  else
    match targetPackage cmd with
    | Fail err => Fail err
    | OK pkg_ =>
      if negb (String.eqb (Name pkg_) "main") then
        Fail "gosloppy should be used for testing packages or producing executables, not for building packages"
      else
        match filepath_Abs (Dir pkg_) with
        | Fail err => Fail err
        | OK d => OK (filepath_Base d)
        end
    end.

(** [cmd.BuildFlags[key]]: a missing key reads as the empty string. *)
Definition flagValue (flags : Flags) (key : string) : string :=
  default EmptyString (flags !! key).

Definition Retarget `{GoEnv} (cmd : GoCmd) (newdir : string) : res GoCmd :=
  match filepath_Rel newdir (WorkDir cmd) with
  | Fail err => Fail err
  | OK rel =>
    let buildflags : res Flags :=
      if String.eqb (Command cmd) "run" || String.eqb (Command cmd) "test" then
        OK (BuildFlags cmd)
      else if String.eqb (Command cmd) "build" then
        let v := flagValue (BuildFlags cmd) "o" in
        let named : res string :=
          if String.eqb v EmptyString then getOutputFileName cmd else OK v in
        match named with
        | Fail err => Fail err
        | OK v => OK (<["o" := filepath_Join [rel; v]]> (BuildFlags cmd))
        end
      else Fail "No support for commands other than build test or run" in
    match buildflags with
    | Fail err => Fail err
    | OK buildflags =>
      OK {| WorkDir := newdir; Executable := Executable cmd;
            Command := Command cmd; BuildFlags := buildflags;
            Params := Params cmd; ExtraFlags := ExtraFlags cmd |}
    end
  end.

End instrument.

(** ** Package [main] *)

Module main.

Import patch.

(** *** The syntax tree ([go/ast]) *)

Inductive ObjKind := Bad | Pkg | Con | Typ | Var | Fun | Lbl.

#[global] Instance ObjKind_eq_dec : EqDecision ObjKind.
Proof. solve_decision. Defined.

(** [ast.Object]: a declared entity.  Two objects of the tree are the same
    object when they are declared at the same place. *)
Record Object := {
  Kind : ObjKind;
  ObjName : string;
  DeclPos : Z
}.

#[global] Instance Object_eq_dec : EqDecision Object.
Proof. solve_decision. Defined.

(** [ast.Ident]; [Obj] is [None] for a nil object. *)
Record Ident := {
  IdentName : string;
  IdentPos : Z;
  Obj : option Object
}.

Inductive Token := DEFINE | ASSIGN | OtherToken.

#[global] Instance Token_eq_dec : EqDecision Token.
Proof. solve_decision. Defined.

(** Induction over the tree goes through the lists, pairs and options that
    hold a node's children. *)
Scheme All for list.
Scheme All for prod.
Scheme All for option.

(** Expressions, statements and the specs of a declaration.  [NilExpr] and
    [NilStmt] are the nil interface values, which optional children hold;
    [OtherExpr] and [OtherStmt] stand for the node kinds the walker has no
    case for (composite literals, type expressions, empty statements).  A
    field of a parameter list is the pair of its names and its type. *)
Inductive expr :=
| NilExpr
| IdentExpr (id : Ident)
| BasicLit (value : string)
| Ellipsis (elt : expr)
| FuncLit (params results : option (list (list Ident * expr))) (body : stmt)
| BadExpr
| ParenExpr (x : expr)
| SelectorExpr (x sel : expr)
| IndexExpr (x index : expr)
| SliceExpr (x low high : expr)
| TypeAssertExpr (x type : expr)
| CallExpr (fun_ : expr) (args : list expr)
| StarExpr (x : expr)
| UnaryExpr (x : expr)
| BinaryExpr (x y : expr)
| KeyValueExpr (key value : expr)
| OtherExpr (what : string)
with stmt :=
| NilStmt
| ExprStmt (x : expr)
| IncDecStmt (x : expr)
| ReturnStmt (results : list expr)
| AssignStmt (lhs : list expr) (tokpos : Z) (tok : Token) (rhs : list expr)
| DeclStmt (specs : option (list spec))
| SendStmt (chan value : expr)
| DeferStmt (call : expr)
| GoStmt (call : expr)
| LabeledStmt (s : stmt)
| BranchStmt
| IfStmt (init : stmt) (cond : expr) (body else_ : stmt)
| ForStmt (init : stmt) (cond : expr) (post body : stmt)
| RangeStmt (key value : expr) (tok : Token) (x : expr) (body : stmt)
| CaseClause (list_ : list expr) (body : list stmt)
| SwitchStmt (init : stmt) (tag : expr) (body : stmt)
| TypeSwitchStmt (init assign body : stmt)
| CommClause (comm : stmt) (body : list stmt)
| SelectStmt (body : stmt)
| BlockStmt (list_ : list stmt)
| OtherStmt (what : string)
with spec :=
| TypeSpec (name : Ident) (type : expr)
| ValueSpec (names : list Ident) (values : list expr)
| ImportSpec.

Scheme expr_mut := Induction for expr Sort Prop
with stmt_mut := Induction for stmt Sort Prop
with spec_mut := Induction for spec Sort Prop.

Combined Scheme ast_mutind from expr_mut, stmt_mut, spec_mut.

Abbreviation Field := (list Ident * expr)%type.

(** Top-level declarations.  [Recv] is [None] for a function that is not a
    method; [Body] is [NilStmt] for a declaration without a body. *)
Inductive decl :=
| FuncDecl (recv : option (list Field)) (name : Ident) (params : list Field)
           (body : stmt)
| GenDecl (specs : list spec)
| BadDecl.

(** *** Scopes ([ast.Scope]) *)

(** The store holds the [Objects] table of every scope allocated so far; a
    scope is named by its index. *)
Abbreviation Heap := (list (gmap string Object)).

(** A [*ast.Scope]: the index of the scope followed by the indices of its
    enclosing scopes, innermost first (the [Outer] chain, which never changes
    once a scope is made); the empty chain is the nil pointer. *)
Abbreviation ScopeRef := (list nat).

(** [scope.Outer] *)
Definition Outer (sc : ScopeRef) : ScopeRef := tail sc.

(** [scope.Lookup(name)]: only the scope's own table. *)
Definition scopeLookup (h : Heap) (sc : ScopeRef) (name : string)
  : option Object :=
  match sc with
  | [] => None
  | id :: _ => (h !! id) ≫= (fun objects => objects !! name)
  end.

(** Modelled from the spec: [Lookup] is called by the error-check pass and
    its definition is not part of the sources at hand.  A scope is a mapping
    from binding name to binding object with a reference to its enclosing
    scope, and nested scopes shadow outer bindings: the innermost scope of
    the chain that binds the name decides. *)
Fixpoint Lookup (h : Heap) (sc : ScopeRef) (name : string) : option Object :=
  match sc with
  | [] => None
  | id :: outer =>
    match (h !! id) ≫= (fun objects => objects !! name) with
    | Some obj => Some obj
    | None => Lookup h outer name
    end
  end.

(** *** The walker's effects *)

(** How a computation ends: with a value, or aborted by a [panic] or by
    [log.Fatalf]. *)
Inductive Outcome (A : Type) :=
| Finished (a : A)
| Abort (msg : string).
Arguments Finished {A} a.
Arguments Abort {A} msg.

(** A call the walker makes to its visitor, with the scope it passes and the
    store at the time of the call. *)
Inductive Event :=
| EvExpr (sc : ScopeRef) (e : expr) (h : Heap)
| EvStmt (sc : ScopeRef) (s : stmt) (h : Heap)
| EvExit (sc : ScopeRef) (h : Heap).

Definition eventHeap (ev : Event) : Heap :=
  match ev with
  | EvExpr _ _ h | EvStmt _ _ h | EvExit _ h => h
  end.

Definition eventScope (ev : Event) : ScopeRef :=
  match ev with
  | EvExpr sc _ _ | EvStmt sc _ _ | EvExit sc _ => sc
  end.

(** [ScopeVisitor]: the three methods of the interface, on visitor values
    [V] that may change a world [W] of their own (patches, reports).  A
    method returns the visitor for the subtree, [None] for nil. *)
Class ScopeVisitor (V W : Type) := {
  VisitExpr : V -> Heap -> ScopeRef -> expr -> W -> Outcome (option V * W);
  VisitStmt : V -> Heap -> ScopeRef -> stmt -> W -> Outcome (option V * W);
  ExitScope : V -> Heap -> ScopeRef -> W -> Outcome (option V * W)
}.

Section Walker.

Context {V W : Type} `{!ScopeVisitor V W}.

(** The state a walk threads: the scopes, the visitor's world and the calls
    made to the visitor so far. *)
Record WalkState := {
  heap : Heap;
  world : W;
  trace : list Event
}.

Definition M (A : Type) : Type := WalkState -> Outcome (A * WalkState).

Definition ret {A} (a : A) : M A := fun st => Finished (a, st).

Definition bind {A B} (m : M A) (k : A -> M B) : M B :=
  fun st =>
    match m st with
    | Finished (a, st') => k a st'
    | Abort msg => Abort msg
    end.

Definition abort {A} (msg : string) : M A := fun _ => Abort msg.

Notation "x <- m ;; k" := (bind m (fun x => k))
  (at level 62, m at next level, right associativity).
Notation "m ;;; k" := (bind m (fun _ => k))
  (at level 62, right associativity).

(** [for _, x := range l { f(x) }] *)
Definition forEach {A} (f : A -> M unit) : list A -> M unit :=
  fix go (l : list A) : M unit :=
    match l with
    | [] => ret tt
    | x :: rest => f x ;;; go rest
    end.

(** [for _, x := range l { acc = f(x, acc) }] *)
Definition foldEach {A B} (f : A -> B -> M B) : list A -> B -> M B :=
  fix go (l : list A) (acc : B) : M B :=
    match l with
    | [] => ret acc
    | x :: rest => acc' <- f x acc ;; go rest acc'
    end.

(** [ast.NewScope(outer)] *)
Definition NewScope (outer : ScopeRef) : M ScopeRef :=
  fun st =>
    Finished (length (heap st) :: outer,
              {| heap := heap st ++ [∅]; world := world st;
                 trace := trace st |}).

(** [scope.Insert(obj)]: the table keeps an object it already has under the
    name.  A nil or dangling scope aborts, as the nil dereference does. *)
Definition scopeInsert (sc : ScopeRef) (obj : Object) : M unit :=
  fun st =>
    match sc with
    | [] => Abort "nil scope"
    | id :: _ =>
      match heap st !! id with
      | None => Abort "nil scope"
      | Some objects =>
        match objects !! ObjName obj with
        | Some _ => Finished (tt, st)
        | None =>
          Finished (tt, {| heap := <[id := <[ObjName obj := obj]> objects]> (heap st);
                           world := world st; trace := trace st |})
        end
      end
    end.

(** [insertToScope] of scopewalker.go; a nil object aborts at [obj.Name]. *)
Definition insertToScope (sc : ScopeRef) (obj : option Object) : M unit :=
  match obj with
  | None => abort "nil object"
  | Some obj =>
    if String.eqb (ObjName obj) "_" then ret tt
    else if bool_decide (Kind obj = Fun) && String.eqb (ObjName obj) "init"
    then ret tt
    else scopeInsert sc obj
  end.

(** The calls [v.VisitExpr(scope, expr)], [v.VisitStmt(scope, stmt)] and
    [v.ExitScope(scope)]. *)
Definition callVisitExpr (v : V) (sc : ScopeRef) (e : expr) : M (option V) :=
  fun st =>
    match VisitExpr v (heap st) sc e (world st) with
    | Abort msg => Abort msg
    | Finished (w, world') =>
      Finished (w, {| heap := heap st; world := world';
                      trace := trace st ++ [EvExpr sc e (heap st)] |})
    end.

Definition callVisitStmt (v : V) (sc : ScopeRef) (s : stmt) : M (option V) :=
  fun st =>
    match VisitStmt v (heap st) sc s (world st) with
    | Abort msg => Abort msg
    | Finished (w, world') =>
      Finished (w, {| heap := heap st; world := world';
                      trace := trace st ++ [EvStmt sc s (heap st)] |})
    end.

Definition callExitScope (v : V) (sc : ScopeRef) : M unit :=
  fun st =>
    match ExitScope v (heap st) sc (world st) with
    | Abort msg => Abort msg
    | Finished (_, world') =>
      Finished (tt, {| heap := heap st; world := world';
                       trace := trace st ++ [EvExit sc (heap st)] |})
    end.

(** The type assertion of [expr] to an identifier, then [.Obj]: the
    assertion panics on another node. *)
Definition identObj (e : expr) : M (option Object) :=
  match e with
  | IdentExpr id => ret (Obj id)
  | _ => abort "interface conversion: ast.Expr is not *ast.Ident"
  end.

(** [exitScopes] *)
Fixpoint exitScopes (v : V) (inner limit : ScopeRef) : M unit :=
  if decide (inner = limit) then ret tt
  else
    match inner with
    | [] => abort "exitScopes must be bounded"
    | _ :: outer => callExitScope v inner ;;; exitScopes v outer limit
    end.

(** [WalkFields], with the walk of a field's type as [walkType]. *)
Definition walkFields (walkType : expr -> ScopeRef -> M unit)
           (fields : list Field) (sc : ScopeRef) : M unit :=
  forEach (fun field : Field =>
             forEach (fun name => insertToScope sc (Obj name)) (fst field) ;;;
             walkType (snd field) sc)
          fields.

(** [if fields != nil { WalkFields(v, fields.List, scope) }] *)
Definition walkFieldList (walkType : expr -> ScopeRef -> M unit)
           (fields : option (list Field)) (sc : ScopeRef) : M unit :=
  match fields with
  | None => ret tt
  | Some l => walkFields walkType l sc
  end.

(** [if s != nil { inner = WalkStmt(v, s, inner) }] *)
Definition walkInit (walk : stmt -> ScopeRef -> M ScopeRef) (s : stmt)
           (inner : ScopeRef) : M ScopeRef :=
  match s with
  | NilStmt => ret inner
  | _ => walk s inner
  end.

(** [if e != nil { WalkExpr(v, e, scope) }] *)
Definition walkOpt (walk : expr -> ScopeRef -> M unit) (e : expr)
           (sc : ScopeRef) : M unit :=
  match e with
  | NilExpr => ret tt
  | _ => walk e sc
  end.

(** [WalkExpr] and [WalkStmt] of scopewalker.go; [WalkSpec] is the body of
    the loop over the specs of a declaration statement. *)
Fixpoint WalkExpr (v : V) (e : expr) (sc : ScopeRef) {struct e} : M unit :=
  w <- callVisitExpr v sc e ;;
  match w with
  | None => ret tt
  | Some v =>
    match e with
    | Ellipsis elt => walkOpt (WalkExpr v) elt sc
    | FuncLit params results body =>
      newscope <- NewScope sc ;;
      walkFieldList (WalkExpr v) params newscope ;;;
      walkFieldList (WalkExpr v) results newscope ;;;
      WalkStmt v body newscope ;;;
      callExitScope v newscope
    | BadExpr => ret tt
    | ParenExpr x => WalkExpr v x sc
    | SelectorExpr x sel => WalkExpr v x sc ;;; WalkExpr v sel sc
    | IndexExpr x index => WalkExpr v x sc ;;; WalkExpr v index sc
    | SliceExpr x low high =>
      WalkExpr v x sc ;;;
      walkOpt (WalkExpr v) low sc ;;;
      walkOpt (WalkExpr v) high sc
    | TypeAssertExpr x type => WalkExpr v x sc ;;; walkOpt (WalkExpr v) type sc
    | CallExpr fun_ args =>
      WalkExpr v fun_ sc ;;; forEach (fun e => WalkExpr v e sc) args
    | StarExpr x => WalkExpr v x sc
    | UnaryExpr x => WalkExpr v x sc
    | BinaryExpr x y => WalkExpr v x sc ;;; WalkExpr v y sc
    | KeyValueExpr key value => WalkExpr v key sc ;;; WalkExpr v value sc
    | NilExpr | IdentExpr _ | BasicLit _ | OtherExpr _ => ret tt
    end
  end

with WalkStmt (v : V) (s : stmt) (sc : ScopeRef) {struct s} : M ScopeRef :=
  w <- callVisitStmt v sc s ;;
  match w with
  | None => ret sc
  | Some v =>
    match s with
    | ExprStmt x => WalkExpr v x sc ;;; ret sc
    | IncDecStmt x => WalkExpr v x sc ;;; ret sc
    | ReturnStmt results => forEach (fun e => WalkExpr v e sc) results ;;; ret sc
    | AssignStmt lhs _ tok rhs =>
      if decide (tok = DEFINE) then
        newscope <- NewScope sc ;;
        forEach (fun e => WalkExpr v e sc) rhs ;;;
        forEach (fun e => obj <- identObj e ;; insertToScope newscope obj) lhs ;;;
        ret newscope
      else
        forEach (fun e => WalkExpr v e sc) lhs ;;;
        forEach (fun e => WalkExpr v e sc) rhs ;;;
        ret sc
    | DeclStmt (Some specs) =>
      foldEach (fun sp newscope => WalkSpec v sp sc newscope) specs sc
    | DeclStmt None => abort "only GenDecl can appear in statement"
    | SendStmt chan value => WalkExpr v chan sc ;;; WalkExpr v value sc ;;; ret sc
    | DeferStmt call => WalkExpr v call sc ;;; ret sc
    | GoStmt call => WalkExpr v call sc ;;; ret sc
    | LabeledStmt s' => WalkStmt v s' sc ;;; ret sc
    | BranchStmt => ret sc
    | IfStmt init cond body else_ =>
      inner <- walkInit (WalkStmt v) init sc ;;
      WalkExpr v cond sc ;;;
      WalkStmt v body inner ;;;
      walkInit (WalkStmt v) else_ inner ;;;
      exitScopes v inner sc ;;;
      ret sc
    | ForStmt init cond post body =>
      inner <- walkInit (WalkStmt v) init sc ;;
      walkOpt (WalkExpr v) cond sc ;;;
      walkInit (WalkStmt v) post sc ;;;
      WalkStmt v body sc ;;;
      exitScopes v inner sc ;;;
      ret sc
    | RangeStmt key value tok _ body =>
      inner <-
        (if decide (tok = ASSIGN) then
           WalkExpr v key sc ;;; WalkExpr v value sc ;;; ret sc
         else if decide (tok = DEFINE) then
           inner <- NewScope sc ;;
           kobj <- identObj key ;;
           insertToScope inner kobj ;;;
           match value with
           | NilExpr => ret inner
           | _ => vobj <- identObj value ;; insertToScope inner vobj ;;; ret inner
           end
         else abort "range statement must have := or = token") ;;
      WalkStmt v body sc ;;;
      exitScopes v inner sc ;;;
      ret sc
    | CaseClause list_ body =>
      inner <- NewScope sc ;;
      forEach (fun e => WalkExpr v e sc) list_ ;;;
      inner <- foldEach (fun s' inner => WalkStmt v s' inner) body inner ;;
      exitScopes v inner sc ;;;
      ret sc
    | SwitchStmt init tag body =>
      inner <- walkInit (WalkStmt v) init sc ;;
      WalkExpr v tag sc ;;;
      WalkStmt v body inner ;;;
      exitScopes v inner sc ;;;
      ret sc
    | TypeSwitchStmt init assign body =>
      inner <- walkInit (WalkStmt v) init sc ;;
      inner <- WalkStmt v assign inner ;;
      WalkStmt v body inner ;;;
      exitScopes v inner sc ;;;
      ret sc
    | CommClause comm body =>
      inner <- WalkStmt v comm sc ;;
      inner <- foldEach (fun s' inner => WalkStmt v s' inner) body inner ;;
      exitScopes v inner sc ;;;
      ret sc
    | SelectStmt body => WalkStmt v body sc ;;; ret sc
    | BlockStmt list_ =>
      inner <- NewScope sc ;;
      inner <- foldEach (fun s' inner => WalkStmt v s' inner) list_ inner ;;
      exitScopes v inner sc ;;;
      ret sc
    | NilStmt | OtherStmt _ => abort "Cannot understand"
    end
  end

with WalkSpec (v : V) (sp : spec) (sc newscope : ScopeRef) {struct sp}
  : M ScopeRef :=
  newscope <- NewScope newscope ;;
  match sp with
  | TypeSpec name type =>
    insertToScope newscope (Obj name) ;;;
    WalkExpr v type sc ;;;
    ret newscope
  | ValueSpec names values =>
    forEach (fun name => insertToScope newscope (Obj name)) names ;;;
    forEach (fun value => WalkExpr v value sc) values ;;;
    ret newscope
  | ImportSpec => abort "cannot have an import in a statement (or so I hope)"
  end.

(** [WalkFields] *)
Definition WalkFields (v : V) (fields : list Field) (sc : ScopeRef) : M unit :=
  walkFields (WalkExpr v) fields sc.

(** [ast.File], as far as [WalkFile] reads it. *)
Record File := {
  Decls : list decl;
  FileScope : ScopeRef
}.

(** [d.Recv.List[0].Names[0].Obj]: panics when an index is out of range. *)
Definition receiverObj (recv : list Field) : M (option Object) :=
  match recv with
  | (name :: _, _) :: _ => ret (Obj name)
  | _ => abort "index out of range"
  end.

(** The body of the loop over [file.Decls] in [WalkFile]. *)
Definition WalkDecl (v : V) (file : File) (d : decl) : M unit :=
  match d with
  | FuncDecl recv _ params body =>
    sc <- NewScope (FileScope file) ;;
    match recv with
    | None => ret tt
    | Some l => obj <- receiverObj l ;; insertToScope sc obj
    end ;;;
    WalkFields v params sc ;;;
    match body with
    | NilStmt => ret tt
    | _ => WalkStmt v body sc ;;; ret tt
    end ;;;
    callExitScope v sc
  | GenDecl specs =>
    forEach (fun sp =>
               match sp with
               | ValueSpec _ values =>
                 forEach (fun value => WalkExpr v value (FileScope file)) values
               | _ => ret tt
               end) specs
  | BadDecl => ret tt
  end.

(** [WalkFile]; the visitor is [None] for nil. *)
Definition WalkFile (v : option V) (file : File) : M unit :=
  match v with
  | None => ret tt
  | Some v =>
    forEach (WalkDecl v file) (Decls file) ;;;
    callExitScope v (FileScope file)
  end.

End Walker.

(** *** shorterror.go *)

(** What the pass asks of [patch.PatchableFile] and of the positions the
    parser recorded in the tree: [file.Fset.Position] (file name, line and
    column), [file.Get] (the source text of a node), [Pos()] and [End()] of
    expressions and statements, and [file.File.End()]. *)
Class SourceFile := {
  Position : Z -> string * Z * Z;
  Get : expr -> string;
  exprPos : expr -> Z;
  exprEnd : expr -> Z;
  stmtPos : stmt -> Z;
  stmtEnd : stmt -> Z;
  fileEnd : Z
}.

(** The fields of a [ShortError] that differ from one visitor object to the
    next; [file] and [patches] are shared by all of them. *)
Record ShortError := {
  stmt_ : stmt;
  block : option (list stmt);
  tmpvar : Z;
  initTxt : string
}.

(** The world of the pass: the [ShortError] objects allocated so far (a
    visitor is a pointer to one, its index), the shared patch list and what
    was written to standard output. *)
Record PassWorld := {
  objects : list ShortError;
  patches : Patches;
  stdout : list string
}.

Definition P (A : Type) : Type := PassWorld -> Outcome (A * PassWorld).

Definition pret {A} (a : A) : P A := fun w => Finished (a, w).

Definition pbind {A B} (m : P A) (k : A -> P B) : P B :=
  fun w =>
    match m w with
    | Finished (a, w') => k a w'
    | Abort msg => Abort msg
    end.

Notation "x <~ m ;; k" := (pbind m (fun x => k))
  (at level 62, m at next level, right associativity).

(** [NewShortError]: one object, an empty patch list. *)
Definition NewShortError : nat * PassWorld :=
  (O, {| objects := [{| stmt_ := NilStmt; block := None; tmpvar := 0;
                        initTxt := EmptyString |}];
         patches := []; stdout := [] |}).

(** Reading and updating the object a visitor points to. *)
Definition getObj (v : nat) : P ShortError :=
  fun w =>
    match objects w !! v with
    | Some o => Finished (o, w)
    | None => Abort "nil visitor"
    end.

Definition setObj (v : nat) (o : ShortError) : P unit :=
  fun w => Finished (tt, {| objects := <[v := o]> (objects w);
                            patches := patches w; stdout := stdout w |}).

(** [*v.patches = append( *v.patches, ps...)] *)
Definition appendPatches (ps : Patches) : P unit :=
  fun w => Finished (tt, {| objects := objects w;
                            patches := patches w ++ ps; stdout := stdout w |}).

(** [fmt.Println]: the operands in their default formats with a space
    between any two, and a newline. *)
Definition newline : string := String (ascii_of_nat 10) EmptyString.

Definition Println (operands : list string) : P unit :=
  fun w => Finished (tt, {| objects := objects w; patches := patches w;
                            stdout := stdout w
                                      ++ [String.concat " " operands +:+ newline] |}).

Definition tempVarLimit : Z := 10 * 1000.

(** The loop of [tempVar], cut off after [fuel] turns ([None]): the name
    found and the counter the visitor is left with, or the panic. *)
Fixpoint tempVar_loop (fuel : nat) (h : Heap) (stem : string) (sc : ScopeRef)
         (counter : Z) : option (Outcome string * Z) :=
  if counter <? tempVarLimit then
    match fuel with
    | O => None
    | S fuel' =>
      let name := stem +:+ strings.Itoa counter in
      match Lookup h sc name with
      | None => Some (Finished name, counter + 1)
      | Some _ => tempVar_loop fuel' h stem sc (counter + 1)
      end
    end
  else
    Some (Abort ">100,000 temporary variables used. Either the code is crazy, or I am.",
          counter).

(** The number of turns the loop can take from a counter. *)
Definition tempVarTurns (counter : Z) : nat := Z.to_nat (tempVarLimit - counter).

(** [v.tempVar(stem, scope)] *)
Definition tempVar (v : nat) (stem : string) (h : Heap) (sc : ScopeRef)
  : P string :=
  o <~ getObj v ;;
  match tempVar_loop (tempVarTurns (tmpvar o)) h stem sc (tmpvar o) with
  | None => fun _ => Abort "tempVar: loop cut off"
  | Some (Abort msg, _) => fun _ => Abort msg
  | Some (Finished name, counter) =>
    _ <~ setObj v {| stmt_ := stmt_ o; block := block o; tmpvar := counter;
                     initTxt := initTxt o |} ;;
    pret name
  end.

Definition MustKeyword : string := "must".

(** [v.addToInit(txt)] *)
Definition addToInit (v : nat) (txt : string) : P unit :=
  o <~ getObj v ;;
  setObj v {| stmt_ := stmt_ o; block := block o; tmpvar := tmpvar o;
              initTxt := initTxt o +:+ txt |}.

(** [afterImports] *)
Definition afterImports `{SourceFile} : Z := fileEnd.

(** A call whose function is the identifier [must]: the identifier and the
    arguments. *)
Definition mustCall (e : expr) : option (Ident * list expr) :=
  match e with
  | CallExpr (IdentExpr fun_) args =>
    if String.eqb (IdentName fun_) MustKeyword then Some (fun_, args) else None
  | _ => None
  end.

Definition mustArity : string :=
  "%s:%d:%d: 'must' builtin must be called with exactly one argument".

(** [ShortError.VisitExpr]; the result is the visitor returned, [None] for
    nil. *)
Definition ShortError_VisitExpr `{SourceFile} (v : nat) (h : Heap)
           (sc : ScopeRef) (e : expr) : P (option nat) :=
  match mustCall e with
  | None => pret (Some v)
  | Some (fun_, args) =>
    match args with
    | [arg] =>
      tmpVar <~ tempVar v "tmp_" h sc ;;
      tmpErr <~ tempVar v "err_" h sc ;;
      let mustexpr := Get arg in
      o <~ getObj v ;;
      match block o with
      | None =>
        _ <~ addToInit v ("if " +:+ tmpErr +:+ " != nil {panic(" +:+ tmpErr
                          +:+ ")};") ;;
        _ <~ appendPatches
               [Replace (exprPos e) (exprEnd e) tmpVar;
                Insert afterImports
                       (";var " +:+ tmpVar +:+ ", " +:+ tmpErr +:+ " = "
                        +:+ mustexpr)] ;;
        pret (Some v)
      | Some _ =>
        _ <~ appendPatches
               [Insert (stmtPos (stmt_ o))
                       ("var " +:+ tmpVar +:+ ", " +:+ tmpErr +:+ " = "
                        +:+ mustexpr +:+ "; " +:+ "if " +:+ tmpErr
                        +:+ " != nil {panic(" +:+ tmpErr +:+ ")};")] ;;
        _ <~ appendPatches [Replace (exprPos e) (exprEnd e) tmpVar] ;;
        pret (Some v)
      end
    | _ =>
      let '(filename, line, column) := Position (IdentPos fun_) in
      _ <~ Println [mustArity; filename; strings.Itoa line;
                    strings.Itoa column] ;;
      pret None
    end
  end.

(** [for _, arg := range rhs.Args { v.VisitExpr(scope, arg) }] *)
Fixpoint visitArgs `{SourceFile} (v : nat) (h : Heap) (sc : ScopeRef)
         (args : list expr) : P unit :=
  match args with
  | [] => pret tt
  | arg :: rest =>
    _ <~ ShortError_VisitExpr v h sc arg ;;
    visitArgs v h sc rest
  end.

(** [ShortError.VisitStmt] *)
Definition ShortError_VisitStmt `{SourceFile} (v : nat) (h : Heap)
           (sc : ScopeRef) (s : stmt) : P (option nat) :=
  o <~ getObj v ;;
  _ <~ setObj v {| stmt_ := s; block := block o; tmpvar := tmpvar o;
                   initTxt := initTxt o |} ;;
  match s with
  | BlockStmt list_ =>
    fun w =>
      Finished (Some (length (objects w)),
                {| objects := objects w
                              ++ [{| stmt_ := s; block := Some list_;
                                     tmpvar := 0; initTxt := EmptyString |}];
                   patches := patches w; stdout := stdout w |})
  | AssignStmt lhs tokpos tok [rhs] =>
    match mustCall rhs with
    | None => pret (Some v)
    | Some (fun_, args) =>
      tmpVar <~ tempVar v "assignerr_" h sc ;;
      _ <~ appendPatches
             [Insert tokpos (", " +:+ tmpVar +:+ " ");
              Replace (exprPos (IdentExpr fun_)) (exprEnd (IdentExpr fun_))
                      EmptyString;
              Insert (stmtEnd s)
                     ("; if " +:+ tmpVar +:+ " != nil " +:+ "{ panic("
                      +:+ tmpVar +:+ ") };")] ;;
      _ <~ visitArgs v h sc args ;;
      pret None
    end
  | _ => pret (Some v)
  end.

End main.

(* ===================================================================== *)
(** * Part I, continued: more of the sources                               *)
(* ===================================================================== *)

(** ** shorterror.go: declarations and the end of the file *)

Module shorterror.

Import patch main.

(** [ident.End()]: the position after the name. *)
Definition identEnd (id : Ident) : Z :=
  IdentPos id + Z.of_nat (String.length (IdentName id)).

(** [findinit]: the first function declaration named [init]. *)
Fixpoint findinit (decls : list decl) : option decl :=
  match decls with
  | [] => None
  | d :: rest =>
    match d with
    | FuncDecl _ name _ _ =>
      if String.eqb (IdentName name) "init" then Some d else findinit rest
    | _ => findinit rest
    end
  end.

Section Pass.

Context `{SourceFile}.

Notation "x <~ m ;; k" := (pbind m (fun x => k))
  (at level 62, m at next level, right associativity).

(** The body of the loop over [decl.Specs] in [VisitDecl], for one spec:
    [Some r] when the method returns [r] from inside the loop, [None] when
    the loop goes on.  The loop acts on a value spec with one value, a
    call. *)
Definition visitSpec (v : nat) (h : Heap) (sc : ScopeRef) (sp : spec)
  : P (option (option nat)) :=
  match sp with
  | ValueSpec names [CallExpr fun_ args] =>
    let call := CallExpr fun_ args in
    match mustCall call with
    | None => pret (Some (Some v))
    | Some _ =>
      match args with
      | [arg] =>
        tmpErr <~ tempVar v "tlderr_" h sc ;;
        match last names with
        | None => fun _ => Abort "index out of range"
        | Some lastName =>
          _ <~ appendPatches
                 [Insert (identEnd lastName) (", " +:+ tmpErr);
                  Replace (exprPos call) (exprEnd call) (Get arg)] ;;
          _ <~ addToInit v ("if " +:+ tmpErr +:+ " != nil { panic(" +:+ tmpErr
                            +:+ ") }") ;;
          pret None
        end
      | _ =>
        let '(filename, line, column) := Position (exprPos call) in
        _ <~ Println [mustArity; filename; strings.Itoa line;
                      strings.Itoa column] ;;
        pret (Some None)
      end
    end
  | _ => pret None
  end.

(** The loop over the specs of a declaration, and the [return nil] after
    it. *)
Fixpoint visitSpecs (v : nat) (h : Heap) (sc : ScopeRef) (specs : list spec)
  : P (option nat) :=
  match specs with
  | [] => pret None
  | sp :: rest =>
    r <~ visitSpec v h sc sp ;;
    match r with
    | Some returned => pret returned
    | None => visitSpecs v h sc rest
    end
  end.

(** [ShortError.VisitDecl] *)
Definition ShortError_VisitDecl (v : nat) (h : Heap) (sc : ScopeRef)
           (d : decl) : P (option nat) :=
  match d with
  | GenDecl specs => visitSpecs v h sc specs
  | _ => pret (Some v)
  end.

(** [ShortError.ExitScope]; [node] is the file when the node is one, [None]
    for any other node.  [init.Body.Lbrace] is the position of the body,
    and a declaration of [init] without a body is a nil dereference. *)
Definition ShortError_ExitScope (v : nat) (node : option File)
  : P (option nat) :=
  match node with
  | None => pret (Some v)
  | Some file =>
    o <~ getObj v ;;
    if (0 <? String.length (initTxt o))%nat then
      match findinit (Decls file) with
      | Some (FuncDecl _ _ _ NilStmt) =>
        fun _ => Abort "nil pointer dereference"
      | Some (FuncDecl _ _ _ body) =>
        _ <~ appendPatches [Insert (stmtPos body + 1) (initTxt o)] ;;
        pret (Some v)
      | _ =>
        _ <~ appendPatches
               [Insert afterImports
                       (";func init() {" +:+ initTxt o +:+ "}")] ;;
        pret (Some v)
      end
    else pret (Some v)
  end.

End Pass.

End shorterror.

(* ===================================================================== *)
(** * Part II: the vocabulary of the specification                         *)
(* ===================================================================== *)

(** ** Patches *)

Module patch_spec.

Import patch instrument.

(** Two ranges intersect when they share a position; both ends count, as in
    the comparisons of [appendNoContradict]. *)
Definition intersects (p q : Patch) : Prop :=
  exists x : Z, StartPos p <= x <= EndPos p /\ StartPos q <= x <= EndPos q.

(** A range is well formed when it does not end before it starts. *)
Definition wf_patch (p : Patch) : Prop := StartPos p <= EndPos p.

(** No two patches of the list have intersecting ranges. *)
Fixpoint NoOverlap (ps : Patches) : Prop :=
  match ps with
  | [] => True
  | p :: rest => Forall (fun q => ~ intersects p q) rest /\ NoOverlap rest
  end.

(** The new patch reaches beyond an accepted one on both sides. *)
Definition encloses (toadd p : Patch) : Prop :=
  StartPos toadd < StartPos p /\ EndPos p < EndPos toadd.

End patch_spec.

(** ** The relevance predicate *)

Module relevance_spec.

Import instrument.

(** [p] is a prefix of [s], as strings. *)
Definition StringPrefix (p s : string) : Prop := exists t, s = p +:+ t.

(** The import and the base path stand in a prefix relation, one way or the
    other. *)
Definition PrefixRelated (imp base : string) : Prop :=
  StringPrefix base imp \/ StringPrefix imp base.

(** The precedence as the specification words it: the wildcard, then an
    explicit base path, then the local imports. *)
Definition relevance_as_specified (i : Instrumentable) (imp : string) : Prop :=
  (basepkg i = "*" -> relevantImport i imp = true)
  /\ (basepkg i <> "*" -> basepkg i <> EmptyString ->
      (relevantImport i imp = true <-> PrefixRelated imp (basepkg i)))
  /\ (basepkg i = EmptyString ->
      (relevantImport i imp = true <-> IsLocalImport imp = true)).

(** A package found in GOPATH, under the import path [a/b], for which no
    base path is configured. *)
Definition gopathPackage : Instrumentable :=
  {| pkg := {| Dir := "/gopath/src/a/b"; Name := "b"; ImportPath := "a/b";
               GoFiles := ["b.go"]; CgoFiles := []; TestGoFiles := [];
               XTestGoFiles := []; Imports := ["fmt"]; TestImports := [];
               XTestImports := [] |};
     basepkg := EmptyString; name := "/gopath/src/a/b" |}.

(** A package of a directory outside GOPATH. *)
Definition standalonePackage : Instrumentable :=
  {| pkg := {| Dir := "."; Name := "main"; ImportPath := ".";
               GoFiles := ["main.go"]; CgoFiles := []; TestGoFiles := [];
               XTestGoFiles := []; Imports := ["./sub"; "fmt"];
               TestImports := []; XTestImports := [] |};
     basepkg := EmptyString; name := "." |}.

End relevance_spec.

(** ** The package closure *)

Module closure_spec.

Import patch instrument.

Section World.

Context `{GoEnv}.

(** The packages the toolchain can resolve on the machine are finitely many:
    their import paths lie in [U] and are at most [L] bytes long.  The last
    field is what [guessBasepkg] relies on when it climbs from a path to its
    parent: the directory part of a path with a slash is shorter than the
    path, whenever that parent can be imported. *)
Record ClosedWorld (U : gset string) (L : nat) : Prop := {
  import_known : forall path p,
      build_Import path = OK p -> ImportPath p ∈ U;
  importdir_known : forall dir p,
      build_ImportDir dir = OK p -> ImportPath p ∈ U;
  known_short : forall p, p ∈ U -> (String.length p <= L)%nat;
  dir_shrinks : forall p parent,
      strings.Contains p "/" = true ->
      build_Import (filepath_Dir p) = OK parent ->
      (String.length (filepath_Dir p) < String.length p)%nat
}.

(** The known import paths a run has not processed yet. *)
Definition todo (U : gset string) (st : RunState) : gset string :=
  filter (fun p => isProcessed st p = false) U.

(** Everything processed in [st] is processed in [st']. *)
Definition grows (st st' : RunState) : Prop :=
  forall p, isProcessed st p = true -> isProcessed st' p = true.

(** From [st] to [st'] the [processed] map only grew, and the calls of
    [instrumentPatchable] made in between are pairwise different and all for
    packages that were not processed in [st] and are in [st']. *)
Definition Step (st st' : RunState) : Prop :=
  grows st st'
  /\ exists new : list (string * FileSet),
      calls st' = calls st ++ new
      /\ NoDup new
      /\ forall p k, (p, k) ∈ new ->
                     isProcessed st p = false /\ isProcessed st' p = true.

End World.

(** A small GOPATH: [a] imports [a/b] and [a/c], both import [a/d] (a
    diamond), and [a/b] imports [a] back (a cycle). *)
Definition gopathOf (path : string) (imports : list string) : Package :=
  {| Dir := "/gopath/src/" +:+ path; Name := "p"; ImportPath := path;
     GoFiles := ["x.go"]; CgoFiles := []; TestGoFiles := [];
     XTestGoFiles := []; Imports := imports; TestImports := [];
     XTestImports := [] |}.

Definition diamondImport (path : string) : res Package :=
  if String.eqb path "a" then OK (gopathOf "a" ["a/b"; "a/c"])
  else if String.eqb path "a/b" then OK (gopathOf "a/b" ["a/d"; "a"])
  else if String.eqb path "a/c" then OK (gopathOf "a/c" ["a/d"])
  else if String.eqb path "a/d" then OK (gopathOf "a/d" [])
  else Fail "cannot find package".

Definition diamondEnv : GoEnv :=
  {| build_Import := diamondImport;
     build_ImportDir := fun _ => Fail "no such directory";
     filepath_Join := String.concat "/";
     filepath_Dir := fun _ => ".";
     filepath_Base := fun p => p;
     filepath_Clean := fun p => p;
     filepath_Rel := fun _ target => OK target;
     filepath_Abs := fun p => OK p;
     repoRootForImportPathStatic := fun _ => Fail "unknown host";
     os_MkdirAll := fun _ => None;
     os_Create := fun _ => None;
     os_Close := fun _ => None;
     ParseFiles := fun files => OK (map (fun f => (f, {| FileId := O; FileImports := [] |})) files) |}.

Definition diamondRoot : Instrumentable :=
  {| pkg := gopathOf "a" ["a/b"; "a/c"]; basepkg := "a"; name := "a" |}.

Definition diamondPaths : gset string := {["a"; "a/b"; "a/c"; "a/d"]}.

End closure_spec.

(** ** The toolchain command *)

Module buildcmd_spec.

Import instrument.

(** The default output name, from the outcome of importing the target
    package. *)
Definition outputNameOf `{GoEnv} (target : res Package) : res string :=
  match target with
  | Fail err => Fail err
  | OK p =>
    if String.eqb (Name p) "main" then
      match filepath_Abs (Dir p) with
      | Fail err => Fail err
      | OK d => OK (filepath_Base d)
      end
    else
      Fail "gosloppy should be used for testing packages or producing executables, not for building packages"
  end.

(** A parser of flags that takes every argument for a positional one. *)
Definition positionalOnly : FlagEnv :=
  {| flag_parse := fun _ arguments => OK ([], arguments) |}.

(** A machine with the main package [hello] in [/src/hello]. *)
Definition helloPackage : Package :=
  {| Dir := "/src/hello"; Name := "main"; ImportPath := ".";
     GoFiles := ["hello.go"]; CgoFiles := []; TestGoFiles := [];
     XTestGoFiles := []; Imports := []; TestImports := [];
     XTestImports := [] |}.

Definition helloEnv : GoEnv :=
  {| build_Import := fun _ => Fail "cannot find package";
     build_ImportDir := fun dir =>
       if String.eqb dir "/src/hello" then OK helloPackage
       else Fail "no such directory";
     filepath_Join := String.concat "/";
     filepath_Dir := fun _ => ".";
     filepath_Base := fun p =>
       if String.eqb p "/src/hello" then "hello" else p;
     filepath_Clean := fun p => p;
     filepath_Rel := fun base target =>
       if String.eqb base "/tmp/out" && String.eqb target "/src/hello"
       then OK "../../src/hello" else Fail "Rel: can't make relative";
     filepath_Abs := fun p => OK p;
     repoRootForImportPathStatic := fun _ => Fail "unknown host";
     os_MkdirAll := fun _ => None;
     os_Create := fun _ => None;
     os_Close := fun _ => None;
     ParseFiles := fun _ => OK [] |}.

(** [go build] in [/src/hello]. *)
Definition helloBuild : GoCmd :=
  {| WorkDir := "/src/hello"; Executable := "go"; Command := "build";
     BuildFlags := ∅; Params := []; ExtraFlags := [] |}.

End buildcmd_spec.

(** ** The scope walker *)

Module walker_spec.

Import patch main.

(** The objects the walker never puts into a scope: the blank identifier
    and a function named [init]. *)
Definition exempt (o : Object) : Prop :=
  ObjName o = "_" \/ (Kind o = Fun /\ ObjName o = "init").

(** Scope [id] of the store binds [name] to [o]. *)
Definition binds (h : Heap) (id : nat) (name : string) (o : Object) : Prop :=
  exists objects, h !! id = Some objects /\ objects !! name = Some o.

(** Every scope of the chain is allocated in the store. *)
Definition validScope (h : Heap) (sc : ScopeRef) : Prop :=
  Forall (fun id => (id < length h)%nat) sc.

(** From [h] to [h'] scopes were only added, the scopes below [n] are as
    they were, and every binding that is new is of an object that is not
    exempt, under its own name. *)
Definition Extends (n : nat) (h h' : Heap) : Prop :=
  (length h <= length h')%nat
  /\ (forall id, (id < n)%nat -> h' !! id = h !! id)
  /\ (forall id name o,
         binds h' id name o ->
         binds h id name o \/ (~ exempt o /\ ObjName o = name)).

Section Keeps.

Context {V W : Type} `{!ScopeVisitor V W}.

(** A computation that, started with at least [n] scopes allocated, only
    extends the store in the sense of [Extends n], only adds calls to the
    trace, and calls the visitor on such extensions only. *)
Definition Keeps {A} (n : nat) (m : M (W:=W) A) : Prop :=
  forall st a st',
    (n <= length (heap st))%nat ->
    m st = Finished (a, st') ->
    Extends n (heap st) (heap st')
    /\ exists evs, trace st' = trace st ++ evs
                   /\ Forall (fun ev => Extends n (heap st) (eventHeap ev)) evs.

End Keeps.

(** The visitor that looks at nothing and never prunes. *)
Definition Everywhere : ScopeVisitor unit unit :=
  {| VisitExpr := fun v _ _ _ w => Finished (Some v, w);
     VisitStmt := fun v _ _ _ w => Finished (Some v, w);
     ExitScope := fun v _ _ w => Finished (Some v, w) |}.

(** A function body with one scope allocated, which binds an outer [x]. *)
Definition outerX : Object := {| Kind := Var; ObjName := "x"; DeclPos := 10 |}.
Definition innerX : Object := {| Kind := Var; ObjName := "x"; DeclPos := 40 |}.

Definition bodyHeap : Heap := [{["x" := outerX]}].

Definition bodyState : WalkState (W:=unit) :=
  {| heap := bodyHeap; world := tt; trace := [] |}.

(** [x := x + 1], the left [x] declared here and the right [x] resolved by
    the parser to the outer one. *)
Definition rightX : expr :=
  IdentExpr {| IdentName := "x"; IdentPos := 45; Obj := Some outerX |}.

Definition xPlusOne : expr := BinaryExpr rightX (BasicLit "1").

Definition defineX : stmt :=
  AssignStmt [IdentExpr {| IdentName := "x"; IdentPos := 40; Obj := Some innerX |}]
             42 DEFINE [xPlusOne].

(** [for k := range e { k }] *)
Definition keyK : Object := {| Kind := Var; ObjName := "k"; DeclPos := 60 |}.

Definition useK : stmt :=
  ExprStmt (IdentExpr {| IdentName := "k"; IdentPos := 80; Obj := Some keyK |}).

Definition rangeK : stmt :=
  RangeStmt (IdentExpr {| IdentName := "k"; IdentPos := 60; Obj := Some keyK |})
            NilExpr DEFINE (OtherExpr "e") (BlockStmt [useK]).

(** [if k := f(); c { k }], for comparison. *)
Definition ifK : stmt :=
  IfStmt (AssignStmt
            [IdentExpr {| IdentName := "k"; IdentPos := 60; Obj := Some keyK |}]
            62 DEFINE [OtherExpr "f()"])
         (OtherExpr "c") (BlockStmt [useK]) NilStmt.

(** [_, x := f()] *)
Definition blankObj : Object := {| Kind := Var; ObjName := "_"; DeclPos := 38 |}.

Definition initFunc : Object := {| Kind := Fun; ObjName := "init"; DeclPos := 5 |}.

Definition mainFunc : Object := {| Kind := Fun; ObjName := "main"; DeclPos := 5 |}.

(** What a visitor finds when it resolves [name] at a call. *)
Definition resolvedAt (ev : Event) (name : string) : option Object :=
  Lookup (eventHeap ev) (eventScope ev) name.

End walker_spec.

(** ** The implicit error-check pass *)

Module shorterror_spec.

Import patch main.

(** A source file [f.go] whose every position is on line 3, the column being
    the offset; identifiers and calls end where their text ends. *)
Definition demoFile : SourceFile :=
  {| Position := fun pos => ("f.go", 3, pos);
     Get := fun e =>
       match e with
       | IdentExpr id => IdentName id
       | _ => "g()"
       end;
     exprPos := fun e =>
       match e with
       | IdentExpr id => IdentPos id
       | CallExpr (IdentExpr id) _ => IdentPos id
       | _ => 0
       end;
     exprEnd := fun e =>
       match e with
       | IdentExpr id => IdentPos id + Z.of_nat (String.length (IdentName id))
       | CallExpr (IdentExpr id) _ => IdentPos id + 10
       | _ => 0
       end;
     stmtPos := fun _ => 10;
     stmtEnd := fun _ => 25;
     fileEnd := 100 |}.

Definition ident (name : string) (pos : Z) : expr :=
  IdentExpr {| IdentName := name; IdentPos := pos; Obj := None |}.

(** [must(a, b)], the call at column 15. *)
Definition mustTwo : expr := CallExpr (ident "must" 15) [ident "a" 20; ident "b" 23].

(** [x := must(a, b)] *)
Definition assignMustTwo : stmt :=
  AssignStmt [ident "x" 10] 12 DEFINE [mustTwo].

(** The world of a pass that has visited nothing yet, inside a block. *)
Definition inBlock : PassWorld :=
  {| objects := [{| stmt_ := NilStmt; block := Some []; tmpvar := 0;
                    initTxt := EmptyString |}];
     patches := []; stdout := [] |}.

(** The report the specification asks for: the position as
    file:line:column, then the message. *)
Definition positionedReport (filename : string) (line column : Z) : string :=
  filename +:+ ":" +:+ strings.Itoa line +:+ ":" +:+ strings.Itoa column
  +:+ ": 'must' builtin must be called with exactly one argument".

(** The message of the panic of [tempVar]. *)
Definition tempVarPanic : string :=
  ">100,000 temporary variables used. Either the code is crazy, or I am.".

End shorterror_spec.

(** ** Further vocabulary: patches and paths *)

Module instrument_spec.

Import patch instrument patch_spec.

(** The range of the path literal of an import, as a patch on it. *)
Definition literalOf (imp : ImportSpec) : Patch :=
  Replace (PathPos imp) (PathEnd imp) EmptyString.

(** [p] replaces the path literal of one of the imports [imps]. *)
Definition rewritesOneOf (imps : list ImportSpec) (p : Patch) : Prop :=
  exists imp text, imp ∈ imps /\ p = Replace (PathPos imp) (PathEnd imp) text.

(** The string has two dots in a row somewhere. *)
Definition hasDotDot (s : string) : Prop :=
  exists a b, s = a +:+ ".." +:+ b.

(** A file with two imports, at offsets 20 and 30, and a pass that inserts
    at offset 5. *)
Definition twoImports : list ImportSpec :=
  [{| PathPos := 20; PathText := "fmt" |}; {| PathPos := 30; PathText := "a/b" |}].

(** What [instrumentPatchable] writes for the file [ff] of the package: the
    output path under [outdir] and [path], and the patches of the pass
    followed by the import rewrites. *)
Definition writtenFor `{GoEnv} (i : Instrumentable) (outdir path : string)
           (f : PatchableFile -> Patches) (ff : string * PatchableFile)
           (entry : string * Patches) : Prop :=
  fst entry = filepath_Join [outdir; path; filepath_Base (fst ff)]
  /\ rewriteImports i path (FileImports (snd ff)) (f (snd ff)) = OK (snd entry).

End instrument_spec.

(** ** Further vocabulary: the closure *)

Module closure_more_spec.

Import patch instrument closure_spec.

(** A GOPATH with the packages [a] and [a/b], and directories as the path
    says. *)
Definition climbEnv : GoEnv :=
  {| build_Import := fun path =>
       if String.eqb path "a" then OK (gopathOf "a" [])
       else if String.eqb path "a/b" then OK (gopathOf "a/b" [])
       else if String.eqb path "a/b/c" then OK (gopathOf "a/b/c" ["a/b"])
       else Fail "cannot find package";
     build_ImportDir := fun _ => Fail "no such directory";
     filepath_Join := String.concat "/";
     filepath_Dir := fun p =>
       if String.eqb p "a/b/c" then "a/b"
       else if String.eqb p "a/b" then "a" else ".";
     filepath_Base := fun p => p;
     filepath_Clean := fun p => p;
     filepath_Rel := fun _ target => OK target;
     filepath_Abs := fun p => OK p;
     repoRootForImportPathStatic := fun _ => Fail "unknown host";
     os_MkdirAll := fun _ => None;
     os_Create := fun _ => None;
     os_Close := fun _ => None;
     ParseFiles := fun files =>
       OK (map (fun f => (f, {| FileId := O; FileImports := [] |})) files) |}.

(** All the imports of a package, in the order [instrumentTo] goes through
    them. *)
Definition allImports (i : Instrumentable) : list string :=
  Imports (pkg i) ++ TestImports (pkg i) ++ XTestImports (pkg i).

(** The calls a package makes for its own files. *)
Definition ownCalls (i : Instrumentable) (istest : bool)
  : list (string * FileSet) :=
  if istest then [(ImportPath (pkg i), WithTests);
                  (ImportPath (pkg i), ExternalTests)]
  else [(ImportPath (pkg i), Primary)].

End closure_more_spec.

(** ** Further vocabulary: the toolchain command *)

Module buildcmd_more_spec.

Import instrument.

(** The argument a [run] or [test] command line stops its parameters at. *)
Definition stopsParams (verb param : string) : bool :=
  if String.eqb verb "run" then negb (strings.HasSuffix param ".go")
  else strings.HasPrefix param "-".

(** A process started without arguments of its own. *)
Definition freshProcess : FlagSet := NewFlagSet.

(** [go build -o out], as a command in [/src/hello]. *)
Definition helloBuildOut : GoCmd :=
  {| WorkDir := "/src/hello"; Executable := "go"; Command := "build";
     BuildFlags := {["o" := "out"; "v" := "true"]};
     Params := []; ExtraFlags := [] |}.

End buildcmd_more_spec.

(** ** Further vocabulary: the scope walker *)

Module walker_more_spec.

Import patch main walker_spec.

(** The statements that bring names into scope for what follows them: a
    defining assignment and a declaration. *)
Definition declares (s : stmt) : bool :=
  match s with
  | AssignStmt _ _ DEFINE _ => true
  | DeclStmt _ => true
  | _ => false
  end.

(** The chains from [pre ++ limit] down to [limit], which is not one of
    them: each is the tail of the one before. *)
Fixpoint chainsFrom (pre limit : ScopeRef) : list ScopeRef :=
  match pre with
  | [] => []
  | id :: rest => (id :: rest ++ limit) :: chainsFrom rest limit
  end.

(** [{ x := x + 1 }] *)
Definition blockDefineX : stmt := BlockStmt [defineX].

End walker_more_spec.

(** ** Further vocabulary: the implicit error-check pass *)

Module shorterror_more_spec.

Import patch main shorterror shorterror_spec.

(** The number a string of decimal digits stands for, read after [acc]. *)
Fixpoint valueOf (s : string) (acc : N) : N :=
  match s with
  | EmptyString => acc
  | String c r => valueOf r (10 * acc + (N_of_ascii c - 48))
  end.

(** The visitor object [o] with its counter at [counter]. *)
Definition withCounter (o : ShortError) (counter : Z) : ShortError :=
  {| stmt_ := stmt_ o; block := block o; tmpvar := counter;
     initTxt := initTxt o |}.

(** The check [VisitDecl] adds to [init] for the error variable [err]. *)
Definition initCheck (err : string) : string :=
  "if " +:+ err +:+ " != nil { panic(" +:+ err +:+ ") }".

(** The declaration [VisitExpr] inserts before a statement. *)
Definition blockDeclaration (tmp err mustexpr : string) : string :=
  "var " +:+ tmp +:+ ", " +:+ err +:+ " = " +:+ mustexpr +:+ "; " +:+ "if "
  +:+ err +:+ " != nil {panic(" +:+ err +:+ ")};".

(** The declaration [VisitExpr] inserts at the end of the file, and the
    check it adds to [init]. *)
Definition fileDeclaration (tmp err mustexpr : string) : string :=
  ";var " +:+ tmp +:+ ", " +:+ err +:+ " = " +:+ mustexpr.

Definition fileCheck (err : string) : string :=
  "if " +:+ err +:+ " != nil {panic(" +:+ err +:+ ")};".

(** [must(a)], the call at column 15. *)
Definition mustOne : expr := CallExpr (ident "must" 15) [ident "a" 20].

(** [var x = must(a)] *)
Definition varMustOne : decl :=
  GenDecl [ValueSpec [{| IdentName := "x"; IdentPos := 10; Obj := None |}]
                     [mustOne]].

(** A file with that declaration and no function [init]. *)
Definition fileMustOne : File := {| Decls := [varMustOne]; FileScope := [] |}.

End shorterror_more_spec.

(* ===================================================================== *)
(** * Part III: theorems                                                   *)
(* ===================================================================== *)

(** ** The string helpers on a few inputs *)

Module strings_facts.

Example HasSuffix_go :
  strings.HasSuffix "main.go" ".go" = true
  /\ strings.HasSuffix "go" ".go" = false
  /\ strings.HasSuffix "pkg/a" ".go" = false.
Proof. repeat split. Qed.

Example Contains_slash :
  strings.Contains "a/b/c" "/" = true /\ strings.Contains "fmt" "/" = false.
Proof. repeat split. Qed.

Example ReplaceDotDot_up :
  strings.ReplaceDotDot "locals/../lib" = "locals/__/lib"
  /\ strings.ReplaceDotDot "a...b" = "a__.b".
Proof. repeat split. Qed.

Example Itoa_decimal :
  strings.Itoa 0 = "0" /\ strings.Itoa 7 = "7" /\ strings.Itoa 9999 = "9999"
  /\ strings.Itoa 10000 = "10000" /\ strings.Itoa (-12) = "-12".
Proof. repeat split. Qed.

Example SearchStrings_never_negative :
  instrument.SearchStrings ["build"; "run"; "test"] "build" = 0
  /\ instrument.SearchStrings ["build"; "run"; "test"] "test" = 2
  /\ instrument.SearchStrings ["build"; "run"; "test"] "vet" = 3
  /\ instrument.SearchStrings ["build"; "run"; "test"] "a" = 0.
Proof. repeat split. Qed.

End strings_facts.

(** ** The patch engine's acceptance rule *)

Module patch_facts.

Import patch instrument patch_spec.

Lemma contradicts_true (toadd p : Patch) :
  contradicts toadd p = true <->
  (StartPos p <= EndPos toadd <= EndPos p)
  \/ (StartPos p <= StartPos toadd <= EndPos p).
Proof.
  unfold contradicts.
  rewrite orb_true_iff, !andb_true_iff, !Z.leb_le. lia.
Qed.

Lemma appendNoContradict_loop_dropped (rest patches : Patches) (toadd : Patch) :
  Exists (fun p => contradicts toadd p = true) rest ->
  appendNoContradict_loop rest patches toadd = patches.
Proof.
  induction rest as [|p rest IH]; intros Hex.
  - inversion Hex.
  - simpl. destruct (contradicts toadd p) eqn:E; [reflexivity|].
    apply IH. inversion Hex; subst; [congruence|assumption].
Qed.

Lemma appendNoContradict_loop_appended (rest patches : Patches) (toadd : Patch) :
  Forall (fun p => contradicts toadd p = false) rest ->
  appendNoContradict_loop rest patches toadd = patches ++ [toadd].
Proof.
  induction rest as [|p rest IH]; intros Hall; simpl; [reflexivity|].
  inversion Hall; subst. rewrite H1. now apply IH.
Qed.

(** A patch with an end inside an accepted range is dropped without an
    error. *)
Lemma appendNoContradict_dropped (patches : Patches) (toadd : Patch) :
  Exists (fun p => contradicts toadd p = true) patches ->
  appendNoContradict patches toadd = patches.
Proof. apply appendNoContradict_loop_dropped. Qed.

(** A patch neither end of which lies inside an accepted range is
    appended. *)
Lemma appendNoContradict_appended (patches : Patches) (toadd : Patch) :
  Forall (fun p => contradicts toadd p = false) patches ->
  appendNoContradict patches toadd = patches ++ [toadd].
Proof. apply appendNoContradict_loop_appended. Qed.

(** The test of [appendNoContradict] finds every intersection of two well
    formed ranges but the one where the new patch encloses the accepted
    one. *)
Lemma contradicts_iff_intersects (toadd p : Patch) :
  wf_patch toadd -> wf_patch p ->
  (contradicts toadd p = true <-> intersects toadd p /\ ~ encloses toadd p).
Proof.
  unfold wf_patch, intersects, encloses. intros Ht Hp.
  rewrite contradicts_true. split.
  - intros [H|H]; split; try lia.
    + exists (EndPos toadd). lia.
    + exists (StartPos toadd). lia.
  - intros [[x Hx] Hn]. lia.
Qed.

Lemma NoOverlap_snoc (ps : Patches) (t : Patch) :
  NoOverlap ps -> Forall (fun p => ~ intersects p t) ps ->
  NoOverlap (ps ++ [t]).
Proof.
  induction ps as [|p ps IH]; simpl; intros Hno Hall.
  - split; [constructor|exact I].
  - destruct Hno as [Hp Hps]. inversion Hall; subst. split.
    + apply Forall_app. split; [assumption|]. constructor; [assumption|constructor].
    + now apply IH.
Qed.

Lemma intersects_sym (p q : Patch) : intersects p q -> intersects q p.
Proof. intros [x Hx]. exists x. tauto. Qed.

(** What the acceptance rule does keep: an overlap-free set of well formed
    patches stays overlap-free when the proposed patch encloses none of the
    accepted ones. *)
Lemma appendNoContradict_keeps_NoOverlap (patches : Patches) (toadd : Patch) :
  NoOverlap patches -> Forall wf_patch patches -> wf_patch toadd ->
  Forall (fun p => ~ encloses toadd p) patches ->
  NoOverlap (appendNoContradict patches toadd).
Proof.
  intros Hno Hwf Ht Henc.
  destruct (decide (Exists (fun p => contradicts toadd p = true) patches))
    as [Hex|Hnex].
  - now rewrite appendNoContradict_dropped.
  - assert (Hall : Forall (fun p => contradicts toadd p = false) patches).
    { apply Forall_forall. intros p Hp.
      destruct (contradicts toadd p) eqn:E; [|reflexivity].
      exfalso. apply Hnex. apply Exists_exists. eauto. }
    rewrite appendNoContradict_appended by assumption.
    apply NoOverlap_snoc; [assumption|].
    rewrite Forall_forall in *. intros p Hp Hint.
    specialize (Hall p Hp). specialize (Hwf p Hp). specialize (Henc p Hp).
    assert (contradicts toadd p = true); [|congruence].
    apply contradicts_iff_intersects; auto using intersects_sym.
Qed.

(** C1. A patch that strictly encloses an accepted one is appended, although
    the two ranges intersect: from the accepted set [[5,7)] and the proposed
    replacement of [[3,10)], [appendNoContradict] returns a set with two
    overlapping patches. *)
Theorem appendNoContradict_accepts_enclosing_patch :
  let accepted := [Replace 5 7 "a"] in
  let toadd := Replace 3 10 "b" in
  NoOverlap accepted
  /\ intersects toadd (Replace 5 7 "a")
  /\ appendNoContradict accepted toadd = [Replace 5 7 "a"; Replace 3 10 "b"]
  /\ ~ NoOverlap (appendNoContradict accepted toadd).
Proof.
  simpl. repeat split.
  - constructor.
  - exists 5. simpl. lia.
  - intros [Hall _]. inversion Hall as [|q l Hq _]; subst.
    apply Hq. exists 5. simpl. lia.
Qed.

End patch_facts.

(** ** The relevance predicate *)

Module relevance_facts.

Import instrument relevance_spec.

Lemma prefix_StringPrefix (p s : string) :
  String.prefix p s = true <-> StringPrefix p s.
Proof.
  unfold StringPrefix. revert s.
  induction p as [|a p IH]; intros s; simpl.
  - destruct s; split; intros; eauto.
  - destruct s as [|b s]; simpl.
    + split; [discriminate|]. intros [t Ht]. discriminate.
    + destruct (ascii_dec a b) as [->|Hne].
      * rewrite IH.
        split; intros [t Ht]; exists t;
          change (String b p +:+ t) with (String b (p +:+ t)) in *; congruence.
      * split; [discriminate|]. intros [t Ht].
        change (String a p +:+ t) with (String a (p +:+ t)) in Ht. congruence.
Qed.

Lemma HasPrefix_related (imp base : string) :
  filepath_HasPrefix imp base || filepath_HasPrefix base imp = true
  <-> PrefixRelated imp base.
Proof.
  unfold filepath_HasPrefix, strings.HasPrefix, PrefixRelated.
  now rewrite orb_true_iff, !prefix_StringPrefix.
Qed.

(** C3, as the code has it.  The wildcard matches every import.  Otherwise
    the prefix rule applies when a base path is configured or the package
    lies in GOPATH (its import path is not the dot).  Only a package outside
    GOPATH with no base path matches exactly the local imports. *)
Theorem relevantImport_precedence (i : Instrumentable) (imp : string) :
  (basepkg i = "*" -> relevantImport i imp = true)
  /\ (basepkg i <> "*" ->
      basepkg i <> EmptyString \/ ImportPath (pkg i) <> "." ->
      (relevantImport i imp = true <-> PrefixRelated imp (basepkg i)))
  /\ (basepkg i = EmptyString -> ImportPath (pkg i) = "." ->
      (relevantImport i imp = true <-> IsLocalImport imp = true)).
Proof.
  unfold relevantImport, IsInGopath. repeat split.
  - intros ->. reflexivity.
  - intros Hrel. destruct (String.eqb (basepkg i) "*") eqn:Estar.
    + apply String.eqb_eq in Estar. contradiction.
    + destruct (_ || _) eqn:Egate in Hrel.
      * now apply HasPrefix_related.
      * apply orb_false_iff in Egate. destruct Egate as [E1 E2].
        apply negb_false_iff, String.eqb_eq in E1.
        apply negb_false_iff, String.eqb_eq in E2.
        destruct H0; contradiction.
  - intros Hrel. apply String.eqb_neq in H. rewrite H.
    assert (Egate : negb (String.eqb (ImportPath (pkg i)) ".")
                    || negb (String.eqb (basepkg i) EmptyString) = true).
    { apply orb_true_iff. destruct H0 as [Hb|Hp].
      - right. apply negb_true_iff. now apply String.eqb_neq.
      - left. apply negb_true_iff. now apply String.eqb_neq. }
    rewrite Egate. now apply HasPrefix_related.
  - rewrite H, H0. simpl. trivial.
  - rewrite H, H0. simpl. trivial.
Qed.

(** The third case at a package outside GOPATH: its local import is
    relevant. *)
Lemma relevantImport_precedence_witness :
  relevantImport standalonePackage "./sub" = true.
Proof.
  apply (proj2 (proj2 (relevantImport_precedence standalonePackage "./sub")));
    reflexivity.
Defined.

(** C3, as the specification words it, fails for a package in GOPATH with no
    base path: every import is relevant to it, also [fmt], which is not a
    local import. *)
Lemma relevance_as_specified_fails :
  ~ relevance_as_specified gopathPackage "fmt".
Proof.
  intros (_ & _ & Hlocal).
  specialize (Hlocal eq_refl). destruct Hlocal as [Hlocal _].
  specialize (Hlocal eq_refl). discriminate Hlocal.
Qed.

End relevance_facts.

(** ** The package closure instrumenter *)

Module closure_facts.

Import patch instrument closure_spec.

Section Closure.

Context `{GoEnv}.

Lemma isProcessed_mark (st : RunState) (q p : string) :
  isProcessed (markProcessed st q) p = true <->
  p = q \/ isProcessed st p = true.
Proof.
  unfold isProcessed, markProcessed. simpl.
  destruct (decide (q = p)) as [->|Hne].
  - rewrite lookup_insert_eq. simpl. tauto.
  - rewrite lookup_insert_ne by assumption.
    split; [tauto|]. intros [->|Hp]; [contradiction|assumption].
Qed.

Lemma grows_refl (st : RunState) : grows st st.
Proof. intros p Hp. exact Hp. Qed.

Lemma grows_trans (a b c : RunState) : grows a b -> grows b c -> grows a c.
Proof. intros Hab Hbc p Hp. auto. Qed.

Lemma grows_mark (st : RunState) (q : string) : grows st (markProcessed st q).
Proof. intros p Hp. apply isProcessed_mark. now right. Qed.

Lemma Step_refl (st : RunState) : Step st st.
Proof.
  split; [apply grows_refl|]. exists []. split; [|split].
  - now rewrite app_nil_r.
  - constructor.
  - intros p k Hin. inversion Hin.
Qed.

Lemma not_processed_back (a b : RunState) (p : string) :
  grows a b -> isProcessed b p = false -> isProcessed a p = false.
Proof.
  intros Hab Hb. destruct (isProcessed a p) eqn:E; [|reflexivity].
  apply Hab in E. congruence.
Qed.

Lemma Step_trans (a b c : RunState) : Step a b -> Step b c -> Step a c.
Proof.
  intros [Gab (n1 & C1 & N1 & P1)] [Gbc (n2 & C2 & N2 & P2)].
  split; [eapply grows_trans; eassumption|].
  exists (n1 ++ n2). split; [|split].
  - rewrite C2, C1. now rewrite app_assoc.
  - apply NoDup_app. split; [assumption|]. split; [|assumption].
    intros [p k] Hin1 Hin2.
    destruct (P1 p k Hin1) as [_ Hb]. destruct (P2 p k Hin2) as [Hb' _].
    congruence.
  - intros p k Hin. apply elem_of_app in Hin. destruct Hin as [Hin|Hin].
    + destruct (P1 p k Hin). split; [assumption|]. now apply Gbc.
    + destruct (P2 p k Hin). split; [|assumption].
      eapply not_processed_back; eassumption.
Qed.

(** The calls one package adds for itself: none, one, or the two of a test
    run, in a state where the package is processed. *)
Lemma parseAndInstrument_calls (i : Instrumentable) (outdir relpath : string)
      (f : PatchableFile -> Patches) (kind : FileSet) (files : list string)
      (st : RunState) :
  let r := parseAndInstrument i outdir relpath f kind files st in
  fst r <> OutOfFuel
  /\ processed (snd r) = processed st
  /\ (calls (snd r) = calls st
      \/ calls (snd r) = calls st ++ [(ImportPath (pkg i), kind)])
  /\ (fst r = Done -> calls (snd r) = calls st ++ [(ImportPath (pkg i), kind)]).
Proof.
  unfold parseAndInstrument.
  destruct (ParseFiles files) as [pk|err]; simpl.
  - destruct (instrumentPatchable i outdir relpath pk f (written st)) as [[e|] out];
      simpl; repeat split; auto; discriminate.
  - repeat split; auto; discriminate.
Qed.

Lemma isProcessed_same (a b : RunState) (p : string) :
  processed a = processed b -> isProcessed a p = isProcessed b p.
Proof. unfold isProcessed. now intros ->. Qed.

(** A package's own calls, after the loop over its imports. *)
Lemma own_Step (q : string) (st0 st st' : RunState)
      (own : list (string * FileSet)) :
  isProcessed st0 q = false ->
  Step (markProcessed st0 q) st ->
  processed st' = processed st ->
  calls st' = calls st ++ own ->
  NoDup own ->
  Forall (fun pk => fst pk = q) own ->
  Step st0 st'.
Proof.
  intros Hq0 [G (n & C & N & Pn)] Hproc Hcalls Hnd Hown.
  assert (Hq : isProcessed st q = true).
  { apply G. apply isProcessed_mark. now left. }
  assert (G' : grows st0 st').
  { intros p Hp. rewrite (isProcessed_same st' st) by assumption.
    apply G. now apply grows_mark. }
  rewrite Forall_forall in Hown.
  split; [assumption|].
  exists (n ++ own). split; [|split].
  - rewrite Hcalls, C. simpl. now rewrite app_assoc.
  - apply NoDup_app. split; [assumption|]. split; [|assumption].
    intros [p k] Hin1 Hin2. apply Hown in Hin2. simpl in Hin2. subst p.
    destruct (Pn q k Hin1) as [Hf _].
    assert (isProcessed (markProcessed st0 q) q = true)
      by (apply isProcessed_mark; now left).
    congruence.
  - intros p k Hin. apply elem_of_app in Hin. destruct Hin as [Hin|Hin].
    + destruct (Pn p k Hin) as [Hf Ht]. split.
      * eapply not_processed_back; [apply grows_mark|eassumption].
      * now rewrite (isProcessed_same st' st).
    + apply Hown in Hin. simpl in Hin. subst p. split; [assumption|].
      now rewrite (isProcessed_same st' st).
Qed.

Lemma instrumentImports_Step (fuel : nat)
      (rec : Instrumentable -> string -> RunState -> Outcome * RunState)
      (i : Instrumentable) (relpath : string) :
  (forall j imp st, Step st (snd (rec j imp st))) ->
  forall imps st,
    Step st (snd (instrumentImports fuel rec i relpath imps st)).
Proof.
  intros Hrec imps. induction imps as [|imp rest IH]; intros st; simpl.
  - apply Step_refl.
  - destruct (relevantImport i imp); [|apply IH].
    destruct (doimport fuel i imp) as [[pk|err]|]; simpl; try apply Step_refl.
    specialize (Hrec pk (if IsLocalImport imp then filepath_Join [relpath; imp]
                         else imp) st).
    destruct (rec pk _ st) as [[| |] st']; simpl in *; try assumption.
    eapply Step_trans; [eassumption|apply IH].
Qed.

(** Whatever a call of [instrumentTo] does, it is a [Step]. *)
Lemma instrumentTo_Step (fuel : nat) :
  forall (i : Instrumentable) (istest : bool) (outdir relpath : string)
         (f : PatchableFile -> Patches) (st : RunState),
    Step st (snd (instrumentTo fuel i istest outdir relpath f st)).
Proof.
  induction fuel as [|fuel IH]; intros i istest outdir relpath f st; simpl.
  - apply Step_refl.
  - destruct (isProcessed st (ImportPath (pkg i))) eqn:Hq; simpl.
    + apply Step_refl.
    + set (q := ImportPath (pkg i)) in *.
      pose proof (instrumentImports_Step fuel
                    (fun pkg_ imp st => instrumentTo fuel pkg_ false outdir imp f st)
                    i relpath
                    (fun j imp s => IH j false outdir imp f s)
                    (Imports (pkg i) ++ TestImports (pkg i) ++ XTestImports (pkg i))
                    (markProcessed st q)) as Hloop.
      destruct (instrumentImports _ _ _ _ _ _) as [o st1]. simpl in Hloop.
      assert (Hbase : Step st st1).
      { apply (own_Step q st st1 st1 []); auto using app_nil_r.
        constructor. }
      destruct o; simpl; try assumption.
      destruct istest; simpl.
      * pose proof (parseAndInstrument_calls i outdir relpath f WithTests
                      (TestFiles i) st1) as (_ & P1 & C1 & D1).
        destruct (parseAndInstrument i outdir relpath f WithTests (TestFiles i) st1)
          as [o1 st2]. simpl in *.
        assert (Hmid : Step st st2).
        { destruct C1 as [C1|C1].
          - apply (own_Step q st st1 st2 []); auto.
            + now rewrite app_nil_r.
            + constructor.
          - apply (own_Step q st st1 st2 [(q, WithTests)]); auto.
            apply NoDup_singleton. }
        destruct o1; simpl; try assumption.
        specialize (D1 eq_refl).
        pose proof (parseAndInstrument_calls i outdir relpath f ExternalTests
                      (XTestFiles i) st2) as (_ & P2 & C2 & _).
        destruct (parseAndInstrument i outdir relpath f ExternalTests (XTestFiles i) st2)
          as [o2 st3]. simpl in *.
        destruct C2 as [C2|C2].
        -- apply (own_Step q st st1 st3 [(q, WithTests)]); auto.
           ++ now rewrite P2.
           ++ now rewrite C2.
           ++ apply NoDup_singleton.
        -- apply (own_Step q st st1 st3 [(q, WithTests); (q, ExternalTests)]); auto.
           ++ now rewrite P2.
           ++ rewrite C2, D1. now rewrite <- app_assoc.
           ++ apply NoDup_cons. split; [|apply NoDup_singleton].
              intros Hin. apply list_elem_of_singleton in Hin. discriminate.
      * pose proof (parseAndInstrument_calls i outdir relpath f Primary
                      (Files i) st1) as (_ & P1 & C1 & _).
        destruct (parseAndInstrument i outdir relpath f Primary (Files i) st1)
          as [o1 st2]. simpl in *.
        destruct C1 as [C1|C1].
        -- apply (own_Step q st st1 st2 []); auto.
           ++ now rewrite app_nil_r.
           ++ constructor.
        -- apply (own_Step q st st1 st2 [(q, Primary)]); auto.
           apply NoDup_singleton.
Qed.

(** *** More fuel does not change a run that ended *)

Lemma guessBasepkg_loop_mono (fuel : nat) :
  forall p r, guessBasepkg_loop fuel p = Some r ->
              guessBasepkg_loop (S fuel) p = Some r.
Proof.
  induction fuel as [|fuel IH]; intros p r.
  - simpl. destruct (strings.Contains p "/"); [discriminate|auto].
  - intros Hrun. simpl in Hrun. change (guessBasepkg_loop (S (S fuel)) p)
      with (if strings.Contains p "/" then
              match build_Import (filepath_Dir p) with
              | Fail _ => Some p
              | OK _ => guessBasepkg_loop (S fuel) (filepath_Dir p)
              end
            else Some p).
    destruct (strings.Contains p "/"); [|exact Hrun].
    destruct (build_Import (filepath_Dir p)); [|exact Hrun].
    now apply IH.
Qed.

Lemma doimport_mono (fuel : nat) (i : Instrumentable) (imp : string)
      (r : res Instrumentable) :
  doimport fuel i imp = Some r -> doimport (S fuel) i imp = Some r.
Proof.
  unfold doimport, Import_, guessBasepkg.
  destruct (IsLocalImport imp); [auto|].
  destruct (build_Import imp) as [pk|err]; [|auto].
  destruct (String.eqb (basepkg i) EmptyString); [|auto].
  destruct (repoRootForImportPathStatic (ImportPath pk)); [auto|].
  destruct (guessBasepkg_loop fuel (ImportPath pk)) as [g|] eqn:Eg;
    [|discriminate].
  now rewrite (guessBasepkg_loop_mono fuel _ _ Eg).
Qed.

Lemma instrumentImports_mono (fuel : nat)
      (rec rec' : Instrumentable -> string -> RunState -> Outcome * RunState)
      (i : Instrumentable) (relpath : string) :
  (forall j imp st o st', rec j imp st = (o, st') -> o <> OutOfFuel ->
                          rec' j imp st = (o, st')) ->
  forall imps st o st',
    instrumentImports fuel rec i relpath imps st = (o, st') ->
    o <> OutOfFuel ->
    instrumentImports (S fuel) rec' i relpath imps st = (o, st').
Proof.
  intros Hrec imps.
  induction imps as [|imp rest IH]; intros st o st' Hrun Ho.
  - exact Hrun.
  - change (instrumentImports (S fuel) rec' i relpath (imp :: rest) st)
      with (if relevantImport i imp then
              match doimport (S fuel) i imp with
              | None => (OutOfFuel, st)
              | Some (Fail err) => (Failed err, st)
              | Some (OK pkg_) =>
                match rec' pkg_ (if IsLocalImport imp
                                 then filepath_Join [relpath; imp] else imp) st with
                | (Done, st1) => instrumentImports (S fuel) rec' i relpath rest st1
                | other => other
                end
              end
            else instrumentImports (S fuel) rec' i relpath rest st).
    simpl in Hrun.
    destruct (relevantImport i imp); [|now apply IH].
    destruct (doimport fuel i imp) as [r|] eqn:Ed.
    + rewrite (doimport_mono fuel i imp r Ed).
      destruct r as [pk|err]; [|exact Hrun].
      destruct (rec pk _ st) as [o1 st1] eqn:Er.
      destruct o1.
      * rewrite (Hrec _ _ _ _ _ Er) by discriminate. now apply IH.
      * rewrite (Hrec _ _ _ _ _ Er) by discriminate. exact Hrun.
      * injection Hrun as <- <-. contradiction.
    + injection Hrun as <- <-. contradiction.
Qed.

Lemma instrumentTo_mono (fuel : nat) :
  forall (i : Instrumentable) (istest : bool) (outdir relpath : string)
         (f : PatchableFile -> Patches) (st : RunState) o st',
    instrumentTo fuel i istest outdir relpath f st = (o, st') ->
    o <> OutOfFuel ->
    instrumentTo (S fuel) i istest outdir relpath f st = (o, st').
Proof.
  induction fuel as [|fuel IH]; intros i istest outdir relpath f st o st' Hrun Ho.
  - simpl in Hrun. injection Hrun as <- <-. contradiction.
  - change (instrumentTo (S (S fuel)) i istest outdir relpath f st)
      with (if isProcessed st (ImportPath (pkg i)) then (Done, st)
            else
              match instrumentImports (S fuel)
                      (fun pkg_ imp st =>
                         instrumentTo (S fuel) pkg_ false outdir imp f st)
                      i relpath
                      (Imports (pkg i) ++ TestImports (pkg i)
                                       ++ XTestImports (pkg i))
                      (markProcessed st (ImportPath (pkg i))) with
              | (Done, st) =>
                if negb istest then
                  parseAndInstrument i outdir relpath f Primary (Files i) st
                else
                  match parseAndInstrument i outdir relpath f WithTests
                                           (TestFiles i) st with
                  | (Done, st) =>
                    parseAndInstrument i outdir relpath f ExternalTests
                                       (XTestFiles i) st
                  | other => other
                  end
              | other => other
              end).
    simpl in Hrun.
    destruct (isProcessed st (ImportPath (pkg i))); [exact Hrun|].
    destruct (instrumentImports fuel _ i relpath _ _) as [o1 st1] eqn:El.
    assert (Ho1 : o1 <> OutOfFuel).
    { intros ->. injection Hrun as <- <-. contradiction. }
    rewrite (instrumentImports_mono fuel _
               (fun pkg_ imp st => instrumentTo (S fuel) pkg_ false outdir imp f st)
               i relpath
               (fun j imp s o' s' Hr Hn => IH j false outdir imp f s o' s' Hr Hn)
               _ _ _ _ El Ho1).
    exact Hrun.
Qed.

Lemma instrumentTo_more_fuel (fuel extra : nat) (i : Instrumentable)
      (istest : bool) (outdir relpath : string) (f : PatchableFile -> Patches)
      (st : RunState) :
  fst (instrumentTo fuel i istest outdir relpath f st) <> OutOfFuel ->
  instrumentTo (extra + fuel) i istest outdir relpath f st
  = instrumentTo fuel i istest outdir relpath f st.
Proof.
  intros Ho. induction extra as [|extra IH]; [reflexivity|].
  destruct (instrumentTo fuel i istest outdir relpath f st) as [o st'] eqn:Er.
  simpl in Ho. apply instrumentTo_mono; assumption.
Qed.

(** *** Termination *)

Section Finite.

Variables (U : gset string) (L : nat).
Hypothesis world : ClosedWorld U L.

Lemma guessBasepkg_loop_enough (fuel : nat) :
  forall p, (String.length p <= fuel)%nat -> guessBasepkg_loop fuel p <> None.
Proof.
  induction fuel as [|fuel IH]; intros p Hlen; simpl.
  - destruct p; [simpl; discriminate|simpl in Hlen; lia].
  - destruct (strings.Contains p "/") eqn:E; [|discriminate].
    destruct (build_Import (filepath_Dir p)) as [parent|err] eqn:Ei;
      [|discriminate].
    apply IH. pose proof (dir_shrinks U L world p parent E Ei). lia.
Qed.

Lemma Import_enough (fuel : nat) (base pkgname : string) :
  (L <= fuel)%nat -> Import_ fuel base pkgname <> None.
Proof.
  intros HL. unfold Import_.
  destruct (build_Import pkgname) as [pk|err] eqn:Ei; [|discriminate].
  destruct (String.eqb base EmptyString); [|discriminate].
  unfold guessBasepkg.
  destruct (repoRootForImportPathStatic (ImportPath pk)); [discriminate|].
  pose proof (guessBasepkg_loop_enough fuel (ImportPath pk)) as Hg.
  destruct (guessBasepkg_loop fuel (ImportPath pk)); [discriminate|].
  exfalso. apply Hg; [|reflexivity].
  pose proof (known_short U L world _ (import_known U L world _ _ Ei)). lia.
Qed.

Lemma doimport_enough (fuel : nat) (i : Instrumentable) (imp : string) :
  (L <= fuel)%nat -> doimport fuel i imp <> None.
Proof.
  intros HL. unfold doimport.
  destruct (IsLocalImport imp); [discriminate|].
  pose proof (Import_enough fuel (basepkg i) imp HL) as Hi.
  destruct (Import_ fuel (basepkg i) imp) as [[r|err]|];
    [discriminate|discriminate|contradiction].
Qed.

Lemma doimport_known (fuel : nat) (i j : Instrumentable) (imp : string) :
  doimport fuel i imp = Some (OK j) -> ImportPath (pkg j) ∈ U.
Proof.
  unfold doimport, ImportDir, Import_.
  destruct (IsLocalImport imp).
  - destruct (build_ImportDir _) as [pk|err] eqn:Ei; intros [= <-]; simpl.
    eapply importdir_known; eassumption.
  - destruct (build_Import imp) as [pk|err] eqn:Ei; [|discriminate].
    pose proof (import_known U L world _ _ Ei) as Hin.
    destruct (String.eqb (basepkg i) EmptyString).
    + destruct (guessBasepkg fuel (ImportPath pk)); intros [= <-]; exact Hin.
    + intros [= <-]; exact Hin.
Qed.

Lemma todo_grows (st st' : RunState) :
  grows st st' -> (size (todo U st') <= size (todo U st))%nat.
Proof.
  intros G. apply subseteq_size. unfold todo.
  intros p Hp. apply elem_of_filter in Hp. destruct Hp as [Hf HU].
  apply elem_of_filter. split; [|assumption].
  eapply not_processed_back; eassumption.
Qed.

Lemma todo_mark (st : RunState) (q : string) :
  q ∈ U -> isProcessed st q = false ->
  (size (todo U (markProcessed st q)) < size (todo U st))%nat.
Proof.
  intros HU Hq. apply subset_size. split.
  - intros p Hp. apply elem_of_filter in Hp. destruct Hp as [Hf HpU].
    apply elem_of_filter. split; [|assumption].
    eapply not_processed_back; [apply grows_mark|eassumption].
  - intros Hsub.
    assert (Hin : q ∈ todo U st) by (apply elem_of_filter; auto).
    apply Hsub in Hin. apply elem_of_filter in Hin. destruct Hin as [Hf _].
    assert (isProcessed (markProcessed st q) q = true)
      by (apply isProcessed_mark; now left).
    congruence.
Qed.

Lemma todo_bound (st : RunState) : (size (todo U st) <= size U)%nat.
Proof.
  apply subseteq_size. intros p Hp. apply elem_of_filter in Hp. tauto.
Qed.

Lemma parseAndInstrument_in_fuel (i : Instrumentable) (outdir relpath : string)
      (f : PatchableFile -> Patches) (kind : FileSet) (files : list string)
      (st : RunState) :
  fst (parseAndInstrument i outdir relpath f kind files st) <> OutOfFuel.
Proof. apply (parseAndInstrument_calls i outdir relpath f kind files st). Qed.

Lemma instrumentImports_enough (fuel n : nat)
      (rec : Instrumentable -> string -> RunState -> Outcome * RunState)
      (i : Instrumentable) (relpath : string) :
  (L <= fuel)%nat ->
  (forall j imp s, Step s (snd (rec j imp s))) ->
  (forall j imp s, ImportPath (pkg j) ∈ U -> (size (todo U s) <= n)%nat ->
                   fst (rec j imp s) <> OutOfFuel) ->
  forall imps st, (size (todo U st) <= n)%nat ->
    fst (instrumentImports fuel rec i relpath imps st) <> OutOfFuel.
Proof.
  intros HL Hstep Hrec imps.
  induction imps as [|imp rest IH]; intros st Hn; simpl; [discriminate|].
  destruct (relevantImport i imp); [|now apply IH].
  pose proof (doimport_enough fuel i imp HL) as He.
  destruct (doimport fuel i imp) as [[pk|err]|] eqn:Ed;
    [|discriminate|contradiction].
  apply doimport_known in Ed.
  set (imp' := if IsLocalImport imp then filepath_Join [relpath; imp] else imp).
  specialize (Hrec pk imp' st Ed Hn). specialize (Hstep pk imp' st).
  destruct (rec pk imp' st) as [[| |] st']; simpl in *;
    [|discriminate|contradiction].
  apply IH. destruct Hstep as [G _]. pose proof (todo_grows _ _ G). lia.
Qed.

(** The body of [instrumentTo], once the guard has let a package through. *)
Lemma instrumentTo_body_enough (fuel n : nat) (i : Instrumentable)
      (istest : bool) (outdir relpath : string) (f : PatchableFile -> Patches)
      (st : RunState) :
  (L <= fuel)%nat ->
  (forall j imp s, ImportPath (pkg j) ∈ U -> (size (todo U s) <= n)%nat ->
                   fst (instrumentTo fuel j false outdir imp f s) <> OutOfFuel) ->
  (size (todo U (markProcessed st (ImportPath (pkg i)))) <= n)%nat ->
  fst (instrumentTo (S fuel) i istest outdir relpath f st) <> OutOfFuel.
Proof.
  intros HL Hrec Hn. simpl.
  destruct (isProcessed st (ImportPath (pkg i))); [discriminate|].
  pose proof (instrumentImports_enough fuel n
                (fun pkg_ imp st => instrumentTo fuel pkg_ false outdir imp f st)
                i relpath HL
                (fun j imp s => instrumentTo_Step fuel j false outdir imp f s)
                Hrec
                (Imports (pkg i) ++ TestImports (pkg i) ++ XTestImports (pkg i))
                _ Hn) as Hloop.
  destruct (instrumentImports _ _ _ _ _ _) as [[| |] st1]; simpl in *;
    [|discriminate|contradiction].
  destruct istest; simpl.
  - pose proof (parseAndInstrument_in_fuel i outdir relpath f WithTests
                  (TestFiles i) st1) as H1.
    destruct (parseAndInstrument i outdir relpath f WithTests (TestFiles i) st1)
      as [[| |] st2]; simpl in *; [|discriminate|contradiction].
    apply parseAndInstrument_in_fuel.
  - apply parseAndInstrument_in_fuel.
Qed.

(** A package with a known import path: as many levels of recursion as there
    are known paths left to process, on top of what [guessBasepkg] needs. *)
Lemma instrumentTo_enough (fuel : nat) :
  forall (i : Instrumentable) (istest : bool) (outdir relpath : string)
         (f : PatchableFile -> Patches) (st : RunState),
    ImportPath (pkg i) ∈ U ->
    (size (todo U st) + L < fuel)%nat ->
    fst (instrumentTo fuel i istest outdir relpath f st) <> OutOfFuel.
Proof.
  induction fuel as [|fuel IH]; intros i istest outdir relpath f st HU Hfuel;
    [lia|].
  destruct (isProcessed st (ImportPath (pkg i))) eqn:Hq.
  - simpl. rewrite Hq. discriminate.
  - pose proof (todo_mark st _ HU Hq) as Hlt.
    apply (instrumentTo_body_enough fuel
             (size (todo U (markProcessed st (ImportPath (pkg i)))))); [lia| |lia].
    intros j imp s Hj Hs. apply IH; [assumption|lia].
Qed.

(** The root of a run, whose import path need not be a known one. *)
Lemma InstrumentTo_enough (fuel : nat) (i : Instrumentable) (withtests : bool)
      (outdir : string) (f : PatchableFile -> Patches) :
  (size U + L + 2 <= fuel)%nat ->
  fst (InstrumentTo fuel i withtests outdir f) <> OutOfFuel.
Proof.
  intros Hfuel. destruct fuel as [|fuel]; [lia|].
  unfold InstrumentTo.
  apply (instrumentTo_body_enough fuel (size U)); [lia| |apply todo_bound].
  intros j imp s Hj Hs. apply instrumentTo_enough; [assumption|lia].
Qed.

End Finite.

(** C2. In a world of finitely many packages a run ends: from a recursion
    depth bounded by their number on, every depth gives the same outcome and
    final state.  The run calls [instrumentPatchable] at most once for each
    file set of each import path, and only for paths it has recorded in the
    [processed] map; and a call of [instrumentTo] for an import path already
    in the map returns at once and changes nothing. *)
Theorem instrumentTo_once_and_terminates (U : gset string) (L : nat)
        (i : Instrumentable) (withtests : bool) (outdir : string)
        (f : PatchableFile -> Patches) :
  ClosedWorld U L ->
  exists (outcome : Outcome) (final : RunState),
    outcome <> OutOfFuel
    /\ (forall fuel, (size U + L + 2 <= fuel)%nat ->
                     InstrumentTo fuel i withtests outdir f = (outcome, final))
    /\ NoDup (calls final)
    /\ (forall p k, (p, k) ∈ calls final -> isProcessed final p = true)
    /\ (forall n j istest relpath st,
           isProcessed st (ImportPath (pkg j)) = true ->
           instrumentTo (S n) j istest outdir relpath f st = (Done, st)).
Proof.
  intros HW. set (bound := (size U + L + 2)%nat).
  pose proof (InstrumentTo_enough U L HW bound i withtests outdir f (le_n _))
    as Hend.
  destruct (InstrumentTo bound i withtests outdir f) as [outcome final] eqn:Er.
  exists outcome, final. simpl in Hend.
  split; [exact Hend|]. split; [|split; [|split]].
  - intros fuel Hfuel.
    replace fuel with ((fuel - bound) + bound)%nat by lia.
    unfold InstrumentTo in *. rewrite instrumentTo_more_fuel; [exact Er|].
    now rewrite Er.
  - destruct (instrumentTo_Step bound i withtests outdir EmptyString f emptyRun)
      as [_ (new & C & N & _)].
    unfold InstrumentTo in Er. rewrite Er in C. simpl in C. rewrite C. exact N.
  - destruct (instrumentTo_Step bound i withtests outdir EmptyString f emptyRun)
      as [_ (new & C & _ & Pn)].
    unfold InstrumentTo in Er. rewrite Er in C, Pn. simpl in C, Pn. rewrite C.
    intros p k Hin. now apply (Pn p k).
  - intros n j istest relpath st Hp. simpl. now rewrite Hp.
Qed.

End Closure.

End closure_facts.

(** The diamond with a cycle is a closed world of four packages. *)
Module closure_example.

Import patch instrument closure_spec closure_facts.

Lemma diamond_closed : @ClosedWorld diamondEnv diamondPaths 3.
Proof.
  split; simpl.
  - intros path p. unfold diamondImport.
    repeat (destruct (String.eqb path _); [intros [= <-]; simpl; set_solver|]).
    discriminate.
  - discriminate.
  - intros p Hp. unfold diamondPaths in Hp.
    repeat (apply elem_of_union in Hp; destruct Hp as [Hp|Hp]);
      apply elem_of_singleton in Hp; subst p; simpl; lia.
  - intros p parent _. discriminate.
Qed.

(** The run from [a] over the diamond ends, with one call for each of the
    four packages. *)
Lemma instrumentTo_once_and_terminates_witness :
  exists outcome final,
    outcome <> OutOfFuel
    /\ @InstrumentTo diamondEnv 9 diamondRoot false "out" (fun _ => [])
       = (outcome, final)
    /\ NoDup (calls final).
Proof.
  destruct (@instrumentTo_once_and_terminates diamondEnv diamondPaths 3
              diamondRoot false "out" (fun _ => []) diamond_closed)
    as (outcome & final & Hend & Hrun & Hnodup & _).
  exists outcome, final. split; [exact Hend|]. split; [|exact Hnodup].
  apply Hrun. vm_compute. lia.
Defined.

Example diamond_calls :
  calls (snd (@InstrumentTo diamondEnv 9 diamondRoot false "out" (fun _ => [])))
  = [("a/d", Primary); ("a/b", Primary); ("a/c", Primary); ("a", Primary)].
Proof. vm_compute. reflexivity. Qed.

End closure_example.

(** ** The toolchain command model *)

Module buildcmd_facts.

Import instrument buildcmd_spec.

Lemma getOutputFileName_outputNameOf `{GoEnv} (cmd : GoCmd) :
  (length (Params cmd) <= 1)%nat ->
  getOutputFileName cmd = outputNameOf (targetPackage cmd).
Proof.
  intros Hlen. unfold getOutputFileName, outputNameOf.
  destruct (1 <? length (Params cmd))%nat eqn:E.
  - apply Nat.ltb_lt in E. lia.
  - destruct (targetPackage cmd) as [p|err]; [|reflexivity].
    now destruct (String.eqb (Name p) "main").
Qed.

(** C8. A [build] command with no output flag, retargeted to [newdir]: more
    than one parameter is an error, a target package that is not [main] is
    an error, and otherwise the output flag becomes the path from [newdir]
    back to the working directory, joined with the base name of the target
    package's directory; the rest of the command is kept and its working
    directory is [newdir]. *)
Theorem Retarget_build_default_output `{GoEnv} (cmd : GoCmd) (newdir : string) :
  Command cmd = "build" ->
  flagValue (BuildFlags cmd) "o" = EmptyString ->
  ((1 < length (Params cmd))%nat ->
   exists e, Retarget cmd newdir = Fail e
             /\ (forall rel, filepath_Rel newdir (WorkDir cmd) = OK rel ->
                             e = "No support for more than a single package"))
  /\ (forall p, targetPackage cmd = OK p -> Name p <> "main" ->
                exists e, Retarget cmd newdir = Fail e)
  /\ (forall rel p d,
         (length (Params cmd) <= 1)%nat ->
         filepath_Rel newdir (WorkDir cmd) = OK rel ->
         targetPackage cmd = OK p -> Name p = "main" ->
         filepath_Abs (Dir p) = OK d ->
         Retarget cmd newdir =
         OK {| WorkDir := newdir; Executable := Executable cmd;
               Command := Command cmd;
               BuildFlags := <["o" := filepath_Join [rel; filepath_Base d]]>
                               (BuildFlags cmd);
               Params := Params cmd; ExtraFlags := ExtraFlags cmd |}).
Proof.
  intros Hcmd Hflag. unfold Retarget. rewrite Hcmd, Hflag. simpl.
  split; [|split].
  - intros Hlen.
    destruct (filepath_Rel newdir (WorkDir cmd)) as [rel|err].
    + unfold getOutputFileName.
      apply Nat.ltb_lt in Hlen. rewrite Hlen. eauto.
    + exists err. split; [reflexivity|]. intros rel [=].
  - intros p Hp Hname.
    destruct (filepath_Rel newdir (WorkDir cmd)) as [rel|err]; [|eauto].
    unfold getOutputFileName.
    destruct (1 <? length (Params cmd))%nat; [eauto|].
    rewrite Hp. apply String.eqb_neq in Hname. rewrite Hname. simpl. eauto.
  - intros rel p d Hlen Hrel Hp Hname Habs. rewrite Hrel.
    rewrite getOutputFileName_outputNameOf by assumption.
    unfold outputNameOf. rewrite Hp, Hname, Habs. simpl. reflexivity.
Qed.

(** [go build] in [/src/hello], retargeted to [/tmp/out], writes the
    executable back to [../../src/hello/hello]. *)
Lemma Retarget_build_default_output_witness :
  @Retarget helloEnv helloBuild "/tmp/out"
  = OK {| WorkDir := "/tmp/out"; Executable := "go"; Command := "build";
          BuildFlags := {["o" := "../../src/hello/hello"]};
          Params := []; ExtraFlags := [] |}.
Proof.
  pose proof (@Retarget_build_default_output helloEnv helloBuild "/tmp/out"
                eq_refl eq_refl) as (_ & _ & Hok).
  rewrite (Hok "../../src/hello" helloPackage "/src/hello");
    simpl; try reflexivity; lia.
Defined.

(** C10. A command that [NewGoCmdWithFlags] returns for the verb [build]
    has no parameters and no extra flags, whatever followed the flags on the
    command line, so that its default output name is derived from the
    package of the working directory. *)
Theorem NewGoCmdWithFlags_build_no_params `{FlagEnv} `{GoEnv}
        (commandLine flags commandLine' : FlagSet) (workdir exe : string)
        (rest : list string) (cmd : GoCmd) :
  NewGoCmdWithFlags commandLine flags workdir (exe :: "build" :: rest)
  = (Ret cmd, commandLine') ->
  Command cmd = "build"
  /\ WorkDir cmd = workdir
  /\ Params cmd = []
  /\ ExtraFlags cmd = []
  /\ targetPackage cmd = build_ImportDir workdir
  /\ getOutputFileName cmd = outputNameOf (build_ImportDir workdir).
Proof.
  unfold NewGoCmdWithFlags.
  change (SearchStrings ["build"; "run"; "test"] "build" >? -1) with true.
  change (String.eqb "build" "run") with false.
  change (String.eqb "build" "build") with true.
  change (String.eqb "build" "buid") with false.
  change (String.eqb "build" "test") with false.
  cbv iota.
  destruct (defineFlag flags "p" IntFlag) as [f1|]; [|discriminate].
  destruct (defineFlags f1 _ BoolFlag) as [f2|]; [|discriminate].
  destruct (defineFlags commandLine _ StringFlag) as [cl|]; [|discriminate].
  destruct (defineFlag f2 "o" StringFlag) as [f3|]; [|discriminate].
  destruct (Parse f3 rest) as [f4|err]; [|discriminate].
  intros [= <- <-]. simpl.
  assert (Ht : forall c, Params c = [] -> WorkDir c = workdir ->
                         targetPackage c = build_ImportDir workdir).
  { intros c Hp Hw. unfold targetPackage. now rewrite Hp, Hw. }
  repeat split; try reflexivity.
  rewrite getOutputFileName_outputNameOf by (simpl; lia).
  reflexivity.
Qed.

(** [go build pkg/a]: the package argument does not reach [Params]. *)
Lemma NewGoCmdWithFlags_build_no_params_witness :
  fst (@NewGoCmd positionalOnly NewFlagSet "/src/hello" ["go"; "build"; "pkg/a"])
  = Ret helloBuild
  /\ Params helloBuild = [].
Proof.
  split; [vm_compute; reflexivity|].
  eapply (@NewGoCmdWithFlags_build_no_params positionalOnly helloEnv
            NewFlagSet NewFlagSet _ "/src/hello" "go" ["pkg/a"] helloBuild).
  vm_compute. reflexivity.
Defined.

Example NewGoCmd_build_pkg :
  fst (@NewGoCmd positionalOnly NewFlagSet "/src/hello" ["go"; "build"; "pkg/a"])
  = Ret {| WorkDir := "/src/hello"; Executable := "go"; Command := "build";
           BuildFlags := ∅; Params := []; ExtraFlags := [] |}.
Proof. vm_compute. reflexivity. Qed.

End buildcmd_facts.

(** ** The scope walker *)

Module walker_facts.

Import patch main walker_spec.

Lemma Extends_refl (n : nat) (h : Heap) : Extends n h h.
Proof. repeat split; auto. Qed.

Lemma Extends_trans (n : nat) (a b c : Heap) :
  Extends n a b -> Extends n b c -> Extends n a c.
Proof.
  intros (L1 & S1 & B1) (L2 & S2 & B2). split; [lia|]. split.
  - intros id Hid. rewrite S2 by assumption. now apply S1.
  - intros id name o Hb. destruct (B2 _ _ _ Hb) as [Hb'|Hnew]; auto.
Qed.

Lemma Extends_le (n m : nat) (h h' : Heap) :
  (n <= m)%nat -> Extends m h h' -> Extends n h h'.
Proof.
  intros Hnm (L & S & B). repeat split; auto.
  intros id Hid. apply S. lia.
Qed.

Lemma Extends_alloc (n : nat) (h : Heap) :
  (n <= length h)%nat -> Extends n h (h ++ [∅]).
Proof.
  intros Hn. split; [rewrite length_app; simpl; lia|]. split.
  - intros id Hid. apply lookup_app_l. lia.
  - intros id name o (objs & Hl & Ho). left.
    destruct (decide (id < length h)%nat) as [Hlt|Hge].
    + rewrite lookup_app_l in Hl by assumption. exists objs. auto.
    + rewrite lookup_app_r in Hl by lia.
      destruct (id - length h)%nat as [|k]; simpl in Hl; [|now destruct k].
      injection Hl as <-. rewrite lookup_empty in Ho. discriminate.
Qed.

Lemma list_all_Forall {A : Set} (P : A -> Prop) (l : list A) :
  list_all@{Prop ; Set Set} A P l -> Forall P l.
Proof. induction 1; constructor; assumption. Qed.

Lemma fields_all_Forall (P : expr -> Prop) (o : option (list Field)) :
  option_all@{Type ; Set Set} (list Field)
    (list_all@{Type ; Set Set} Field
       (prod_all@{Type Prop ; Set Set Set Set} (list Ident)
          (fun _ => unit) expr P)) o ->
  forall l, o = Some l -> Forall (fun f : Field => P (snd f)) l.
Proof.
  intros Ho l ->. inversion Ho as [? Hl|]; subst. clear Ho.
  induction Hl as [|f Hf l Hl IH]; constructor; [|assumption].
  destruct Hf. assumption.
Qed.

Lemma specs_all_Forall (P : spec -> Prop) (o : option (list spec)) :
  option_all@{Type ; Set Set} (list spec) (list_all@{Prop ; Set Set} spec P) o ->
  forall l, o = Some l -> Forall P l.
Proof.
  intros Ho l ->. inversion Ho; subst. now apply list_all_Forall.
Qed.

Section KeepsFacts.

Context {V W : Type} `{!ScopeVisitor V W}.

Local Abbreviation M := (M (W:=W)).

Lemma Keeps_ret {A} (n : nat) (a : A) : Keeps n (ret a : M A).
Proof.
  intros st a' st' Hn [= <- <-]. split; [apply Extends_refl|].
  exists []. split; [now rewrite app_nil_r|constructor].
Qed.

Lemma Keeps_abort {A} (n : nat) (msg : string) : Keeps n (abort msg : M A).
Proof. intros st a st' Hn [=]. Qed.

Lemma Keeps_bind {A B} (n : nat) (m : M A) (k : A -> M B) :
  Keeps n m -> (forall a, Keeps n (k a)) -> Keeps n (bind m k).
Proof.
  intros Hm Hk st b st' Hn. unfold bind.
  destruct (m st) as [[a st1]|msg] eqn:Em; [|discriminate].
  intros Ek.
  destruct (Hm st a st1 Hn Em) as (E1 & evs1 & T1 & F1).
  assert (Hn1 : (n <= length (heap st1))%nat) by (destruct E1; lia).
  destruct (Hk a st1 b st' Hn1 Ek) as (E2 & evs2 & T2 & F2).
  split; [eapply Extends_trans; eassumption|].
  exists (evs1 ++ evs2). split.
  - rewrite T2, T1. now rewrite app_assoc.
  - apply Forall_app. split; [assumption|].
    eapply Forall_impl; [exact F2|]. intros ev Hev. simpl in Hev.
    eapply Extends_trans; eassumption.
Qed.

Lemma Keeps_NewScope {B} (n : nat) (outer : ScopeRef) (k : ScopeRef -> M B) :
  (forall id, (n <= id)%nat -> Keeps n (k (id :: outer))) ->
  Keeps n (bind (NewScope outer) k).
Proof.
  intros Hk st b st' Hn. unfold bind, NewScope. intros Ek.
  set (st1 := {| heap := heap st ++ [∅]; world := world st;
                 trace := trace st |}) in *.
  assert (Hn1 : (n <= length (heap st1))%nat)
    by (simpl; rewrite length_app; simpl; lia).
  destruct (Hk (length (heap st)) Hn st1 b st' Hn1 Ek) as (E2 & evs & T & F).
  pose proof (Extends_alloc n (heap st) Hn) as E1.
  split; [eapply Extends_trans; eassumption|].
  exists evs. split; [exact T|].
  eapply Forall_impl; [exact F|]. intros ev Hev. simpl in Hev.
  eapply Extends_trans; eassumption.
Qed.

Lemma Keeps_call {A} (n : nat) (m : M A) :
  (forall st a st', m st = Finished (a, st') ->
      heap st' = heap st /\ exists ev, trace st' = trace st ++ [ev]
                                       /\ eventHeap ev = heap st) ->
  Keeps n m.
Proof.
  intros Hm st a st' Hn Em. destruct (Hm st a st' Em) as (Hh & ev & T & Hev).
  rewrite Hh. split; [apply Extends_refl|].
  exists [ev]. split; [assumption|]. constructor; [|constructor].
  rewrite Hev. apply Extends_refl.
Qed.

Lemma Keeps_callVisitExpr (n : nat) (v : V) (sc : ScopeRef) (e : expr) :
  Keeps n (callVisitExpr v sc e).
Proof.
  apply Keeps_call. intros st a st'. unfold callVisitExpr.
  destruct (VisitExpr v (heap st) sc e (world st)) as [[w world']|msg];
    intros [= <- <-]; simpl; eauto.
Qed.

Lemma Keeps_callVisitStmt (n : nat) (v : V) (sc : ScopeRef) (s : stmt) :
  Keeps n (callVisitStmt v sc s).
Proof.
  apply Keeps_call. intros st a st'. unfold callVisitStmt.
  destruct (VisitStmt v (heap st) sc s (world st)) as [[w world']|msg];
    intros [= <- <-]; simpl; eauto.
Qed.

Lemma Keeps_callExitScope (n : nat) (v : V) (sc : ScopeRef) :
  Keeps n (callExitScope v sc).
Proof.
  apply Keeps_call. intros st a st'. unfold callExitScope.
  destruct (ExitScope v (heap st) sc (world st)) as [[w world']|msg];
    intros Heq; inversion Heq; subst; simpl; eauto.
Qed.

(** The two tests of [insertToScope] are the exemption. *)
Lemma insertToScope_tests (o : Object) :
  String.eqb (ObjName o) "_" = false ->
  bool_decide (Kind o = Fun) && String.eqb (ObjName o) "init" = false ->
  ~ exempt o.
Proof.
  intros H1 H2 [Hb|[Hk Hi]].
  - apply String.eqb_neq in H1. contradiction.
  - apply andb_false_iff in H2. destruct H2 as [H2|H2].
    + apply bool_decide_eq_false in H2. contradiction.
    + apply String.eqb_neq in H2. contradiction.
Qed.

Lemma exempt_tests (o : Object) :
  exempt o ->
  String.eqb (ObjName o) "_" = true
  \/ bool_decide (Kind o = Fun) && String.eqb (ObjName o) "init" = true.
Proof.
  intros [Hb|[Hk Hi]].
  - left. now apply String.eqb_eq.
  - right. apply andb_true_iff. split.
    + now apply bool_decide_eq_true.
    + now apply String.eqb_eq.
Qed.

Lemma Extends_insert (n id : nat) (h : Heap) (objects : gmap string Object)
      (o : Object) :
  (n <= id)%nat -> ~ exempt o ->
  h !! id = Some objects ->
  Extends n h (<[id := <[ObjName o := o]> objects]> h).
Proof.
  intros Hn Hex Hl. split; [rewrite length_insert; lia|]. split.
  - intros id' Hid'. apply list_lookup_insert_ne. lia.
  - intros id' name o' (objs' & Hl' & Ho').
    destruct (decide (id = id')) as [<-|Hne].
    + rewrite list_lookup_insert_eq in Hl' by (eapply lookup_lt_Some; eassumption).
      injection Hl' as <-.
      destruct (decide (ObjName o = name)) as [<-|Hnn].
      * rewrite lookup_insert_eq in Ho'. injection Ho' as <-. right. auto.
      * rewrite lookup_insert_ne in Ho' by assumption.
        left. exists objects. auto.
    + rewrite list_lookup_insert_ne in Hl' by assumption.
      left. exists objs'. auto.
Qed.

Lemma Keeps_insertToScope (n id : nat) (outer : ScopeRef) (obj : option Object) :
  (n <= id)%nat -> Keeps n (insertToScope (id :: outer) obj : M unit).
Proof.
  intros Hid st a st' Hn. unfold insertToScope.
  destruct obj as [o|]; [|discriminate].
  destruct (String.eqb (ObjName o) "_") eqn:E1; [apply Keeps_ret; assumption|].
  destruct (bool_decide (Kind o = Fun) && String.eqb (ObjName o) "init") eqn:E2;
    [apply Keeps_ret; assumption|].
  unfold scopeInsert.
  destruct (heap st !! id) as [objects|] eqn:Hl; [|discriminate].
  destruct (objects !! ObjName o) eqn:Ho.
  - apply (Keeps_ret n tt); assumption.
  - intros Heq. inversion Heq; subst; simpl. split.
    + apply Extends_insert; auto using insertToScope_tests.
    + exists []. split; [now rewrite app_nil_r|constructor].
Qed.

Lemma Keeps_identObj (n : nat) (e : expr) :
  Keeps n (identObj e : M (option Object)).
Proof.
  destruct e; simpl; try apply Keeps_abort. apply Keeps_ret.
Qed.

Lemma Keeps_forEach {A} (n : nat) (f : A -> M unit) (l : list A) :
  Forall (fun x => Keeps n (f x)) l -> Keeps n (forEach f l).
Proof.
  induction 1 as [|x l Hx Hl IH]; simpl.
  - apply Keeps_ret.
  - apply Keeps_bind; auto.
Qed.

Lemma Keeps_foldEach {A B} (n : nat) (f : A -> B -> M B) (l : list A) :
  Forall (fun x => forall acc, Keeps n (f x acc)) l ->
  forall acc, Keeps n (foldEach f l acc).
Proof.
  induction 1 as [|x l Hx Hl IH]; intros acc; simpl.
  - apply Keeps_ret.
  - apply Keeps_bind; auto.
Qed.

Lemma Keeps_exitScopes (n : nat) (v : V) (inner limit : ScopeRef) :
  Keeps n (exitScopes v inner limit).
Proof.
  induction inner as [|id outer IH]; simpl.
  - destruct (decide ([] = limit)); [apply Keeps_ret|apply Keeps_abort].
  - destruct (decide (id :: outer = limit)); [apply Keeps_ret|].
    apply Keeps_bind; [apply Keeps_callExitScope|auto].
Qed.

Lemma Keeps_walkOpt (n : nat) (walk : expr -> ScopeRef -> M unit) (e : expr)
      (sc : ScopeRef) :
  Keeps n (walk e sc) -> Keeps n (walkOpt walk e sc).
Proof. destruct e; simpl; auto using Keeps_ret. Qed.

Lemma Keeps_walkInit (n : nat) (walk : stmt -> ScopeRef -> M ScopeRef)
      (s : stmt) (sc : ScopeRef) :
  Keeps n (walk s sc) -> Keeps n (walkInit walk s sc).
Proof. destruct s; simpl; auto using Keeps_ret. Qed.

Lemma Keeps_walkFields (n id : nat) (walkType : expr -> ScopeRef -> M unit)
      (fields : list Field) (outer : ScopeRef) :
  (n <= id)%nat ->
  Forall (fun field : Field => forall sc, Keeps n (walkType (snd field) sc)) fields ->
  Keeps n (walkFields walkType fields (id :: outer)).
Proof.
  intros Hid Hall. unfold walkFields. apply Keeps_forEach.
  eapply Forall_impl; [exact Hall|]. intros field Hf. simpl in *.
  apply Keeps_bind; [|auto].
  apply Keeps_forEach. apply Forall_forall. intros name _.
  now apply Keeps_insertToScope.
Qed.

Lemma Keeps_walkFieldList (n id : nat) (walkType : expr -> ScopeRef -> M unit)
      (fields : option (list Field)) (outer : ScopeRef) :
  (n <= id)%nat ->
  (forall l, fields = Some l ->
     Forall (fun field : Field => forall sc, Keeps n (walkType (snd field) sc)) l) ->
  Keeps n (walkFieldList walkType fields (id :: outer)).
Proof.
  intros Hid Hall. destruct fields as [l|]; simpl.
  - apply Keeps_walkFields; auto.
  - apply Keeps_ret.
Qed.

End KeepsFacts.

End walker_facts.

Module walker_induction.

Import patch main walker_spec walker_facts.

(** One step of a proof that a walk [Keeps] the store: by the shape of the
    computation. *)
Ltac keeps_step :=
  match goal with
  | |- Keeps _ (ret _) => apply Keeps_ret
  | |- Keeps _ (abort _) => apply Keeps_abort
  | |- Keeps _ (bind (NewScope _) _) => apply Keeps_NewScope; intros ? ?
  | |- Keeps _ (bind _ _) => apply Keeps_bind; [|intros ?]
  | |- Keeps _ (callExitScope _ _) => apply Keeps_callExitScope
  | |- Keeps _ (callVisitExpr _ _ _) => apply Keeps_callVisitExpr
  | |- Keeps _ (callVisitStmt _ _ _) => apply Keeps_callVisitStmt
  | |- Keeps _ (exitScopes _ _ _) => apply Keeps_exitScopes
  | |- Keeps _ (identObj _) => apply Keeps_identObj
  | |- Keeps _ (insertToScope _ _) => apply Keeps_insertToScope; assumption
  | |- Keeps _ (walkOpt _ _ _) => apply Keeps_walkOpt
  | |- Keeps _ (walkInit _ _ _) => apply Keeps_walkInit
  | |- Keeps _ (forEach _ _) => apply Keeps_forEach
  | |- Keeps _ (foldEach _ _ _) => apply Keeps_foldEach
  | |- Keeps _ (walkFieldList _ _ _) =>
    apply Keeps_walkFieldList; [assumption|intros ? ?]
  | |- Keeps _ (if ?c then _ else _) => destruct c
  | |- Keeps _ (match ?x with _ => _ end) => destruct x eqn:?
  | |- forall _, _ => intros ?
  | H : Forall _ ?l |- Forall _ ?l =>
    eapply Forall_impl; [exact H|]; simpl; intros
  | H : forall l, ?o = Some l -> Forall _ l, E : ?o = Some ?l' |- Forall _ ?l' =>
    eapply Forall_impl; [exact (H l' E)|]; simpl; intros
  | H : forall l, Some ?l' = Some l -> Forall _ l |- Forall _ ?l' =>
    eapply Forall_impl; [exact (H l' eq_refl)|]; simpl; intros
  | |- Forall _ _ => apply Forall_forall; intros ? _
  | H : _ |- Keeps _ _ => apply H
  end.

Section WalkKeeps.

Context {V W : Type} `{!ScopeVisitor V W}.

Lemma Walk_Keeps :
  (forall e n (v : V) sc, Keeps n (WalkExpr v e sc))
  /\ (forall s n (v : V) sc, Keeps n (WalkStmt v s sc))
  /\ (forall sp n (v : V) sc ns, Keeps n (WalkSpec v sp sc ns)).
Proof.
  apply ast_mutind; intros;
    repeat match goal with
           | H : list_all _ _ _ |- _ => apply list_all_Forall in H
           | H : option_all _ (list_all _ (prod_all _ _ _ _)) _ |- _ =>
             pose proof (fields_all_Forall _ _ H); clear H
           | H : option_all _ (list_all _ _) _ |- _ =>
             pose proof (specs_all_Forall _ _ H); clear H
           end;
    simpl; repeat keeps_step.
Qed.


Lemma WalkExpr_Keeps (n : nat) (v : V) (e : expr) (sc : ScopeRef) :
  Keeps n (WalkExpr v e sc).
Proof. apply Walk_Keeps. Qed.

Lemma WalkStmt_Keeps (n : nat) (v : V) (s : stmt) (sc : ScopeRef) :
  Keeps n (WalkStmt v s sc).
Proof. apply Walk_Keeps. Qed.

Lemma WalkFields_Keeps (n id : nat) (v : V) (fields : list Field)
      (outer : ScopeRef) :
  (n <= id)%nat -> Keeps n (WalkFields v fields (id :: outer)).
Proof.
  intros Hid. apply Keeps_walkFields; [assumption|].
  apply Forall_forall. intros field _ sc. apply WalkExpr_Keeps.
Qed.

Lemma WalkDecl_Keeps (n : nat) (v : V) (file : File) (d : decl) :
  Keeps n (WalkDecl v file d).
Proof.
  destruct d as [recv name params body|specs|]; simpl.
  - apply Keeps_NewScope. intros id Hid.
    apply Keeps_bind; [|intros _].
    { destruct recv as [l|]; [|apply Keeps_ret].
      apply Keeps_bind; [|intros obj; now apply Keeps_insertToScope].
      unfold receiverObj.
      destruct l as [|[[|name' names] ty] l']; first [apply Keeps_abort|apply Keeps_ret]. }
    apply Keeps_bind; [now apply WalkFields_Keeps|intros _].
    apply Keeps_bind; [|intros _; apply Keeps_callExitScope].
    destruct body; try apply Keeps_ret;
      (apply Keeps_bind; [apply WalkStmt_Keeps|intros _; apply Keeps_ret]).
  - apply Keeps_forEach. apply Forall_forall. intros sp _.
    destruct sp; try apply Keeps_ret.
    apply Keeps_forEach. apply Forall_forall. intros value _.
    apply WalkExpr_Keeps.
  - apply Keeps_ret.
Qed.

Lemma WalkFile_Keeps (n : nat) (v : option V) (file : File) :
  Keeps n (WalkFile v file).
Proof.
  destruct v as [v|]; simpl; [|apply Keeps_ret].
  apply Keeps_bind; [|intros _; apply Keeps_callExitScope].
  apply Keeps_forEach. apply Forall_forall. intros d _. apply WalkDecl_Keeps.
Qed.

(** An exempt object leaves the scope as it is. *)
Lemma insertToScope_exempt (sc : ScopeRef) (o : Object) (st : WalkState (W:=W)) :
  exempt o -> insertToScope sc (Some o) st = Finished (tt, st).
Proof.
  intros Hex. unfold insertToScope.
  destruct (exempt_tests o Hex) as [E|E].
  - now rewrite E.
  - rewrite E. now destruct (String.eqb (ObjName o) "_").
Qed.

(** C6. The blank identifier and a function named [init] never enter a
    scope: [insertToScope] leaves the store as it is for them, and after a
    walk of a file, a statement or an expression, every binding of the store
    was there before the walk or is of an object that is neither. *)
Theorem walker_never_binds_exempt :
  (forall sc o (st : WalkState (W:=W)),
      exempt o -> insertToScope sc (Some o) st = Finished (tt, st))
  /\ (forall (v : option V) file st st',
         WalkFile v file st = Finished (tt, st') ->
         forall id name o, binds (heap st') id name o ->
                           binds (heap st) id name o \/ ~ exempt o)
  /\ (forall (v : V) s sc st ns st',
         WalkStmt v s sc st = Finished (ns, st') ->
         forall id name o, binds (heap st') id name o ->
                           binds (heap st) id name o \/ ~ exempt o)
  /\ (forall (v : V) e sc st st',
         WalkExpr v e sc st = Finished (tt, st') ->
         forall id name o, binds (heap st') id name o ->
                           binds (heap st) id name o \/ ~ exempt o).
Proof.
  split; [exact insertToScope_exempt|]. split; [|split].
  - intros v file st st' Hw id name o Hb.
    destruct (WalkFile_Keeps O v file st tt st' (Nat.le_0_l _) Hw)
      as ((_ & _ & B) & _).
    destruct (B id name o Hb) as [?|[? _]]; auto.
  - intros v s sc st ns st' Hw id name o Hb.
    destruct (WalkStmt_Keeps O v s sc st ns st' (Nat.le_0_l _) Hw)
      as ((_ & _ & B) & _).
    destruct (B id name o Hb) as [?|[? _]]; auto.
  - intros v e sc st st' Hw id name o Hb.
    destruct (WalkExpr_Keeps O v e sc st tt st' (Nat.le_0_l _) Hw)
      as ((_ & _ & B) & _).
    destruct (B id name o Hb) as [?|[? _]]; auto.
Qed.


(** *** Defining assignments *)

Lemma Lookup_agree (h h' : Heap) (sc : ScopeRef) (name : string) :
  Forall (fun id => h' !! id = h !! id) sc ->
  Lookup h' sc name = Lookup h sc name.
Proof.
  induction 1 as [|id outer Hid Hall IH]; simpl; [reflexivity|].
  now rewrite Hid, IH.
Qed.

Lemma Extends_Lookup (n : nat) (h h' : Heap) (sc : ScopeRef) (name : string) :
  Extends n h h' -> Forall (fun id => (id < n)%nat) sc ->
  Lookup h' sc name = Lookup h sc name.
Proof.
  intros (_ & S & _) Hsc. apply Lookup_agree.
  eapply Forall_impl; [exact Hsc|]. intros id Hid. now apply S.
Qed.

(** A walk of an expression starts with the call of [VisitExpr] for it, in
    the scope it was given. *)
Lemma WalkExpr_first_call (v : V) (e : expr) (sc : ScopeRef)
      (st st' : WalkState (W:=W)) :
  WalkExpr v e sc st = Finished (tt, st') ->
  exists evs, trace st' = trace st ++ EvExpr sc e (heap st) :: evs.
Proof.
  pose proof WalkExpr_Keeps as HE. pose proof WalkStmt_Keeps as HS.
  assert (Hrest : forall (m : M (W:=W) unit) st1,
             Keeps O m ->
             trace st1 = trace st ++ [EvExpr sc e (heap st)] ->
             m st1 = Finished (tt, st') ->
             exists evs, trace st' = trace st ++ EvExpr sc e (heap st) :: evs).
  { intros m st1 Hm Ht Hrun.
    destruct (Hm st1 tt st' (Nat.le_0_l _) Hrun) as (_ & evs & T & _).
    exists evs. rewrite T, Ht. now rewrite <- app_assoc. }
  destruct e; simpl; unfold bind at 1, callVisitExpr;
    (destruct (VisitExpr v (heap st) sc _ (world st)) as [[[v'|] world']|msg];
     [|intros [= <-]; simpl; eexists []; reflexivity|discriminate]);
    apply Hrest; try reflexivity; repeat keeps_step.
Qed.

Lemma forEach_WalkExpr_calls (v : V) (sc : ScopeRef) (l : list expr) :
  forall (st st' : WalkState (W:=W)),
    forEach (fun e => WalkExpr v e sc) l st = Finished (tt, st') ->
    forall e, e ∈ l -> exists h, EvExpr sc e h ∈ trace st'.
Proof.
  induction l as [|x l IH]; intros st st' Hrun e Hin; [inversion Hin|].
  simpl in Hrun. unfold bind in Hrun.
  destruct (WalkExpr v x sc st) as [[[] st1]|msg] eqn:Ex; [|discriminate].
  pose proof (Keeps_forEach O (fun e => WalkExpr v e sc) l) as Hk.
  apply elem_of_cons in Hin. destruct Hin as [->|Hin].
  - destruct (WalkExpr_first_call v x sc st st1 Ex) as (evs & T).
    destruct (Hk (proj2 (Forall_forall _ _)
                        (fun e _ => WalkExpr_Keeps O v e sc))
                 st1 tt st' (Nat.le_0_l _) Hrun) as (_ & evs' & T' & _).
    exists (heap st). rewrite T', T. set_solver.
  - eapply IH; eassumption.
Qed.

(** The loop over the left-hand side makes no call and touches only the new
    scope, where it leaves every name that is not exempt bound. *)
Lemma insert_lhs_spec (fresh : nat) (outer : ScopeRef) (lhs : list expr) :
  forall (st st' : WalkState (W:=W)),
    forEach (fun e => bind (identObj e) (insertToScope (fresh :: outer)))
            lhs st = Finished (tt, st') ->
    trace st' = trace st
    /\ world st' = world st
    /\ Extends fresh (heap st) (heap st')
    /\ (forall name, is_Some (scopeLookup (heap st) (fresh :: outer) name) ->
                     is_Some (scopeLookup (heap st') (fresh :: outer) name))
    /\ (forall id o, IdentExpr id ∈ lhs -> Obj id = Some o -> ~ exempt o ->
                     is_Some (scopeLookup (heap st') (fresh :: outer) (ObjName o))).
Proof.
  induction lhs as [|x lhs IH]; intros st st' Hrun.
  - injection Hrun as <-. repeat split; auto using Extends_refl.
    intros id o Hin. inversion Hin.
  - simpl in Hrun. unfold bind at 1 in Hrun.
    destruct x; try discriminate. simpl in Hrun. unfold bind at 1 in Hrun.
    simpl in Hrun.
    destruct (insertToScope (fresh :: outer) (Obj id) st) as [[[] st1]|msg] eqn:Ei;
      [|discriminate].
    destruct (IH st1 st' Hrun) as (T & Wd & E & Mono & Bound).
    assert (Hstep : trace st1 = trace st /\ world st1 = world st
                    /\ Extends fresh (heap st) (heap st1)
                    /\ (forall name,
                           is_Some (scopeLookup (heap st) (fresh :: outer) name) ->
                           is_Some (scopeLookup (heap st1) (fresh :: outer) name))
                    /\ (forall o, Obj id = Some o -> ~ exempt o ->
                           is_Some (scopeLookup (heap st1) (fresh :: outer)
                                                (ObjName o)))).
    { unfold insertToScope in Ei. destruct (Obj id) as [o|]; [|discriminate].
      destruct (String.eqb (ObjName o) "_") eqn:E1.
      { injection Ei as <-. repeat split; auto using Extends_refl.
        intros o' [= <-] Hex. exfalso. apply Hex. left.
        now apply String.eqb_eq. }
      destruct (bool_decide (Kind o = Fun) && String.eqb (ObjName o) "init") eqn:E2.
      { injection Ei as <-. repeat split; auto using Extends_refl.
        intros o' [= <-] Hex. exfalso. apply Hex. right.
        apply andb_true_iff in E2. destruct E2 as [Ek En].
        apply bool_decide_eq_true in Ek. apply String.eqb_eq in En. auto. }
      unfold scopeInsert in Ei.
      destruct (heap st !! fresh) as [objects|] eqn:Hl; [|discriminate].
      destruct (objects !! ObjName o) as [old|] eqn:Ho.
      - injection Ei as <-. repeat split; auto using Extends_refl.
        intros o' [= <-] _. simpl. rewrite Hl. simpl. rewrite Ho. eauto.
      - injection Ei as <-. simpl.
        split; [reflexivity|]. split; [reflexivity|]. split; [|split].
        + apply Extends_insert; auto using insertToScope_tests.
        + intros name. rewrite Hl. simpl.
          rewrite list_lookup_insert_eq by (eapply lookup_lt_Some; eassumption).
          simpl. intros [o' Ho'].
          destruct (decide (ObjName o = name)) as [<-|Hne]; [congruence|].
          rewrite lookup_insert_ne by assumption. eauto.
        + intros o' [= <-] _.
          rewrite list_lookup_insert_eq by (eapply lookup_lt_Some; eassumption).
          simpl. rewrite lookup_insert_eq. eauto. }
    destruct Hstep as (T1 & W1 & E1 & Mono1 & Bound1).
    split; [congruence|]. split; [congruence|].
    split; [eapply Extends_trans; eassumption|].
    split; [auto|].
    intros id' o Hin Hobj Hex. apply elem_of_cons in Hin.
    destruct Hin as [[= ->]|Hin]; [|eauto].
    apply Mono. now apply Bound1.
Qed.

(** C4. A defining assignment that the visitor does not prune.  The scope
    returned is a new one whose enclosing scope is [sc].  First every
    right-hand-side expression is walked, in [sc]; all through that walk the
    new scope is empty and every name resolves from [sc] as it did before
    the statement.  Only then are the names of the left-hand side inserted,
    into the new scope, with no further call to the visitor; names resolve
    from [sc] as before, and every left-hand name that is not exempt is
    bound in the new scope. *)
Theorem WalkStmt_define_resolves_outer (v v' : V) (sc : ScopeRef)
        (lhs : list expr) (tokpos : Z) (rhs : list expr)
        (st st1 st' : WalkState (W:=W)) (ns : ScopeRef) :
  validScope (heap st) sc ->
  callVisitStmt v sc (AssignStmt lhs tokpos DEFINE rhs) st
  = Finished (Some v', st1) ->
  WalkStmt v (AssignStmt lhs tokpos DEFINE rhs) sc st = Finished (ns, st') ->
  let fresh := length (heap st) in
  ns = fresh :: sc
  /\ exists st2,
      forEach (fun e => WalkExpr v' e sc) rhs
              {| heap := heap st ++ [∅]; world := world st1;
                 trace := trace st1 |}
      = Finished (tt, st2)
      /\ forEach (fun e => bind (identObj e) (insertToScope ns)) lhs st2
         = Finished (tt, st')
      /\ heap st2 !! fresh = Some ∅
      /\ (exists evs,
             trace st2 = trace st1 ++ evs
             /\ Forall (fun ev =>
                          eventHeap ev !! fresh = Some ∅
                          /\ forall name, Lookup (eventHeap ev) sc name
                                          = Lookup (heap st) sc name) evs)
      /\ (forall e, e ∈ rhs -> exists h, EvExpr sc e h ∈ trace st2)
      /\ trace st' = trace st2
      /\ (forall name, Lookup (heap st') sc name = Lookup (heap st) sc name)
      /\ (forall id o, IdentExpr id ∈ lhs -> Obj id = Some o -> ~ exempt o ->
                       is_Some (scopeLookup (heap st') ns (ObjName o))).
Proof.
  intros Hvalid Hcall Hwalk fresh.
  assert (Hheap1 : heap st1 = heap st).
  { unfold callVisitStmt in Hcall.
    destruct (VisitStmt v (heap st) sc _ (world st)) as [[w world']|msg];
      [|discriminate].
    injection Hcall as _ <-. reflexivity. }
  simpl in Hwalk. unfold bind at 1 in Hwalk. rewrite Hcall in Hwalk.
  destruct (decide (DEFINE = DEFINE)) as [_|Hne]; [|contradiction].
  unfold bind at 1, NewScope in Hwalk. rewrite Hheap1 in Hwalk.
  fold fresh in Hwalk.
  set (st1' := {| heap := heap st ++ [∅]; world := world st1;
                  trace := trace st1 |}) in *.
  unfold bind at 1 in Hwalk.
  destruct (forEach (fun e => WalkExpr v' e sc) rhs st1') as [[[] st2]|msg] eqn:Erhs;
    [|discriminate].
  unfold bind at 1 in Hwalk.
  destruct (forEach _ lhs st2) as [[[] st3]|msg] eqn:Elhs; [|discriminate].
  injection Hwalk as <- <-.
  split; [reflexivity|]. exists st2.
  assert (Hlen1 : (S fresh <= length (heap st1'))%nat)
    by (simpl; rewrite length_app; simpl; unfold fresh; lia).
  destruct (Keeps_forEach (S fresh) (fun e => WalkExpr v' e sc) rhs
              (proj2 (Forall_forall _ _)
                     (fun e _ => WalkExpr_Keeps (S fresh) v' e sc))
              st1' tt st2 Hlen1 Erhs) as (E2 & evs & T2 & F2).
  assert (Hnew : heap st1' !! fresh = Some ∅).
  { simpl. rewrite lookup_app_r by (unfold fresh; lia).
    unfold fresh. now rewrite Nat.sub_diag. }
  assert (Hsc : Forall (fun id => (id < S fresh)%nat) sc).
  { eapply Forall_impl; [exact Hvalid|]. intros id Hid. simpl in Hid.
    unfold fresh. lia. }
  assert (Hold : forall h name, Extends (S fresh) (heap st1') h ->
                                Lookup h sc name = Lookup (heap st) sc name).
  { intros h name Eh. rewrite (Extends_Lookup _ _ _ _ _ Eh Hsc).
    apply Lookup_agree. eapply Forall_impl; [exact Hvalid|].
    intros id Hid. simpl in *. now apply lookup_app_l. }
  destruct (insert_lhs_spec fresh sc lhs st2 st3 Elhs)
    as (T3 & _ & E3 & _ & Bound).
  split; [first [reflexivity|exact Erhs]|].
  split; [first [reflexivity|exact Elhs]|].
  split; [|split; [|split; [|split; [|split]]]].
  - destruct E2 as (_ & S2 & _). rewrite S2 by lia. exact Hnew.
  - exists evs. split; [exact T2|].
    eapply Forall_impl; [exact F2|]. intros ev Hev. simpl in Hev. split.
    + destruct Hev as (_ & Sev & _). rewrite Sev by lia. exact Hnew.
    + intros name. now apply Hold.
  - intros e Hin. eapply forEach_WalkExpr_calls; eassumption.
  - exact T3.
  - intros name.
    assert (Hsc' : Forall (fun id => (id < fresh)%nat) sc) by exact Hvalid.
    rewrite (Extends_Lookup _ _ _ _ _ E3 Hsc'). now apply Hold.
  - exact Bound.
Qed.


(** *** Defining range loops *)

Lemma callVisitStmt_heap (v : V) (sc : ScopeRef) (s : stmt)
      (st st1 : WalkState (W:=W)) (w : option V) :
  callVisitStmt v sc s st = Finished (w, st1) -> heap st1 = heap st.
Proof.
  unfold callVisitStmt.
  destruct (VisitStmt v (heap st) sc s (world st)) as [[w' world']|msg];
    [|discriminate].
  intros [= _ <-]. reflexivity.
Qed.

(** Whatever the visitor and the body: once the key is inserted into the new
    scope, the body of a defining range loop is walked from the enclosing
    scope [sc], and the new scope is exited after it. *)
Lemma WalkStmt_range_define_body_scope (v v' : V) (sc : ScopeRef) (k : Ident)
      (x : expr) (body : stmt) (st st1 : WalkState (W:=W)) :
  callVisitStmt v sc (RangeStmt (IdentExpr k) NilExpr DEFINE x body) st
  = Finished (Some v', st1) ->
  WalkStmt v (RangeStmt (IdentExpr k) NilExpr DEFINE x body) sc st
  = bind (insertToScope (length (heap st) :: sc) (Obj k))
         (fun _ =>
            bind (WalkStmt v' body sc)
                 (fun _ =>
                    bind (exitScopes v' (length (heap st) :: sc) sc)
                         (fun _ => ret sc)))
         {| heap := heap st ++ [∅]; world := world st1; trace := trace st1 |}.
Proof.
  intros Hcall. pose proof (callVisitStmt_heap _ _ _ _ _ _ Hcall) as Hheap.
  simpl. unfold bind at 1. rewrite Hcall.
  destruct (decide (DEFINE = ASSIGN)) as [Heq|_]; [discriminate|].
  destruct (decide (DEFINE = DEFINE)) as [_|Hne]; [|contradiction].
  unfold bind at 1 2, NewScope. rewrite Hheap. simpl.
  unfold bind. simpl.
  destruct (insertToScope _ (Obj k) _) as [[[] st2]|msg]; reflexivity.
Qed.

End WalkKeeps.

End walker_induction.

(** *** The walker on concrete statements *)

Module walker_examples.

Import patch main walker_spec walker_facts walker_induction.

Local Open Scope nat_scope.

(** [x := x + 1] in a body whose scope binds an outer [x]: the statement
    opens scope 1 under scope 0, the right [x] is visited in scope 0 where
    it resolves to the outer [x], and the new [x] ends up in scope 1. *)
Example walk_defineX :
  exists st',
    @WalkStmt unit unit Everywhere tt defineX [0] bodyState
    = Finished ([1; 0], st')
    /\ map (fun ev => (eventScope ev, resolvedAt ev "x")) (trace st')
       = [([0], Some outerX); ([0], Some outerX); ([0], Some outerX);
          ([0], Some outerX)]
    /\ (exists h, trace st' !! 2 = Some (EvExpr [0] rightX h))
    /\ Lookup (heap st') [1; 0] "x" = Some innerX
    /\ Lookup (heap st') [0] "x" = Some outerX.
Proof.
  eexists. split; [vm_compute; reflexivity|].
  split; [vm_compute; reflexivity|].
  split; [eexists; vm_compute; reflexivity|].
  split; vm_compute; reflexivity.
Qed.

(** The theorem on defining assignments at [x := x + 1]. *)
Lemma WalkStmt_define_resolves_outer_witness :
  exists st',
    @WalkStmt unit unit Everywhere tt defineX [0] bodyState
    = Finished ([1; 0], st')
    /\ forall name, Lookup (heap st') [0] name = Lookup bodyHeap [0] name.
Proof.
  assert (Hw : exists r, @WalkStmt unit unit Everywhere tt defineX [0] bodyState
                         = Finished r) by (eexists; vm_compute; reflexivity).
  destruct Hw as [[ns st'] Hw].
  assert (Hvalid : validScope (heap bodyState) [0])
    by (repeat constructor).
  assert (Hcall : @callVisitStmt unit unit Everywhere tt [0] defineX bodyState
                  = Finished (Some tt,
                              {| heap := bodyHeap; world := tt;
                                 trace := [EvStmt [0] defineX bodyHeap] |}))
    by reflexivity.
  destruct (@WalkStmt_define_resolves_outer unit unit Everywhere tt tt [0]
              _ _ _ bodyState _ st' ns Hvalid Hcall Hw)
    as (Hns & st2 & _ & _ & _ & _ & _ & _ & Hold & _).
  exists st'. simpl in Hns. subst ns. split; [exact Hw|exact Hold].
Defined.

(** C5. In [for k := range e { k }] the key is bound in scope 1, opened
    under the enclosing scope 0, but the body is walked from scope 0: its
    block opens scope 2 under scope 0, the statement of the body and its
    expression are visited in scope 2, and [k] does not resolve there.
    Scope 1 is exited after the body. *)
Theorem WalkStmt_range_body_outside_key_scope :
  exists st',
    @WalkStmt unit unit Everywhere tt rangeK [0] bodyState
    = Finished ([0], st')
    /\ scopeLookup (heap st') [1; 0] "k" = Some keyK
    /\ map (fun ev => (eventScope ev, resolvedAt ev "k")) (trace st')
       = [([0], None); ([0], None); ([2; 0], None); ([2; 0], None);
          ([2; 0], None); ([1; 0], Some keyK)]
    /\ (exists h, trace st' !! 2 = Some (EvStmt [2; 0] useK h))
    /\ (exists h, trace st' !! 5 = Some (EvExit [1; 0] h)).
Proof.
  eexists. split; [vm_compute; reflexivity|].
  split; [vm_compute; reflexivity|].
  split; [vm_compute; reflexivity|].
  split; eexists; vm_compute; reflexivity.
Qed.

(** The [if] statement does what the range loop misses: in
    [if k := f(); c { k }] the body is walked from the scope of the
    initializer, and [k] resolves in it. *)
Example walk_ifK :
  exists st',
    @WalkStmt unit unit Everywhere tt ifK [0] bodyState = Finished ([0], st')
    /\ map (fun ev => (eventScope ev, resolvedAt ev "k")) (trace st')
       = [([0], None); ([0], None); ([0], None); ([0], None);
          ([1; 0], Some keyK); ([2; 1; 0], Some keyK); ([2; 1; 0], Some keyK);
          ([2; 1; 0], Some keyK); ([1; 0], Some keyK)]
    /\ (exists h, trace st' !! 5 = Some (EvStmt [2; 1; 0] useK h)).
Proof.
  eexists. split; [vm_compute; reflexivity|].
  split; [vm_compute; reflexivity|].
  eexists; vm_compute; reflexivity.
Qed.

(** The blank identifier is exempt: inserting it changes nothing. *)
Lemma walker_never_binds_exempt_witness :
  @insertToScope unit [0] (Some blankObj) bodyState = Finished (tt, bodyState).
Proof.
  apply (proj1 (@walker_never_binds_exempt unit unit Everywhere)).
  left. reflexivity.
Defined.

(** So is a function named [init]; a function named [main] is not, and is
    inserted like any other object. *)
Example insert_init_and_main :
  @insertToScope unit [0] (Some initFunc) bodyState = Finished (tt, bodyState)
  /\ exists st', @insertToScope unit [0] (Some mainFunc) bodyState
                 = Finished (tt, st')
                 /\ scopeLookup (heap st') [0] "main" = Some mainFunc.
Proof.
  split; [reflexivity|]. eexists. split; vm_compute; reflexivity.
Qed.

End walker_examples.

(** ** The implicit error-check pass *)

Module shorterror_facts.

Import patch main shorterror_spec.

(** *** Temporary names *)

(** The loop of [tempVar], with enough fuel for the distance of the counter
    from its limit. *)
Lemma tempVar_loop_spec (h : Heap) (stem : string) (sc : ScopeRef) :
  forall (fuel : nat) (counter : Z),
    (tempVarTurns counter <= fuel)%nat ->
    (exists k,
        counter <= k < tempVarLimit
        /\ tempVar_loop fuel h stem sc counter
           = Some (Finished (stem +:+ strings.Itoa k), k + 1)
        /\ Lookup h sc (stem +:+ strings.Itoa k) = None
        /\ (forall j, counter <= j < k ->
                      Lookup h sc (stem +:+ strings.Itoa j) <> None))
    \/ (tempVar_loop fuel h stem sc counter
        = Some (Abort tempVarPanic, Z.max counter tempVarLimit)
        /\ forall j, counter <= j < tempVarLimit ->
                     Lookup h sc (stem +:+ strings.Itoa j) <> None).
Proof.
  induction fuel as [|fuel IH]; intros counter Hfuel.
  - right. unfold tempVarTurns in Hfuel.
    assert (Hge : tempVarLimit <= counter) by lia.
    simpl. destruct (counter <? tempVarLimit) eqn:E; [apply Z.ltb_lt in E; lia|].
    split; [f_equal; f_equal; lia|]. intros j Hj. lia.
  - simpl. destruct (counter <? tempVarLimit) eqn:E.
    + apply Z.ltb_lt in E.
      destruct (Lookup h sc (stem +:+ strings.Itoa counter)) as [o|] eqn:El.
      * assert (Hnext : (tempVarTurns (counter + 1) <= fuel)%nat)
          by (unfold tempVarTurns in *; lia).
        destruct (IH (counter + 1) Hnext)
          as [(k & Hk & Hrun & Hfree & Htaken)|(Hrun & Htaken)].
        -- left. exists k. split; [lia|]. split; [exact Hrun|].
           split; [exact Hfree|]. intros j Hj.
           destruct (decide (j = counter)) as [->|Hne]; [congruence|].
           apply Htaken. lia.
        -- right. split.
           ++ rewrite Hrun. f_equal. f_equal. lia.
           ++ intros j Hj.
              destruct (decide (j = counter)) as [->|Hne]; [congruence|].
              apply Htaken. lia.
      * left. exists counter. split; [lia|]. split; [reflexivity|].
        split; [exact El|]. intros j Hj. lia.
    + apply Z.ltb_ge in E. right.
      split; [f_equal; f_equal; lia|]. intros j Hj. lia.
Qed.

(** C9. [tempVar] always ends.  Its loop ends within [tempVarTurns counter]
    turns, the distance of the counter from its limit: with that much fuel or
    more it either returns the stem followed by a counter [k] below the
    limit, which is the first candidate from the visitor's counter on that
    the scope does not bind, and leaves the counter at [k + 1]; or, when
    every candidate below the limit is bound, it panics.  The method, which
    runs the loop with that many turns, therefore never meets the cut-off:
    it returns such a name and stores [k + 1] in the visitor, or panics with
    the message of the source. *)
Theorem tempVar_terminates (h : Heap) (stem : string) (sc : ScopeRef) :
  (forall (fuel : nat) (counter : Z),
      (tempVarTurns counter <= fuel)%nat ->
      (exists k,
          counter <= k < tempVarLimit
          /\ tempVar_loop fuel h stem sc counter
             = Some (Finished (stem +:+ strings.Itoa k), k + 1)
          /\ Lookup h sc (stem +:+ strings.Itoa k) = None
          /\ (forall j, counter <= j < k ->
                        Lookup h sc (stem +:+ strings.Itoa j) <> None))
      \/ (tempVar_loop fuel h stem sc counter
          = Some (Abort tempVarPanic, Z.max counter tempVarLimit)
          /\ forall j, counter <= j < tempVarLimit ->
                       Lookup h sc (stem +:+ strings.Itoa j) <> None))
  /\ (forall (v : nat) (w : PassWorld) (o : ShortError),
         objects w !! v = Some o ->
         (exists k,
             tmpvar o <= k < tempVarLimit
             /\ Lookup h sc (stem +:+ strings.Itoa k) = None
             /\ tempVar v stem h sc w
                = Finished (stem +:+ strings.Itoa k,
                            {| objects := <[v := {| stmt_ := stmt_ o;
                                                    block := block o;
                                                    tmpvar := k + 1;
                                                    initTxt := initTxt o |}]>
                                            (objects w);
                               patches := patches w; stdout := stdout w |}))
         \/ tempVar v stem h sc w = Abort tempVarPanic).
Proof.
  split; [apply tempVar_loop_spec|].
  intros v w o Hv. unfold tempVar, pbind, getObj. rewrite Hv.
  destruct (tempVar_loop_spec h stem sc (tempVarTurns (tmpvar o))
              (tmpvar o) (le_n _))
    as [(k & Hk & Hrun & Hfree & _)|(Hrun & _)]; rewrite Hrun.
  - left. exists k. split; [exact Hk|]. split; [exact Hfree|]. reflexivity.
  - right. reflexivity.
Qed.

(** In an empty scope the first candidate is free. *)
Lemma tempVar_terminates_witness :
  tempVar_loop (tempVarTurns 0) [] "tmp_" [] 0 = Some (Finished "tmp_0", 1).
Proof.
  destruct (proj1 (tempVar_terminates [] "tmp_" []) (tempVarTurns 0) 0 (le_n _))
    as [(k & Hk & Hrun & Hfree & Htaken)|(Hrun & Htaken)].
  - destruct (decide (k = 0)) as [->|Hne]; [exact Hrun|].
    exfalso. apply (Htaken 0); [lia|reflexivity].
  - exfalso. apply (Htaken 0); [unfold tempVarLimit; lia|reflexivity].
Defined.

(** *** Calls of [must] with the wrong number of arguments *)

(** In expression position the arity is checked before anything else: the
    visitor returned is nil, no patch is added, nothing aborts, and one line
    is written to standard output. *)
Lemma ShortError_VisitExpr_arity `{SourceFile} (v : nat) (h : Heap)
      (sc : ScopeRef) (e : expr) (fun_ : Ident) (args : list expr)
      (w : PassWorld) :
  mustCall e = Some (fun_, args) ->
  length args <> 1%nat ->
  exists line,
    ShortError_VisitExpr v h sc e w
    = Finished (None, {| objects := objects w; patches := patches w;
                         stdout := stdout w ++ [line] |}).
Proof.
  intros Hmust Hlen. unfold ShortError_VisitExpr. rewrite Hmust.
  destruct args as [|a [|b rest]]; [|simpl in Hlen; lia|];
    destruct (Position (IdentPos fun_)) as [[filename line] column];
    eexists; reflexivity.
Qed.

(** C7. Two ways in which a call of [must] with two arguments is not handled
    as specified.  As the right-hand side of an assignment, [x := must(a, b)],
    [VisitStmt] does not look at the number of arguments: it adds its three
    patches and reports nothing.  In expression position [VisitExpr] does
    prune and adds no patch, but what it prints is the format string as it
    stands, followed by the file name, the line and the column, not the
    position formatted as file:line:column. *)
Theorem must_arity_not_handled_as_specified :
  (exists w',
      @ShortError_VisitStmt demoFile 0 [] [] assignMustTwo inBlock
      = Finished (None, w')
      /\ patches w'
         = [Insert 12 ", assignerr_0 "; Replace 15 19 EmptyString;
            Insert 25 "; if assignerr_0 != nil { panic(assignerr_0) };"]
      /\ stdout w' = [])
  /\ (exists w',
         @ShortError_VisitExpr demoFile 0 [] [] mustTwo inBlock
         = Finished (None, w')
         /\ patches w' = []
         /\ stdout w'
            = [mustArity +:+ " f.go 3 15" +:+ newline]
         /\ stdout w' <> [positionedReport "f.go" 3 15]
         /\ stdout w' <> [positionedReport "f.go" 3 15 +:+ newline]).
Proof.
  split.
  - eexists. split; [vm_compute; reflexivity|].
    split; vm_compute; reflexivity.
  - eexists. split; [vm_compute; reflexivity|].
    split; [vm_compute; reflexivity|].
    split; [vm_compute; reflexivity|].
    split; vm_compute; discriminate.
Qed.

End shorterror_facts.

(* ===================================================================== *)
(** * Part IV: further properties of the code                              *)
(* ===================================================================== *)

(** ** instrument.go: patches and import rewriting *)

Module instrument_more.

Import patch instrument patch_spec patch_facts instrument_spec.

Lemma appendNoContradict_cases (patches : Patches) (toadd : Patch) :
  (Exists (fun p => contradicts toadd p = true) patches
   /\ appendNoContradict patches toadd = patches)
  \/ (Forall (fun p => contradicts toadd p = false) patches
      /\ appendNoContradict patches toadd = patches ++ [toadd]).
Proof.
  destruct (decide (Exists (fun p => contradicts toadd p = true) patches))
    as [Hex|Hnex].
  - left. split; [assumption|now apply appendNoContradict_dropped].
  - right.
    assert (Hall : Forall (fun p => contradicts toadd p = false) patches).
    { apply Forall_forall. intros p Hp.
      destruct (contradicts toadd p) eqn:E; [|reflexivity].
      exfalso. apply Hnex. apply Exists_exists. eauto. }
    split; [assumption|now apply appendNoContradict_appended].
Qed.

Lemma contradicts_self (t : Patch) : wf_patch t -> contradicts t t = true.
Proof.
  unfold wf_patch, contradicts. intros Hwf.
  apply orb_true_iff. left. apply andb_true_iff. split; apply Z.leb_le; lia.
Qed.

(** X1. Proposing the same well formed patch a second time changes nothing:
    whether the first proposal was appended or dropped, the second is
    dropped. *)
Theorem appendNoContradict_twice (patches : Patches) (toadd : Patch) :
  wf_patch toadd ->
  appendNoContradict (appendNoContradict patches toadd) toadd
  = appendNoContradict patches toadd.
Proof.
  intros Hwf.
  destruct (appendNoContradict_cases patches toadd) as [[Hex E]|[Hall E]];
    rewrite E.
  - exact E.
  - apply appendNoContradict_dropped. apply Exists_app. right.
    constructor. now apply contradicts_self.
Qed.

Lemma appendNoContradict_twice_witness :
  appendNoContradict (appendNoContradict [Insert 5 "x"] (Replace 20 25 "y"))
                     (Replace 20 25 "y")
  = [Insert 5 "x"; Replace 20 25 "y"].
Proof.
  rewrite (appendNoContradict_twice [Insert 5 "x"] (Replace 20 25 "y"));
    [reflexivity|].
  unfold wf_patch. simpl. lia.
Defined.

(** A patch whose range ends before it starts is not even in its own way. *)
Example appendNoContradict_inverted_twice :
  appendNoContradict (appendNoContradict [] (Replace 9 3 "y")) (Replace 9 3 "y")
  = [Replace 9 3 "y"; Replace 9 3 "y"].
Proof. reflexivity. Qed.

Section Rewriting.

Context `{GoEnv}.

Lemma rewriteImport_shape (i : Instrumentable) (path : string)
      (imp : ImportSpec) (patches patches' : Patches) :
  rewriteImport i path imp patches = OK patches' ->
  patches' = patches
  \/ exists text,
      patches' = appendNoContradict patches
                   (Replace (PathPos imp) (PathEnd imp) text).
Proof.
  unfold rewriteImport.
  destruct (String.eqb (PathText imp) (ImportPath (pkg i)));
    [intros [= <-]; eauto|].
  destruct (negb (relevantImport i (PathText imp))); [intros [= <-]; auto|].
  destruct (IsLocalImport (PathText imp)); [intros [= <-]; eauto|].
  destruct (filepath_Rel path _) as [rel|err]; [|discriminate].
  intros [= <-]. eauto.
Qed.

(** X2. Rewriting the imports of a file never drops, changes or reorders a
    patch the pass returned: the result is the pass's patches followed by
    replacements of path literals of the file's imports, at most one for
    each import. *)
Theorem rewriteImports_keeps_pass_patches (i : Instrumentable) (path : string)
        (imps : list ImportSpec) :
  forall patches patches',
    rewriteImports i path imps patches = OK patches' ->
    exists added,
      patches' = patches ++ added
      /\ Forall (rewritesOneOf imps) added
      /\ (length added <= length imps)%nat.
Proof.
  induction imps as [|imp rest IH]; intros patches patches' Hrun.
  - injection Hrun as <-. exists []. rewrite app_nil_r.
    repeat split; [constructor|simpl; lia].
  - simpl in Hrun.
    destruct (rewriteImport i path imp patches) as [mid|err] eqn:Ei;
      [|discriminate].
    destruct (IH mid patches' Hrun) as (added & -> & Hadded & Hlen).
    assert (Hlift : Forall (rewritesOneOf (imp :: rest)) added).
    { eapply Forall_impl; [exact Hadded|].
      intros p (imp' & text & Hin & ->). exists imp', text.
      split; [now apply elem_of_cons; right|reflexivity]. }
    destruct (rewriteImport_shape i path imp patches mid Ei) as [->|[text ->]].
    + exists added. repeat split; [assumption|simpl; lia].
    + destruct (appendNoContradict_cases patches
                  (Replace (PathPos imp) (PathEnd imp) text))
        as [[_ E]|[_ E]]; rewrite E.
      * exists added. repeat split; [assumption|simpl; lia].
      * exists (Replace (PathPos imp) (PathEnd imp) text :: added).
        rewrite <- app_assoc. repeat split; [|simpl; lia].
        constructor; [|assumption].
        exists imp, text. split; [now apply elem_of_cons; left|reflexivity].
Qed.

Lemma literal_wf (imp : ImportSpec) (text : string) :
  wf_patch (Replace (PathPos imp) (PathEnd imp) text).
Proof. unfold wf_patch, PathEnd. simpl. lia. Qed.

(** X3. The patch set rendered into a file is free of overlaps whenever the
    pass returned well formed patches free of overlaps and no path literal of
    an import reaches beyond, on both sides, a patch of the pass or the
    literal of another import. *)
Theorem rewriteImports_keeps_NoOverlap (i : Instrumentable) (path : string)
        (imps : list ImportSpec) :
  forall patches patches',
    NoOverlap patches -> Forall wf_patch patches ->
    (forall imp p, imp ∈ imps -> p ∈ patches -> ~ encloses (literalOf imp) p) ->
    (forall imp imp', imp ∈ imps -> imp' ∈ imps ->
                      ~ encloses (literalOf imp) (literalOf imp')) ->
    rewriteImports i path imps patches = OK patches' ->
    NoOverlap patches' /\ Forall wf_patch patches'.
Proof.
  induction imps as [|imp rest IH];
    intros patches patches' Hno Hwf Hpass Hlit Hrun.
  - injection Hrun as <-. auto.
  - simpl in Hrun.
    destruct (rewriteImport i path imp patches) as [mid|err] eqn:Ei;
      [|discriminate].
    assert (Hmid : NoOverlap mid /\ Forall wf_patch mid
                   /\ forall p, p ∈ mid ->
                                p ∈ patches
                                \/ exists text,
                                    p = Replace (PathPos imp) (PathEnd imp) text).
    { destruct (rewriteImport_shape i path imp patches mid Ei) as [->|[text ->]];
        [auto|].
      split; [|split].
      - apply appendNoContradict_keeps_NoOverlap; auto using literal_wf.
        apply Forall_forall. intros p Hp Henc.
        apply (Hpass imp p); [now apply elem_of_cons; left|assumption|].
        exact Henc.
      - destruct (appendNoContradict_cases patches
                    (Replace (PathPos imp) (PathEnd imp) text))
          as [[_ E]|[_ E]]; rewrite E; [assumption|].
        apply Forall_app. split; [assumption|].
        constructor; [apply literal_wf|constructor].
      - intros p Hp.
        destruct (appendNoContradict_cases patches
                    (Replace (PathPos imp) (PathEnd imp) text))
          as [[_ E]|[_ E]]; rewrite E in Hp; [auto|].
        apply elem_of_app in Hp. destruct Hp as [Hp|Hp]; [auto|].
        apply list_elem_of_singleton in Hp. eauto. }
    destruct Hmid as (Hno' & Hwf' & Hfrom).
    apply (IH mid patches' Hno' Hwf'); [| |exact Hrun].
    + intros imp' p Hin Hp Henc.
      destruct (Hfrom p Hp) as [Hold|[text ->]].
      * apply (Hpass imp' p); [now apply elem_of_cons; right|assumption|].
        exact Henc.
      * apply (Hlit imp' imp); [now apply elem_of_cons; right
                               |now apply elem_of_cons; left|].
        exact Henc.
    + intros imp1 imp2 H1 H2.
      apply Hlit; apply elem_of_cons; now right.
Qed.

End Rewriting.

Import closure_spec.

(** In the diamond's root, a file that imports [fmt] and [a/b]. *)
Lemma rewriteImports_keeps_pass_patches_witness :
  exists added,
    @rewriteImports diamondEnv diamondRoot "out" twoImports [Insert 5 "x"]
    = OK ([Insert 5 "x"] ++ added)
    /\ (length added <= 2)%nat.
Proof.
  destruct (@rewriteImports diamondEnv diamondRoot "out" twoImports
                            [Insert 5 "x"]) as [ps|err] eqn:E;
    [|vm_compute in E; discriminate].
  destruct (@rewriteImports_keeps_pass_patches diamondEnv diamondRoot "out"
              twoImports _ _ E) as (added & -> & _ & Hlen).
  exists added. split; [reflexivity|exact Hlen].
Defined.

Lemma rewriteImports_keeps_NoOverlap_witness :
  exists ps,
    @rewriteImports diamondEnv diamondRoot "out" twoImports [Insert 5 "x"]
    = OK ps
    /\ NoOverlap ps.
Proof.
  destruct (@rewriteImports diamondEnv diamondRoot "out" twoImports
                            [Insert 5 "x"]) as [ps|err] eqn:E;
    [|vm_compute in E; discriminate].
  exists ps. split; [reflexivity|].
  apply (@rewriteImports_keeps_NoOverlap diamondEnv diamondRoot "out"
           twoImports [Insert 5 "x"] ps).
  - simpl. split; [constructor|exact I].
  - constructor; [unfold wf_patch; simpl; lia|constructor].
  - intros imp p Himp Hp. unfold twoImports in Himp.
    apply list_elem_of_singleton in Hp. subst p.
    unfold encloses. simpl.
    apply elem_of_cons in Himp. destruct Himp as [->|Himp];
      [simpl; lia|].
    apply list_elem_of_singleton in Himp. subst imp. simpl. lia.
  - intros imp imp' Himp Himp'. unfold twoImports in *.
    unfold encloses, literalOf, PathEnd. simpl.
    apply elem_of_cons in Himp. apply elem_of_cons in Himp'.
    destruct Himp as [->|Himp]; destruct Himp' as [->|Himp'];
      try (apply list_elem_of_singleton in Himp; subst imp);
      try (apply list_elem_of_singleton in Himp'; subst imp');
      simpl; lia.
  - exact E.
Defined.

End instrument_more.

(** ** instrument.go: output files and paths *)

Module output_more.

Import patch instrument patch_spec patch_facts instrument_spec.

(** [strings.Replace] of two dots, one character at a time. *)
Lemma ReplaceDotDot_other (c : ascii) (r : string) :
  c <> "."%char ->
  strings.ReplaceDotDot (String c r) = String c (strings.ReplaceDotDot r).
Proof.
  intros Hc.
  destruct c as [[] [] [] [] [] [] [] []]; try reflexivity.
  contradiction.
Qed.

Lemma ReplaceDotDot_dot_other (d : ascii) (r : string) :
  d <> "."%char ->
  strings.ReplaceDotDot (String "." (String d r))
  = String "." (strings.ReplaceDotDot (String d r)).
Proof.
  intros Hd.
  destruct d as [[] [] [] [] [] [] [] []]; try reflexivity.
  contradiction.
Qed.

Lemma ReplaceDotDot_head_dot (s r : string) :
  strings.ReplaceDotDot s = String "." r ->
  s = "." \/ exists d s', s = String "." (String d s') /\ d <> "."%char.
Proof.
  destruct s as [|c s]; [discriminate|].
  destruct (ascii_dec c ".") as [->|Hc].
  - destruct s as [|d s']; [auto|].
    destruct (ascii_dec d ".") as [->|Hd]; [discriminate|].
    right. eauto.
  - rewrite ReplaceDotDot_other by assumption. intros [= -> _]. contradiction.
Qed.

Lemma ReplaceDotDot_clean_upto (n : nat) :
  forall s, (String.length s <= n)%nat ->
            forall a b, strings.ReplaceDotDot s <> a +:+ ".." +:+ b.
Proof.
  induction n as [|n IH]; intros s Hlen a b.
  - destruct s; [|simpl in Hlen; lia]. destruct a as [|x a]; discriminate.
  - destruct s as [|c s]; [destruct a; discriminate|]. simpl in Hlen.
    assert (Htail : forall c' t, strings.ReplaceDotDot (String c s) = String c' t ->
                                 t = strings.ReplaceDotDot s
                                 \/ exists s', s = String "." s'
                                               /\ t = String "_" (strings.ReplaceDotDot s')).
    { intros c' t Heq. destruct (ascii_dec c ".") as [->|Hc].
      - destruct s as [|d s']; [injection Heq as _ <-; auto|].
        destruct (ascii_dec d ".") as [->|Hd].
        + injection Heq as _ <-. right. eauto.
        + rewrite ReplaceDotDot_dot_other in Heq by assumption.
          injection Heq as _ <-. auto.
      - rewrite ReplaceDotDot_other in Heq by assumption.
        injection Heq as _ <-. auto. }
    destruct a as [|x a].
    + (* the output would begin with two dots *)
      change (EmptyString +:+ ".." +:+ b) with (String "." (String "." b)).
      intros Heq.
      destruct (ReplaceDotDot_head_dot _ _ Heq) as [Hs|(d & s' & Hs & Hd)].
      * rewrite Hs in Heq. discriminate.
      * rewrite Hs in Heq. rewrite ReplaceDotDot_dot_other in Heq by assumption.
        rewrite (ReplaceDotDot_other d s') in Heq by assumption.
        injection Heq as Hd' _. contradiction.
    + change (String x a +:+ ".." +:+ b) with (String x (a +:+ ".." +:+ b)).
      intros Heq. destruct (Htail _ _ Heq) as [Ht|(s' & -> & Ht)].
      * apply (IH s ltac:(lia) a b). now symmetry.
      * destruct a as [|y a].
        -- discriminate.
        -- change (String y a +:+ ".." +:+ b)
             with (String y (a +:+ ".." +:+ b)) in Ht.
           injection Ht as _ Ht.
           apply (IH s' ltac:(simpl in Hlen; lia) a b). now symmetry.
Qed.

(** Escaping the two-dot segments leaves none behind: whatever the path,
    the result has no two dots in a row, and it is as long as the path. *)
Lemma ReplaceDotDot_leaves_no_dotdot (s : string) :
  ~ hasDotDot (strings.ReplaceDotDot s)
  /\ String.length (strings.ReplaceDotDot s) = String.length s.
Proof.
  split.
  - intros (a & b & Heq).
    exact (ReplaceDotDot_clean_upto (String.length s) s (le_n _) a b Heq).
  - assert (Hlen : forall n s, (String.length s <= n)%nat ->
                     String.length (strings.ReplaceDotDot s) = String.length s).
    { clear s. induction n as [|n IH]; intros s Hs.
      - destruct s; [reflexivity|simpl in Hs; lia].
      - destruct s as [|c s]; [reflexivity|]. simpl in Hs.
        destruct (ascii_dec c ".") as [->|Hc].
        + destruct s as [|d s']; [reflexivity|].
          destruct (ascii_dec d ".") as [->|Hd].
          * change (strings.ReplaceDotDot (String "." (String "." s')))
              with (String "_" (String "_" (strings.ReplaceDotDot s'))).
            cbn [String.length]. rewrite IH by (simpl in Hs; lia). reflexivity.
          * rewrite ReplaceDotDot_dot_other by assumption.
            cbn [String.length]. f_equal. apply IH. simpl in *. lia.
        + rewrite ReplaceDotDot_other by assumption.
          cbn [String.length]. f_equal. apply IH. lia. }
    apply (Hlen (String.length s)). lia.
Qed.

Section Output.

Context `{GoEnv}.

Lemma instrumentFiles_entries (i : Instrumentable) (outdir path : string)
      (f : PatchableFile -> Patches) (files : PatchablePkg) :
  forall out r out',
    instrumentFiles i outdir path f files out = (r, out') ->
    exists entries,
      out' = out ++ entries
      /\ Forall2 (writtenFor i outdir path f)
                 (take (length entries) files) entries
      /\ (r = None -> length entries = length files).
Proof.
  induction files as [|[filename file] rest IH]; intros out r out' Hrun.
  - injection Hrun as <- <-. exists []. rewrite app_nil_r.
    repeat split; constructor.
  - simpl in Hrun.
    destruct (os_Create _) as [err|];
      [injection Hrun as <- <-; exists []; rewrite app_nil_r;
       repeat split; [constructor|discriminate]|].
    destruct (rewriteImports i path (FileImports file) (f file))
      as [patches|err] eqn:Er;
      [|injection Hrun as <- <-; exists []; rewrite app_nil_r;
        repeat split; [constructor|discriminate]].
    assert (Hhere : writtenFor i outdir path f (filename, file)
                      (filepath_Join [outdir; path; filepath_Base filename],
                       patches)) by (split; [reflexivity|exact Er]).
    destruct (os_Close _) as [err|].
    + injection Hrun as <- <-. eexists [_]. split; [reflexivity|].
      split; [|discriminate]. simpl. constructor; [exact Hhere|constructor].
    + destruct (IH _ _ _ Hrun) as (entries & -> & Hall & Hlen).
      eexists (_ :: entries). rewrite <- app_assoc. split; [reflexivity|].
      split; [simpl; constructor; assumption|].
      intros Hr. simpl. f_equal. auto.
Qed.

(** X4. What [instrumentPatchable] adds to the files written, however it
    ends: one entry for each file of the package up to the point where it
    stopped, in order, each under [outdir] and one directory [path] with the
    base name of the file, and holding the patches of the pass followed by
    the import rewrites; all files when it ends without an error.  Nothing
    written before is touched.  For a package reached by a local import the
    directory has no two dots in a row; for the root it is empty. *)
Theorem instrumentPatchable_writes (i : Instrumentable)
        (outdir relpath : string) (pkg_ : PatchablePkg)
        (f : PatchableFile -> Patches) (out out' : Output) (r : option error) :
  instrumentPatchable i outdir relpath pkg_ f out = (r, out') ->
  exists path entries,
    out' = out ++ entries
    /\ Forall2 (writtenFor i outdir path f)
               (take (length entries) pkg_) entries
    /\ (r = None -> length entries = length pkg_)
    /\ (IsLocalImport relpath = true -> ~ hasDotDot path)
    /\ (IsLocalImport relpath = false -> relpath <> EmptyString ->
        path = filepath_Join ["gopath"; ImportPath (pkg i)])
    /\ (relpath = EmptyString -> path = EmptyString).
Proof.
  unfold instrumentPatchable.
  set (path := if IsLocalImport relpath then _ else _).
  intros Hrun. exists path.
  assert (Hpath : (IsLocalImport relpath = true -> ~ hasDotDot path)
                  /\ (IsLocalImport relpath = false -> relpath <> EmptyString ->
                      path = filepath_Join ["gopath"; ImportPath (pkg i)])
                  /\ (relpath = EmptyString -> path = EmptyString)).
  { subst path. split; [|split].
    - intros ->. apply ReplaceDotDot_leaves_no_dotdot.
    - intros -> Hne. apply String.eqb_neq in Hne. now rewrite Hne.
    - intros ->. reflexivity. }
  destruct (os_MkdirAll _) as [err|].
  - injection Hrun as <- <-. exists []. rewrite app_nil_r.
    split; [reflexivity|]. split; [constructor|]. split; [discriminate|].
    exact Hpath.
  - destruct (instrumentFiles_entries i outdir path f pkg_ out r out' Hrun)
      as (entries & Hout & Hall & Hlen).
    exists entries. auto.
Qed.

End Output.

Import closure_spec.

(** The root of the diamond, with one file: it is written to [out/x.go]. *)
Lemma instrumentPatchable_writes_witness :
  exists entries,
    @instrumentPatchable diamondEnv diamondRoot "out" EmptyString
      [("x.go", {| FileId := O; FileImports := twoImports |})]
      (fun _ => [Insert 5 "x"]) []
    = (None, entries)
    /\ length entries = 1%nat.
Proof.
  destruct (@instrumentPatchable diamondEnv diamondRoot "out" EmptyString
              [("x.go", {| FileId := O; FileImports := twoImports |})]
              (fun _ => [Insert 5 "x"]) []) as [r out'] eqn:E.
  destruct (@instrumentPatchable_writes diamondEnv _ _ _ _ _ _ _ _ E)
    as (path & entries & -> & _ & Hlen & _).
  assert (Hr : r = None) by (vm_compute in E; congruence).
  subst r. exists entries. split; [reflexivity|]. now apply Hlen.
Defined.

End output_more.

(** ** instrument.go: the base package and the closure *)

Module closure_more.

Import patch instrument closure_spec closure_facts closure_more_spec.

Section Guess.

Context `{GoEnv}.

(** X5. What [guessBasepkg] returns when the repository root is not known
    statically: it climbs from the import path to its directory as long as
    the path has a slash and the directory can be imported, and returns the
    first path where it cannot go on, which has no slash or a directory that
    cannot be imported. *)
Theorem guessBasepkg_loop_climbs (fuel : nat) :
  forall p r,
    guessBasepkg_loop fuel p = Some r ->
    exists n,
      r = Nat.iter n filepath_Dir p
      /\ (forall k, (k < n)%nat ->
            strings.Contains (Nat.iter k filepath_Dir p) "/" = true
            /\ exists parent,
                build_Import (Nat.iter (S k) filepath_Dir p) = OK parent)
      /\ (strings.Contains r "/" = false
          \/ exists err, build_Import (filepath_Dir r) = Fail err).
Proof.
  induction fuel as [|fuel IH]; intros p r Hrun; simpl in Hrun.
  - destruct (strings.Contains p "/") eqn:Ec; [discriminate|].
    injection Hrun as <-. exists O. split; [reflexivity|]. split; [intros k Hk; lia|auto].
  - destruct (strings.Contains p "/") eqn:Ec.
    + destruct (build_Import (filepath_Dir p)) as [parent|err] eqn:Ei.
      * destruct (IH _ _ Hrun) as (n & -> & Hsteps & Hstop).
        exists (S n). split; [|split].
        -- symmetry. apply Nat.iter_succ_r.
        -- intros k Hk. destruct k as [|k'].
           ++ simpl. eauto.
           ++ destruct (Hsteps k' ltac:(lia)) as (Hc & parent' & Hp).
              rewrite (Nat.iter_succ_r k'), (Nat.iter_succ_r (S k')). eauto.
        -- exact Hstop.
      * injection Hrun as <-. exists O. split; [reflexivity|]. split; [intros k Hk; lia|eauto].
    + injection Hrun as <-. exists O. split; [reflexivity|]. split; [intros k Hk; lia|auto].
Qed.

End Guess.

(** From [a/b/c] the guess climbs to [a]. *)
Lemma guessBasepkg_loop_climbs_witness :
  exists n, "a" = Nat.iter n (@filepath_Dir climbEnv) "a/b/c".
Proof.
  destruct (@guessBasepkg_loop_climbs climbEnv 5 "a/b/c" "a" eq_refl)
    as (n & Hn & _).
  exists n. exact Hn.
Defined.

Section Order.

Context `{GoEnv}.

Lemma instrumentTo_Done_processed (fuel : nat) (i : Instrumentable)
      (istest : bool) (outdir relpath : string) (f : PatchableFile -> Patches)
      (st st' : RunState) :
  instrumentTo fuel i istest outdir relpath f st = (Done, st') ->
  isProcessed st' (ImportPath (pkg i)) = true.
Proof.
  intros Hrun.
  destruct fuel as [|fuel]; [discriminate|].
  destruct (isProcessed st (ImportPath (pkg i))) eqn:Hq.
  - simpl in Hrun. rewrite Hq in Hrun. now injection Hrun as <-.
  - pose proof (instrumentTo_Step (S fuel) i istest outdir relpath f st) as HS.
    rewrite Hrun in HS. simpl in HS. destruct HS as [G _].
    simpl in Hrun. rewrite Hq in Hrun.
    pose proof (instrumentImports_Step fuel
                  (fun pkg_ imp st => instrumentTo fuel pkg_ false outdir imp f st)
                  i relpath
                  (fun j imp s => instrumentTo_Step fuel j false outdir imp f s)
                  (allImports i) (markProcessed st (ImportPath (pkg i))))
      as [G1 _].
    unfold allImports in G1.
    destruct (instrumentImports _ _ _ _ _ _) as [o st1]. simpl in G1.
    assert (H1 : isProcessed st1 (ImportPath (pkg i)) = true)
      by (apply G1, isProcessed_mark; now left).
    destruct o; try discriminate.
    destruct istest; simpl in Hrun.
    + pose proof (parseAndInstrument_calls i outdir relpath f WithTests
                    (TestFiles i) st1) as (_ & P1 & _).
      destruct (parseAndInstrument i outdir relpath f WithTests (TestFiles i) st1)
        as [o1 st2]. simpl in P1. destruct o1; try discriminate.
      pose proof (parseAndInstrument_calls i outdir relpath f ExternalTests
                    (XTestFiles i) st2) as (_ & P2 & _).
      rewrite Hrun in P2. simpl in P2.
      rewrite (isProcessed_same st' st2) by assumption.
      now rewrite (isProcessed_same st2 st1).
    + pose proof (parseAndInstrument_calls i outdir relpath f Primary
                    (Files i) st1) as (_ & P1 & _).
      rewrite Hrun in P1. simpl in P1.
      now rewrite (isProcessed_same st' st1).
Qed.

Lemma instrumentImports_Done (fuel : nat)
      (rec : Instrumentable -> string -> RunState -> Outcome * RunState)
      (i : Instrumentable) (relpath : string) :
  (forall j imp s, Step s (snd (rec j imp s))) ->
  (forall j imp s s', rec j imp s = (Done, s') ->
                      isProcessed s' (ImportPath (pkg j)) = true) ->
  forall imps st st',
    instrumentImports fuel rec i relpath imps st = (Done, st') ->
    forall imp, imp ∈ imps -> relevantImport i imp = true ->
      exists j, doimport fuel i imp = Some (OK j)
                /\ isProcessed st' (ImportPath (pkg j)) = true.
Proof.
  intros Hstep Hdone imps.
  induction imps as [|x rest IH]; intros st st' Hrun imp Hin Hrel;
    [inversion Hin|].
  simpl in Hrun.
  destruct (relevantImport i x) eqn:Ex.
  - destruct (doimport fuel i x) as [[pk|err]|] eqn:Ed; try discriminate.
    destruct (rec pk _ st) as [o st1] eqn:Er. destruct o; try discriminate.
    apply elem_of_cons in Hin. destruct Hin as [->|Hin].
    + exists pk. split; [exact Ed|].
      pose proof (instrumentImports_Step fuel rec i relpath Hstep rest st1)
        as [G _].
      rewrite Hrun in G. simpl in G. apply G. eapply Hdone. exact Er.
    + eapply IH; eassumption.
  - apply elem_of_cons in Hin. destruct Hin as [->|Hin]; [congruence|].
    eapply IH; eassumption.
Qed.

(** X6. A call of [instrumentTo] that returns without an error leaves the
    package's import path in the [processed] map; and when the package was
    not in the map before, every relevant import of it could be resolved and
    the import path of the package it resolved to is in the map as well.  So
    a relevant import that cannot be resolved never lets the call end
    without an error. *)
Theorem instrumentTo_Done_closed (fuel : nat) (i : Instrumentable)
        (istest : bool) (outdir relpath : string) (f : PatchableFile -> Patches)
        (st st' : RunState) :
  instrumentTo (S fuel) i istest outdir relpath f st = (Done, st') ->
  isProcessed st' (ImportPath (pkg i)) = true
  /\ (isProcessed st (ImportPath (pkg i)) = false ->
      forall imp, imp ∈ allImports i -> relevantImport i imp = true ->
        exists j, doimport fuel i imp = Some (OK j)
                  /\ isProcessed st' (ImportPath (pkg j)) = true).
Proof.
  intros Hrun. split; [eapply instrumentTo_Done_processed; exact Hrun|].
  intros Hq imp Hin Hrel. simpl in Hrun. rewrite Hq in Hrun.
  pose proof (instrumentImports_Done fuel
                (fun pkg_ imp st => instrumentTo fuel pkg_ false outdir imp f st)
                i relpath
                (fun j imp s => instrumentTo_Step fuel j false outdir imp f s)
                (fun j imp s s' Hr =>
                   instrumentTo_Done_processed fuel j false outdir imp f s s' Hr)
                (allImports i) (markProcessed st (ImportPath (pkg i))))
    as Hloop.
  unfold allImports in Hloop at 1.
  destruct (instrumentImports _ _ _ _ _ _) as [o st1].
  destruct o; try discriminate.
  destruct (Hloop st1 eq_refl imp Hin Hrel) as (j & Hj & Hp).
  exists j. split; [exact Hj|].
  destruct istest; simpl in Hrun.
  - pose proof (parseAndInstrument_calls i outdir relpath f WithTests
                  (TestFiles i) st1) as (_ & P1 & _).
    destruct (parseAndInstrument i outdir relpath f WithTests (TestFiles i) st1)
      as [o1 st2]. simpl in P1. destruct o1; try discriminate.
    pose proof (parseAndInstrument_calls i outdir relpath f ExternalTests
                  (XTestFiles i) st2) as (_ & P2 & _).
    rewrite Hrun in P2. simpl in P2.
    rewrite (isProcessed_same st' st2) by assumption.
    now rewrite (isProcessed_same st2 st1).
  - pose proof (parseAndInstrument_calls i outdir relpath f Primary
                  (Files i) st1) as (_ & P1 & _).
    rewrite Hrun in P1. simpl in P1.
    now rewrite (isProcessed_same st' st1).
Qed.

(** X7. Dependencies come first: in a call of [instrumentTo] that returns
    without an error, for a package not yet in the [processed] map, the
    package's own files are instrumented last, after everything the call did
    for its imports, and none of those earlier calls is for the package
    itself. *)
Theorem instrumentTo_own_files_last (fuel : nat) (i : Instrumentable)
        (istest : bool) (outdir relpath : string) (f : PatchableFile -> Patches)
        (st st' : RunState) :
  isProcessed st (ImportPath (pkg i)) = false ->
  instrumentTo (S fuel) i istest outdir relpath f st = (Done, st') ->
  exists earlier,
    calls st' = calls st ++ earlier ++ ownCalls i istest
    /\ forall p k, (p, k) ∈ earlier -> p <> ImportPath (pkg i).
Proof.
  intros Hq Hrun. simpl in Hrun. rewrite Hq in Hrun.
  pose proof (instrumentImports_Step fuel
                (fun pkg_ imp st => instrumentTo fuel pkg_ false outdir imp f st)
                i relpath
                (fun j imp s => instrumentTo_Step fuel j false outdir imp f s)
                (allImports i) (markProcessed st (ImportPath (pkg i))))
    as [_ (earlier & C & _ & Pn)].
  unfold allImports in C, Pn.
  destruct (instrumentImports _ _ _ _ _ _) as [o st1]. simpl in C, Pn.
  destruct o; try discriminate.
  exists earlier. split.
  - unfold ownCalls. destruct istest; simpl in Hrun.
    + pose proof (parseAndInstrument_calls i outdir relpath f WithTests
                    (TestFiles i) st1) as (_ & _ & _ & D1).
      destruct (parseAndInstrument i outdir relpath f WithTests (TestFiles i) st1)
        as [o1 st2]. simpl in D1. destruct o1; try discriminate.
      pose proof (parseAndInstrument_calls i outdir relpath f ExternalTests
                    (XTestFiles i) st2) as (_ & _ & _ & D2).
      rewrite Hrun in D2. simpl in D2.
      rewrite (D2 eq_refl), (D1 eq_refl), C. simpl.
      now rewrite <- !app_assoc.
    + pose proof (parseAndInstrument_calls i outdir relpath f Primary
                    (Files i) st1) as (_ & _ & _ & D1).
      rewrite Hrun in D1. simpl in D1.
      rewrite (D1 eq_refl), C. simpl. now rewrite <- !app_assoc.
  - intros p k Hin ->. destruct (Pn _ _ Hin) as [Hf _].
    assert (isProcessed (markProcessed st (ImportPath (pkg i)))
                        (ImportPath (pkg i)) = true)
      by (apply isProcessed_mark; now left).
    congruence.
Qed.

End Order.

(** In the diamond, the run from [a] resolves the import [a/b] and leaves
    it in the map. *)
Lemma instrumentTo_Done_closed_witness :
  exists j,
    @doimport diamondEnv 8 diamondRoot "a/b" = Some (OK j)
    /\ isProcessed
         (snd (@instrumentTo diamondEnv 9 diamondRoot false "out" EmptyString
                 (fun _ => []) emptyRun))
         (ImportPath (pkg j)) = true.
Proof.
  assert (Hrun : @instrumentTo diamondEnv 9 diamondRoot false "out" EmptyString
                   (fun _ => []) emptyRun
                 = (Done, snd (@instrumentTo diamondEnv 9 diamondRoot false "out"
                                 EmptyString (fun _ => []) emptyRun)))
    by (vm_compute; reflexivity).
  destruct (@instrumentTo_Done_closed diamondEnv 8 diamondRoot false "out"
              EmptyString (fun _ => []) emptyRun _ Hrun) as [_ Himps].
  apply (Himps eq_refl "a/b").
  - apply elem_of_cons. now left.
  - vm_compute. reflexivity.
Defined.

(** In the diamond, the call for [a] itself is the last one of the run. *)
Lemma instrumentTo_own_files_last_witness :
  exists earlier,
    calls (snd (@instrumentTo diamondEnv 9 diamondRoot false "out" EmptyString
                  (fun _ => []) emptyRun))
    = calls emptyRun ++ earlier ++ [("a", Primary)].
Proof.
  assert (Hrun : @instrumentTo diamondEnv 9 diamondRoot false "out" EmptyString
                   (fun _ => []) emptyRun
                 = (Done, snd (@instrumentTo diamondEnv 9 diamondRoot false "out"
                                 EmptyString (fun _ => []) emptyRun)))
    by (vm_compute; reflexivity).
  destruct (@instrumentTo_own_files_last diamondEnv 8 diamondRoot false "out"
              EmptyString (fun _ => []) emptyRun _ eq_refl Hrun)
    as (earlier & Hc & _).
  exists earlier. exact Hc.
Defined.

End closure_more.

(** ** More on the toolchain command *)

Module buildcmd_more.

Import instrument buildcmd_spec buildcmd_more_spec.

(** X8. A command that [Retarget] returns differs from the one it was
    called on in the working directory, which is the new directory, and in
    the output flag only: the verb is one of [run], [test] and [build]; for
    [run] and [test] the flags are the same; for [build] every flag but [o]
    is the same and [o] is a name joined to the path from the new directory
    back to the old one, the name being the value of [o] when that was set
    and not empty. *)
Theorem Retarget_changes_dir_and_output `{GoEnv} (cmd cmd' : GoCmd)
        (newdir : string) :
  Retarget cmd newdir = OK cmd' ->
  WorkDir cmd' = newdir
  /\ Executable cmd' = Executable cmd
  /\ Command cmd' = Command cmd
  /\ Params cmd' = Params cmd
  /\ ExtraFlags cmd' = ExtraFlags cmd
  /\ (Command cmd = "run" \/ Command cmd = "test" \/ Command cmd = "build")
  /\ (forall k, k <> "o" -> BuildFlags cmd' !! k = BuildFlags cmd !! k)
  /\ (Command cmd <> "build" -> BuildFlags cmd' = BuildFlags cmd)
  /\ (Command cmd = "build" ->
      exists rel v,
        filepath_Rel newdir (WorkDir cmd) = OK rel
        /\ BuildFlags cmd' !! "o" = Some (filepath_Join [rel; v])
        /\ (flagValue (BuildFlags cmd) "o" <> EmptyString ->
            v = flagValue (BuildFlags cmd) "o")).
Proof.
  unfold Retarget.
  destruct (filepath_Rel newdir (WorkDir cmd)) as [rel|err]; [|discriminate].
  destruct (String.eqb (Command cmd) "run") eqn:Erun.
  { simpl. intros [= <-]. simpl. apply String.eqb_eq in Erun.
    do 5 (split; [reflexivity|]). split; [now left|].
    split; [reflexivity|]. split; [reflexivity|]. rewrite Erun. discriminate. }
  destruct (String.eqb (Command cmd) "test") eqn:Etest.
  { simpl. intros [= <-]. simpl. apply String.eqb_eq in Etest.
    do 5 (split; [reflexivity|]). split; [now right; left|].
    split; [reflexivity|]. split; [reflexivity|]. rewrite Etest. discriminate. }
  simpl.
  destruct (String.eqb (Command cmd) "build") eqn:Ebuild; [|discriminate].
  apply String.eqb_eq in Ebuild.
  destruct (String.eqb (flagValue (BuildFlags cmd) "o") EmptyString) eqn:Ev.
  - destruct (getOutputFileName cmd) as [nm|err]; [|discriminate].
    intros [= <-]. simpl.
    do 5 (split; [reflexivity|]). split; [now right; right|].
    split; [intros k Hk; now rewrite lookup_insert_ne by congruence|].
    split; [congruence|]. intros _. exists rel, nm.
    split; [reflexivity|]. split; [apply lookup_insert_eq|].
    apply String.eqb_eq in Ev. congruence.
  - intros [= <-]. simpl.
    do 5 (split; [reflexivity|]). split; [now right; right|].
    split; [intros k Hk; now rewrite lookup_insert_ne by congruence|].
    split; [congruence|]. intros _.
    exists rel, (flagValue (BuildFlags cmd) "o").
    split; [reflexivity|]. split; [apply lookup_insert_eq|]. reflexivity.
Qed.

(** [go build -o out -v], retargeted: the output moves, [-v] stays. *)
Lemma Retarget_changes_dir_and_output_witness :
  exists cmd',
    @Retarget helloEnv helloBuildOut "/tmp/out" = OK cmd'
    /\ BuildFlags cmd' !! "v" = Some "true"
    /\ BuildFlags cmd' !! "o" = Some "../../src/hello/out".
Proof.
  destruct (@Retarget helloEnv helloBuildOut "/tmp/out") as [cmd'|err] eqn:E;
    [|vm_compute in E; discriminate].
  exists cmd'. split; [reflexivity|].
  destruct (@Retarget_changes_dir_and_output helloEnv helloBuildOut cmd'
              "/tmp/out" E) as (_ & _ & _ & _ & _ & _ & Hk & _ & Ho).
  split.
  - rewrite Hk by discriminate. vm_compute. reflexivity.
  - destruct (Ho eq_refl) as (rel & v & Hrel & Hov & Hv).
    rewrite Hov. vm_compute in Hrel. injection Hrel as <-.
    rewrite Hv by (vm_compute; discriminate).
    vm_compute. reflexivity.
Defined.

Lemma SearchStrings_nonneg (a : list string) (x : string) :
  0 <= SearchStrings a x.
Proof.
  induction a as [|y rest IH]; simpl; [lia|].
  destruct (String.compare y x); lia.
Qed.

Lemma defineFlags_remaining (names : list string) (kind : FlagKind) :
  forall fs fs', defineFlags fs names kind = Some fs' ->
                 remaining fs' = remaining fs.
Proof.
  induction names as [|n rest IH]; simpl; intros fs fs' Hd.
  - now injection Hd as <-.
  - unfold defineFlag in Hd. destruct (isDefined fs n); [discriminate|].
    now rewrite (IH _ _ Hd).
Qed.

Lemma isDefined_defineFlags (names : list string) (kind : FlagKind)
      (name : string) :
  forall fs fs', defineFlags fs names kind = Some fs' ->
                 isDefined fs name = true \/ name ∈ names ->
                 isDefined fs' name = true.
Proof.
  induction names as [|n rest IH]; simpl; intros fs fs' Hd Hin.
  - injection Hd as <-. destruct Hin as [Hin|Hin]; [exact Hin|inversion Hin].
  - unfold defineFlag in Hd. destruct (isDefined fs n) eqn:En; [discriminate|].
    apply (IH _ _ Hd). unfold isDefined. simpl. rewrite existsb_app. simpl.
    destruct Hin as [Hin|Hin].
    + left. unfold isDefined in Hin. now rewrite Hin.
    + apply elem_of_cons in Hin. destruct Hin as [->|Hin]; [|now right].
      left. rewrite String.eqb_refl. now rewrite orb_true_r.
Qed.

Lemma defineFlags_defined (names : list string) (kind : FlagKind)
      (name : string) :
  forall fs, isDefined fs name = true -> name ∈ names ->
             defineFlags fs names kind = None.
Proof.
  induction names as [|n rest IH]; simpl; intros fs Hdef Hin;
    [inversion Hin|].
  unfold defineFlag. destruct (isDefined fs n) eqn:En; [reflexivity|].
  apply IH.
  - unfold isDefined. simpl. rewrite existsb_app.
    unfold isDefined in Hdef. now rewrite Hdef.
  - apply elem_of_cons in Hin. destruct Hin as [->|Hin]; [congruence|exact Hin].
Qed.

Section Process.

Context `{FlagEnv}.

Lemma NewGoCmdWithFlags_defines (commandLine flags commandLine' : FlagSet)
      (workdir : string) (args : list string) (r : Result GoCmd) :
  NewGoCmdWithFlags commandLine flags workdir args = (r, commandLine') ->
  (2 <= length args)%nat ->
  (forall msg, r <> Panic msg) ->
  isDefined commandLine' "compiler" = true
  /\ remaining commandLine' = remaining commandLine.
Proof.
  intros Hrun Hlen Hr.
  destruct args as [|exe [|verb rest]]; [simpl in Hlen; lia..|].
  unfold NewGoCmdWithFlags in Hrun.
  pose proof (SearchStrings_nonneg ["build"; "run"; "test"] verb) as Hs.
  destruct (SearchStrings ["build"; "run"; "test"] verb >? -1) eqn:Es; [|lia].
  destruct (defineFlag flags "p" IntFlag) as [f1|];
    [|inversion Hrun; subst; now destruct (Hr "flag redefined")].
  destruct (defineFlags f1 _ BoolFlag) as [f2|];
    [|inversion Hrun; subst; now destruct (Hr "flag redefined")].
  destruct (defineFlags commandLine _ StringFlag) as [cl|] eqn:Ecl;
    [|inversion Hrun; subst; now destruct (Hr "flag redefined")].
  assert (Hcl : commandLine' = cl).
  { revert Hrun.
    repeat match goal with
           | |- context [match ?x with _ => _ end] => destruct x
           | |- context [if ?x then _ else _] => destruct x
           end; now intros [= _ <-]. }
  subst cl. split.
  - eapply isDefined_defineFlags; [exact Ecl|]. right.
    apply elem_of_cons. now left.
  - eapply defineFlags_remaining. exact Ecl.
Qed.

(** X9. One process can make one command: whenever a call of
    [NewGoCmdWithFlags] with a verb did not panic, it has defined the flag
    [compiler] on the process-wide flag set, and every later call with a
    verb, on whatever flag set and arguments, panics for defining it
    again. *)
Theorem NewGoCmdWithFlags_second_call_panics
        (commandLine flags commandLine' : FlagSet) (workdir : string)
        (args : list string) (r : Result GoCmd) :
  NewGoCmdWithFlags commandLine flags workdir args = (r, commandLine') ->
  (2 <= length args)%nat ->
  (forall msg, r <> Panic msg) ->
  forall flags2 workdir2 args2,
    (2 <= length args2)%nat ->
    exists msg,
      fst (NewGoCmdWithFlags commandLine' flags2 workdir2 args2) = Panic msg.
Proof.
  intros Hrun Hlen Hr flags2 workdir2 args2 Hlen2.
  destruct (NewGoCmdWithFlags_defines _ _ _ _ _ _ Hrun Hlen Hr) as [Hdef _].
  destruct args2 as [|exe [|verb rest]]; [simpl in Hlen2; lia..|].
  unfold NewGoCmdWithFlags.
  pose proof (SearchStrings_nonneg ["build"; "run"; "test"] verb) as Hs.
  destruct (SearchStrings ["build"; "run"; "test"] verb >? -1) eqn:Es; [|lia].
  destruct (defineFlag flags2 "p" IntFlag) as [f1|]; [|simpl; eauto].
  destruct (defineFlags f1 _ BoolFlag) as [f2|]; [|simpl; eauto].
  rewrite (defineFlags_defined _ StringFlag "compiler" commandLine' Hdef)
    by (apply elem_of_cons; now left).
  simpl. eauto.
Qed.

Lemma splitParams_spec (stop : string -> bool) (globalArgs : list string) :
  forall args i params params' extra,
    splitParams stop globalArgs i args params = Some (params', extra) ->
    exists taken,
      params' = params ++ taken
      /\ taken `prefix_of` args
      /\ Forall (fun p => stop p = false) taken
      /\ ((taken = args /\ extra = [])
          \/ (exists p, args !! length taken = Some p /\ stop p = true)
             /\ (i + length taken <= length globalArgs)%nat
             /\ extra = drop (i + length taken) globalArgs).
Proof.
  induction args as [|a rest IH]; simpl; intros i params params' extra Hs.
  - injection Hs as <- <-. exists []. rewrite app_nil_r.
    split; [reflexivity|]. split; [reflexivity|]. split; [constructor|].
    now left.
  - destruct (stop a) eqn:Ea.
    + unfold sliceFrom in Hs.
      destruct (i <=? length globalArgs)%nat eqn:Ei; [|discriminate].
      injection Hs as <- <-. apply Nat.leb_le in Ei.
      exists []. rewrite app_nil_r. split; [reflexivity|].
      split; [apply prefix_nil|]. split; [constructor|]. right.
      simpl. rewrite Nat.add_0_r. split; [eauto|]. split; [exact Ei|reflexivity].
    + destruct (IH _ _ _ _ Hs) as (taken & -> & Hpre & Hall & Hend).
      exists (a :: taken). rewrite <- app_assoc. split; [reflexivity|].
      split; [now apply prefix_cons|]. split; [now constructor|].
      destruct Hend as [[-> ->]|(Hp & Hlen & ->)]; [now left|right].
      simpl. rewrite <- Nat.add_succ_comm. simpl in *. auto.
Qed.

(** X10. The extra flags of a [run] or [test] command are not taken from
    the arguments it was made from: the parameters are the leading
    arguments left by the parse up to the first one that stops them (for
    [run] one that does not end in [.go], for [test] one that begins with
    a dash), and when there is such an argument the extra flags are what
    the process-wide flag set has left from that index on, so that the call
    only returns when the process has at least that many arguments of its
    own. *)
Theorem NewGoCmdWithFlags_extra_from_process
        (commandLine flags commandLine' : FlagSet) (workdir exe verb : string)
        (rest : list string) (cmd : GoCmd) :
  verb = "run" \/ verb = "test" ->
  NewGoCmdWithFlags commandLine flags workdir (exe :: verb :: rest)
  = (Ret cmd, commandLine') ->
  exists parsed,
    flag_parse (formal parsed) rest = OK (actual parsed, remaining parsed)
    /\ BuildFlags cmd = FromFlagSet parsed
    /\ Params cmd `prefix_of` remaining parsed
    /\ Forall (fun p => stopsParams verb p = false) (Params cmd)
    /\ ((Params cmd = remaining parsed /\ ExtraFlags cmd = [])
        \/ (exists p, remaining parsed !! length (Params cmd) = Some p
                      /\ stopsParams verb p = true)
           /\ (length (Params cmd) <= length (remaining commandLine))%nat
           /\ ExtraFlags cmd
              = drop (length (Params cmd)) (remaining commandLine)).
Proof.
  intros Hverb. unfold NewGoCmdWithFlags.
  pose proof (SearchStrings_nonneg ["build"; "run"; "test"] verb) as Hs.
  destruct (SearchStrings ["build"; "run"; "test"] verb >? -1) eqn:Es; [|lia].
  destruct (defineFlag flags "p" IntFlag) as [f1|]; [|discriminate].
  destruct (defineFlags f1 _ BoolFlag) as [f2|]; [|discriminate].
  destruct (defineFlags commandLine _ StringFlag) as [cl|] eqn:Ecl;
    [|discriminate].
  pose proof (defineFlags_remaining _ _ _ _ Ecl) as Hrem.
  assert (Hgen : forall f3 : FlagSet,
    match Parse f3 rest with
    | Fail err => (Error err, cl)
    | OK flags0 =>
      match splitParams (stopsParams verb) (remaining cl) 0 (remaining flags0) []
      with
      | None => (Panic "slice bounds out of range", cl)
      | Some (params, extra) =>
        (Ret {| WorkDir := workdir; Executable := exe; Command := verb;
                BuildFlags := FromFlagSet flags0;
                Params := params; ExtraFlags := extra |}, cl)
      end
    end = (Ret cmd, commandLine') ->
    exists parsed,
      flag_parse (formal parsed) rest = OK (actual parsed, remaining parsed)
      /\ BuildFlags cmd = FromFlagSet parsed
      /\ Params cmd `prefix_of` remaining parsed
      /\ Forall (fun p => stopsParams verb p = false) (Params cmd)
      /\ ((Params cmd = remaining parsed /\ ExtraFlags cmd = [])
          \/ (exists p, remaining parsed !! length (Params cmd) = Some p
                        /\ stopsParams verb p = true)
             /\ (length (Params cmd) <= length (remaining commandLine))%nat
             /\ ExtraFlags cmd
                = drop (length (Params cmd)) (remaining commandLine))).
  { intros f3. unfold Parse.
    destruct (flag_parse (formal f3) rest) as [[set left_]|err] eqn:Ep;
      [|discriminate].
    simpl.
    destruct (splitParams _ _ _ _ _) as [[params extra]|] eqn:Esp;
      [|discriminate].
    intros [= <- <-]. simpl.
    destruct (splitParams_spec _ _ _ _ _ _ _ Esp)
      as (taken & -> & Hpre & Hall & Hend).
    simpl in *. rewrite Hrem in Hend.
    exists {| formal := formal f3; actual := set; remaining := left_ |}.
    simpl. split; [exact Ep|]. split; [reflexivity|].
    split; [exact Hpre|]. split; [exact Hall|]. exact Hend. }
  destruct Hverb as [-> | ->].
  - change (String.eqb "run" "run") with true.
    change (String.eqb "run" "buid") with false.
    cbv iota. apply Hgen.
  - change (String.eqb "test" "run") with false.
    change (String.eqb "test" "build") with false.
    change (String.eqb "test" "test") with true.
    change (String.eqb "test" "buid") with false.
    cbv iota.
    destruct (defineFlags f2 ["i"; "c"] BoolFlag) as [f3|]; [|discriminate].
    apply Hgen.
Qed.

End Process.

(** In a process without arguments of its own, [go run] followed by a
    program and its arguments panics: there is no first call to come
    back from. *)
Example NewGoCmd_run_with_arguments :
  fst (@NewGoCmd positionalOnly freshProcess "/src/hello"
         ["go"; "run"; "a.go"; "x"])
  = Panic "slice bounds out of range".
Proof. vm_compute. reflexivity. Qed.

(** After [go run a.go], a second command cannot be made. *)
Lemma NewGoCmdWithFlags_second_call_panics_witness :
  exists msg,
    fst (@NewGoCmd positionalOnly
           (snd (@NewGoCmd positionalOnly freshProcess "/src/hello"
                   ["go"; "run"; "a.go"]))
           "/src/hello" ["go"; "build"])
    = Panic msg.
Proof.
  eapply (@NewGoCmdWithFlags_second_call_panics positionalOnly freshProcess
            NewFlagSet _ "/src/hello" ["go"; "run"; "a.go"]).
  - apply surjective_pairing.
  - simpl. lia.
  - intros msg. vm_compute. discriminate.
  - simpl. lia.
Defined.

(** [go run a.go b.go]: both files are parameters and nothing is extra. *)
Lemma NewGoCmdWithFlags_extra_from_process_witness :
  exists cmd parsed,
    fst (@NewGoCmd positionalOnly freshProcess "/src/hello"
           ["go"; "run"; "a.go"; "b.go"]) = Ret cmd
    /\ Params cmd `prefix_of` remaining parsed
    /\ BuildFlags cmd = FromFlagSet parsed.
Proof.
  destruct (@NewGoCmd positionalOnly freshProcess "/src/hello"
              ["go"; "run"; "a.go"; "b.go"]) as [r cl] eqn:E.
  destruct r as [cmd|e|msg]; try (vm_compute in E; discriminate).
  destruct (@NewGoCmdWithFlags_extra_from_process positionalOnly freshProcess
              NewFlagSet cl "/src/hello" "go" "run" ["a.go"; "b.go"] cmd
              (or_introl eq_refl) E) as (parsed & _ & Hb & Hp & _).
  exists cmd, parsed. split; [reflexivity|]. split; [exact Hp|exact Hb].
Defined.

End buildcmd_more.

(** ** More on the scope walker *)

Module walker_more.

Import patch main walker_spec walker_facts walker_induction walker_more_spec.

Section Walks.

Context {V W : Type} `{!ScopeVisitor V W}.

Local Abbreviation M := (M (W:=W)).

Lemma bind_inv {A B} (m : M A) (k : A -> M B) (st : WalkState (W:=W))
      (r : B * WalkState (W:=W)) :
  bind m k st = Finished r ->
  exists a st1, m st = Finished (a, st1) /\ k a st1 = Finished r.
Proof.
  unfold bind. destruct (m st) as [[a st1]|msg]; [eauto|discriminate].
Qed.

Lemma Extends_all_prefix (h h' : Heap) :
  Extends (length h) h h' -> exists new, h' = h ++ new.
Proof.
  intros (Hlen & Hsame & _). exists (drop (length h) h').
  apply list_eq. intros i. destruct (decide (i < length h)%nat).
  - rewrite lookup_app_l by lia. now apply Hsame.
  - rewrite lookup_app_r by lia. rewrite lookup_drop. f_equal. lia.
Qed.

Lemma Keeps_appends {A} (m : M A) (st : WalkState (W:=W)) (a : A)
      (st' : WalkState (W:=W)) :
  Keeps (length (heap st)) m ->
  m st = Finished (a, st') ->
  (exists new, heap st' = heap st ++ new)
  /\ exists evs, trace st' = trace st ++ evs
                 /\ Forall (fun ev => exists new, eventHeap ev = heap st ++ new)
                           evs.
Proof.
  intros Hk Hrun. destruct (Hk st a st' (le_n _) Hrun) as (E & evs & T & F).
  split; [now apply Extends_all_prefix|].
  exists evs. split; [exact T|].
  eapply Forall_impl; [exact F|]. intros ev Hev. now apply Extends_all_prefix.
Qed.

(** X11. A walk of a statement or of an expression leaves every scope that
    existed before it as it was: the store after the walk is the store
    before it with the scopes the walk made added at the end, the calls to
    the visitor are added to those made before, and the store the visitor
    saw at each of them is the store before the walk with scopes added at
    the end. *)
Theorem Walk_adds_scopes_at_the_end :
  (forall (v : V) s sc (st : WalkState (W:=W)) ns st',
      WalkStmt v s sc st = Finished (ns, st') ->
      (exists new, heap st' = heap st ++ new)
      /\ exists evs,
          trace st' = trace st ++ evs
          /\ Forall (fun ev => exists new, eventHeap ev = heap st ++ new) evs)
  /\ (forall (v : V) e sc (st : WalkState (W:=W)) st',
         WalkExpr v e sc st = Finished (tt, st') ->
         (exists new, heap st' = heap st ++ new)
         /\ exists evs,
             trace st' = trace st ++ evs
             /\ Forall (fun ev => exists new, eventHeap ev = heap st ++ new)
                       evs).
Proof.
  split.
  - intros v s sc st ns st' Hrun.
    eapply Keeps_appends; [apply WalkStmt_Keeps|exact Hrun].
  - intros v e sc st st' Hrun.
    eapply Keeps_appends; [apply WalkExpr_Keeps|exact Hrun].
Qed.

(** *** Leaving scopes *)

Lemma exitScopes_run (v : V) (limit : ScopeRef) :
  forall inner (st st' : WalkState (W:=W)),
    exitScopes v inner limit st = Finished (tt, st') ->
    exists pre,
      inner = pre ++ limit
      /\ heap st' = heap st
      /\ trace st'
         = trace st ++ map (fun c => EvExit c (heap st)) (chainsFrom pre limit).
Proof.
  induction inner as [|id outer IH]; intros st st' Hrun; simpl in Hrun.
  - destruct (decide ([] = limit)) as [<-|Hne]; [|discriminate].
    injection Hrun as <-. exists []. simpl. now rewrite app_nil_r.
  - destruct (decide (id :: outer = limit)) as [<-|Hne].
    + injection Hrun as <-. exists []. simpl. now rewrite app_nil_r.
    + apply bind_inv in Hrun. destruct Hrun as ([] & st1 & Hcall & Hrun).
      unfold callExitScope in Hcall.
      destruct (ExitScope v (heap st) (id :: outer) (world st))
        as [[w world']|msg]; [|discriminate].
      injection Hcall as <-.
      destruct (IH _ _ Hrun) as (pre & -> & Hh & Ht). simpl in Hh, Ht.
      exists (id :: pre). split; [reflexivity|]. split; [exact Hh|].
      rewrite Ht. simpl. now rewrite <- app_assoc.
Qed.

(** X12. [exitScopes] from the chain [pre ++ limit] down to [limit] calls
    [ExitScope] once for each scope of [pre], innermost first, with the
    chain that starts at it, and not for [limit]; it changes no scope; it
    ends when each of these calls does.  From a chain that does not end in
    [limit] it never comes back. *)
Theorem exitScopes_exits_each_once (v : V) (limit : ScopeRef) :
  (forall pre (st : WalkState (W:=W)),
      (forall c h w, c ∈ chainsFrom pre limit ->
                     exists r, ExitScope v h c w = Finished r) ->
      exists st',
        exitScopes v (pre ++ limit) limit st = Finished (tt, st')
        /\ heap st' = heap st
        /\ trace st'
           = trace st
             ++ map (fun c => EvExit c (heap st)) (chainsFrom pre limit))
  /\ (forall inner (st : WalkState (W:=W)) st',
         (forall pre, inner <> pre ++ limit) ->
         exitScopes v inner limit st <> Finished (tt, st')).
Proof.
  split.
  - induction pre as [|id pre IH]; intros st Hends; simpl.
    + exists st. destruct limit; simpl.
      * split; [reflexivity|]. now rewrite app_nil_r.
      * destruct (decide (n :: limit = n :: limit)) as [_|Hne];
          [|contradiction].
        split; [reflexivity|]. now rewrite app_nil_r.
    + destruct (decide (id :: pre ++ limit = limit)) as [Heq|_].
      { apply (f_equal length) in Heq. simpl in Heq.
        rewrite length_app in Heq. lia. }
      destruct (Hends (id :: pre ++ limit) (heap st) (world st))
        as ([w world'] & Hcall); [apply elem_of_cons; now left|].
      unfold bind at 1, callExitScope. rewrite Hcall.
      destruct (IH {| heap := heap st; world := world';
                      trace := trace st
                               ++ [EvExit (id :: pre ++ limit) (heap st)] |})
        as (st' & Hrun & Hh & Ht).
      { intros c h w0 Hc. apply Hends. apply elem_of_cons. now right. }
      exists st'. split; [exact Hrun|]. split; [exact Hh|].
      rewrite Ht. simpl. now rewrite <- app_assoc.
  - intros inner st st' Hnot Hrun.
    destruct (exitScopes_run _ _ _ _ _ Hrun) as (pre & Hpre & _).
    exact (Hnot pre Hpre).
Qed.

(** *** The scope a statement leaves *)

Lemma NewScope_inv (outer ns : ScopeRef) (st st' : WalkState (W:=W)) :
  NewScope outer st = Finished (ns, st') ->
  ns = length (heap st) :: outer
  /\ st' = {| heap := heap st ++ [∅]; world := world st; trace := trace st |}.
Proof. unfold NewScope. intros [= <- <-]. split; reflexivity. Qed.

Lemma WalkSpec_returns (v : V) (sp : spec) (sc newscope ns : ScopeRef)
      (st st' : WalkState (W:=W)) :
  WalkSpec v sp sc newscope st = Finished (ns, st') ->
  ns = length (heap st) :: newscope
  /\ (length (heap st) <= length (heap st'))%nat.
Proof.
  intros Hrun.
  assert (Hlen : (length (heap st) <= length (heap st'))%nat).
  { destruct (proj2 (proj2 Walk_Keeps) sp O v sc newscope st ns st'
                (Nat.le_0_l _) Hrun) as ((Hl & _) & _). exact Hl. }
  split; [|exact Hlen].
  destruct sp; simpl in Hrun; apply bind_inv in Hrun;
    destruct Hrun as (ns1 & st1 & Hnew & Hrun);
    apply NewScope_inv in Hnew; destruct Hnew as [-> _];
    try discriminate;
    repeat (apply bind_inv in Hrun; destruct Hrun as (? & ? & _ & Hrun));
    now injection Hrun as <-.
Qed.

Lemma foldEach_WalkSpec_returns (v : V) (sc : ScopeRef) (specs : list spec) :
  forall acc ns (st st' : WalkState (W:=W)),
    foldEach (fun sp newscope => WalkSpec v sp sc newscope) specs acc st
    = Finished (ns, st') ->
    exists added,
      ns = added ++ acc
      /\ Forall (fun id => (length (heap st) <= id)%nat) added.
Proof.
  induction specs as [|sp rest IH]; intros acc ns st st' Hrun; simpl in Hrun.
  - injection Hrun as <- <-. exists []. split; [reflexivity|constructor].
  - apply bind_inv in Hrun. destruct Hrun as (ns1 & st1 & Hsp & Hrun).
    apply WalkSpec_returns in Hsp. destruct Hsp as [-> Hlen].
    destruct (IH _ _ _ _ Hrun) as (added & -> & Hfresh).
    exists (added ++ [length (heap st)]).
    split; [now rewrite <- app_assoc|].
    apply Forall_app. split.
    + eapply Forall_impl; [exact Hfresh|]. simpl. intros id Hid. lia.
    + constructor; [lia|constructor].
Qed.

Lemma WalkStmt_returns (v : V) (s : stmt) (sc ns : ScopeRef)
      (st st' : WalkState (W:=W)) :
  WalkStmt v s sc st = Finished (ns, st') ->
  exists added,
    ns = added ++ sc
    /\ Forall (fun id => (length (heap st) <= id)%nat) added
    /\ (declares s = false -> added = []).
Proof.
  intros Hrun.
  assert (Hsame : forall st1 : WalkState (W:=W),
             ret sc st1 = Finished (ns, st') ->
             exists added,
               ns = added ++ sc
               /\ Forall (fun id => (length (heap st) <= id)%nat) added
               /\ (declares s = false -> added = [])).
  { intros st1 [= <- _]. exists []. split; [reflexivity|].
    split; [constructor|reflexivity]. }
  destruct s; simpl in Hrun; apply bind_inv in Hrun;
    destruct Hrun as (w & st1 & Hv & Hrun);
    apply callVisitStmt_heap in Hv;
    (destruct w as [v'|]; [|now apply (Hsame st1)]);
    try discriminate;
    try (repeat (apply bind_inv in Hrun; destruct Hrun as (? & ? & _ & Hrun));
         now apply (Hsame _ Hrun)).
  - (* assignment *)
    destruct (decide (tok = DEFINE)) as [->|Hne].
    + apply bind_inv in Hrun. destruct Hrun as (ns1 & st2 & Hnew & Hrun).
      apply NewScope_inv in Hnew. destruct Hnew as [-> _].
      repeat (apply bind_inv in Hrun; destruct Hrun as (? & ? & _ & Hrun)).
      injection Hrun as <- _. exists [length (heap st1)].
      split; [reflexivity|]. split; [|discriminate].
      constructor; [rewrite Hv; lia|constructor].
    + repeat (apply bind_inv in Hrun; destruct Hrun as (? & ? & _ & Hrun)).
      now apply (Hsame _ Hrun).
  - (* declaration *)
    destruct specs as [specs|]; [|discriminate].
    destruct (foldEach_WalkSpec_returns _ _ _ _ _ _ _ Hrun)
      as (added & -> & Hfresh).
    exists added. split; [reflexivity|]. split; [|discriminate].
    now rewrite <- Hv.
Qed.

Lemma WalkStmt_first_call (v : V) (s : stmt) (sc ns : ScopeRef)
      (st st' : WalkState (W:=W)) :
  WalkStmt v s sc st = Finished (ns, st') ->
  exists evs, trace st' = trace st ++ EvStmt sc s (heap st) :: evs.
Proof.
  pose proof WalkExpr_Keeps as HE. pose proof WalkStmt_Keeps as HS.
  pose proof (proj2 (proj2 Walk_Keeps)) as HP.
  assert (Hrest : forall (m : M ScopeRef) st1,
             Keeps O m ->
             trace st1 = trace st ++ [EvStmt sc s (heap st)] ->
             m st1 = Finished (ns, st') ->
             exists evs, trace st' = trace st ++ EvStmt sc s (heap st) :: evs).
  { intros m st1 Hm Ht Hrun.
    destruct (Hm st1 ns st' (Nat.le_0_l _) Hrun) as (_ & evs & T & _).
    exists evs. rewrite T, Ht. now rewrite <- app_assoc. }
  destruct s; simpl; unfold bind at 1, callVisitStmt;
    (destruct (VisitStmt v (heap st) sc _ (world st)) as [[[v'|] world']|msg];
     [|intros [= <- <-]; simpl; eexists []; reflexivity|discriminate]);
    apply Hrest; try reflexivity; repeat keeps_step.
Qed.

Lemma foldEach_WalkStmt_returns (v : V) (l : list stmt) :
  forall inner ns (st st' : WalkState (W:=W)),
    foldEach (fun s' inner => WalkStmt v s' inner) l inner st
    = Finished (ns, st') ->
    exists added,
      ns = added ++ inner
      /\ Forall (fun id => (length (heap st) <= id)%nat) added
      /\ (Forall (fun x => declares x = false) l -> added = [])
      /\ (length (heap st) <= length (heap st'))%nat.
Proof.
  induction l as [|s rest IH]; intros inner ns st st' Hrun; simpl in Hrun.
  - injection Hrun as <- <-. exists []. split; [reflexivity|].
    split; [constructor|]. split; [reflexivity|lia].
  - apply bind_inv in Hrun. destruct Hrun as (ns1 & st1 & Hs & Hrun).
    destruct (WalkStmt_Keeps O v s inner st ns1 st1 (Nat.le_0_l _) Hs)
      as ((Hlen & _) & _).
    destruct (WalkStmt_returns _ _ _ _ _ _ Hs) as (add1 & -> & Hf1 & Hd1).
    destruct (IH _ _ _ _ Hrun) as (add2 & -> & Hf2 & Hd2 & Hlen2).
    exists (add2 ++ add1). split; [now rewrite <- app_assoc|].
    split; [|split; [|lia]].
    + apply Forall_app. split; [|exact Hf1].
      eapply Forall_impl; [exact Hf2|]. simpl. intros id Hid. lia.
    + intros Hall. apply Forall_cons in Hall. destruct Hall as [Hs0 Hrest].
      now rewrite (Hd1 Hs0), (Hd2 Hrest).
Qed.

Lemma foldEach_app {A B} (f : A -> B -> M B) (l1 l2 : list A) :
  forall acc (st : WalkState (W:=W)) r,
    foldEach f (l1 ++ l2) acc st = Finished r ->
    exists acc1 st1,
      foldEach f l1 acc st = Finished (acc1, st1)
      /\ foldEach f l2 acc1 st1 = Finished r.
Proof.
  induction l1 as [|x l1 IH]; intros acc st r Hrun; simpl in *.
  - exists acc, st. split; [reflexivity|exact Hrun].
  - apply bind_inv in Hrun. destruct Hrun as (acc' & st' & Hx & Hrun).
    destruct (IH _ _ _ Hrun) as (acc1 & st1 & H1 & H2).
    exists acc1, st1. split; [|exact H2].
    unfold bind. now rewrite Hx.
Qed.

(** X13. The statements of a list are walked one after the other, each in
    the scope the ones before it left.  That scope is the scope the list
    was started in with, in front of it, the scopes of the declarations and
    defining assignments among the earlier statements, so with nothing in
    front when there are none; the walk of the statement begins with the
    call of [VisitStmt] for it in that scope; and the scope the whole list
    leaves has this scope at its end. *)
Theorem statements_walked_in_sequence (v : V) (l1 : list stmt) (s : stmt)
        (l2 : list stmt) (inner ns : ScopeRef) (st st' : WalkState (W:=W)) :
  foldEach (fun s' inner => WalkStmt v s' inner) (l1 ++ s :: l2) inner st
  = Finished (ns, st') ->
  exists sc_s st1 before after evs,
    foldEach (fun s' inner => WalkStmt v s' inner) l1 inner st
    = Finished (sc_s, st1)
    /\ sc_s = before ++ inner
    /\ (Forall (fun x => declares x = false) l1 -> before = [])
    /\ ns = after ++ sc_s
    /\ trace st' = trace st1 ++ EvStmt sc_s s (heap st1) :: evs.
Proof.
  intros Hrun.
  destruct (foldEach_app _ _ _ _ _ _ Hrun) as (sc_s & st1 & H1 & H2).
  destruct (foldEach_WalkStmt_returns _ _ _ _ _ _ H1)
    as (before & Hb & _ & Hnone & _).
  destruct (foldEach_WalkStmt_returns _ _ _ _ _ _ H2)
    as (after & Ha & _ & _ & _).
  simpl in H2. apply bind_inv in H2. destruct H2 as (ns1 & st2 & Hs & Hrest).
  destruct (WalkStmt_first_call _ _ _ _ _ _ Hs) as (evs1 & T1).
  assert (Hk : Keeps O (foldEach (fun s' inner => WalkStmt v s' inner) l2 ns1)).
  { apply Keeps_foldEach. apply Forall_forall. intros x _ acc.
    apply WalkStmt_Keeps. }
  destruct (Hk st2 ns st' (Nat.le_0_l _) Hrest) as (_ & evs2 & T2 & _).
  exists sc_s, st1, before, after, (evs1 ++ evs2).
  split; [exact H1|]. split; [exact Hb|]. split; [exact Hnone|].
  split; [exact Ha|]. rewrite T2, T1. now rewrite <- app_assoc.
Qed.

(** X14. A block that the visitor does not prune leaves the scope it was
    walked in, and what it opened is closed when it ends: the last calls
    of its walk are the calls of [ExitScope], innermost first, for the
    scopes its declarations and defining assignments made and then for the
    scope of the block itself, which is the first scope made after the
    call of [VisitStmt] for the block; there is no scope but that of the
    block when no statement of it declares. *)
Theorem block_exits_its_scopes (v v' : V) (l : list stmt) (sc ns : ScopeRef)
        (st st1 st' : WalkState (W:=W)) :
  callVisitStmt v sc (BlockStmt l) st = Finished (Some v', st1) ->
  WalkStmt v (BlockStmt l) sc st = Finished (ns, st') ->
  ns = sc
  /\ exists added evs,
      Forall (fun id => (length (heap st) < id)%nat) added
      /\ (Forall (fun x => declares x = false) l -> added = [])
      /\ trace st'
         = trace st1 ++ evs
           ++ map (fun c => EvExit c (heap st'))
                  (chainsFrom (added ++ [length (heap st)]) sc).
Proof.
  intros Hcall Hrun. pose proof (callVisitStmt_heap _ _ _ _ _ _ Hcall) as Hh.
  simpl in Hrun. unfold bind at 1 in Hrun. rewrite Hcall in Hrun.
  apply bind_inv in Hrun. destruct Hrun as (inner & st2 & Hnew & Hrun).
  apply NewScope_inv in Hnew. destruct Hnew as [-> ->].
  apply bind_inv in Hrun. destruct Hrun as (inner' & st3 & Hbody & Hrun).
  apply bind_inv in Hrun. destruct Hrun as ([] & st4 & Hexit & Hrun).
  injection Hrun as <- <-. split; [reflexivity|].
  destruct (foldEach_WalkStmt_returns _ _ _ _ _ _ Hbody)
    as (added & -> & Hfresh & Hnone & _).
  simpl in Hfresh. rewrite length_app, Hh in Hfresh. simpl in Hfresh.
  destruct (exitScopes_run _ _ _ _ _ Hexit) as (pre & Hpre & Hh4 & Ht4).
  assert (Hp : pre = added ++ [length (heap st1)]).
  { apply (app_inv_tail sc). rewrite <- Hpre. now rewrite <- app_assoc. }
  subst pre.
  assert (Hk : Keeps O (foldEach (fun s' inner => WalkStmt v' s' inner) l
                                 (length (heap st1) :: sc))).
  { apply Keeps_foldEach. apply Forall_forall. intros x _ acc.
    apply WalkStmt_Keeps. }
  destruct (Hk _ _ _ (Nat.le_0_l _) Hbody) as (_ & evs & T & _).
  simpl in T.
  exists added, evs. split.
  { eapply Forall_impl; [exact Hfresh|]. simpl. intros id Hid. lia. }
  split; [exact Hnone|].
  rewrite Ht4, T, Hh4, Hh. now rewrite <- app_assoc.
Qed.

End Walks.

Local Open Scope nat_scope.

(** [x := x + 1] in a body with one scope: the scope is kept and one is
    added. *)
Lemma Walk_adds_scopes_at_the_end_witness :
  exists ns st',
    @WalkStmt unit unit Everywhere tt defineX [0] bodyState = Finished (ns, st')
    /\ exists new, heap st' = bodyHeap ++ new.
Proof.
  assert (Hw : exists r, @WalkStmt unit unit Everywhere tt defineX [0] bodyState
                         = Finished r) by (eexists; vm_compute; reflexivity).
  destruct Hw as [[ns st'] Hw]. exists ns, st'. split; [exact Hw|].
  exact (proj1 (proj1 (@Walk_adds_scopes_at_the_end unit unit Everywhere)
                      tt defineX [0] bodyState ns st' Hw)).
Defined.

(** From the chain 2, 1, 0 down to the chain 0: two calls. *)
Lemma exitScopes_exits_each_once_witness :
  exists st',
    @exitScopes unit unit Everywhere tt [2; 1; 0] [0] bodyState
    = Finished (tt, st')
    /\ trace st' = [EvExit [2; 1; 0] bodyHeap; EvExit [1; 0] bodyHeap].
Proof.
  destruct (proj1 (@exitScopes_exits_each_once unit unit Everywhere tt [0])
                  [2; 1] bodyState) as (st' & Hrun & _ & Ht).
  - intros c h w _. eexists. reflexivity.
  - exists st'. split; [exact Hrun|exact Ht].
Defined.

(** In [x := x + 1; k] the second statement is visited in the scope the
    first one made. *)
Lemma statements_walked_in_sequence_witness :
  exists sc_s st1,
    foldEach (fun s' inner => @WalkStmt unit unit Everywhere tt s' inner)
             [defineX] [0] bodyState
    = Finished (sc_s, st1)
    /\ exists before, sc_s = before ++ [0].
Proof.
  assert (Hw : exists r,
             foldEach (fun s' inner => @WalkStmt unit unit Everywhere tt s' inner)
                      ([defineX] ++ useK :: []) [0] bodyState
             = Finished r) by (eexists; vm_compute; reflexivity).
  destruct Hw as [[ns st'] Hw].
  destruct (@statements_walked_in_sequence unit unit Everywhere tt [defineX]
              useK [] [0] ns bodyState st' Hw)
    as (sc_s & st1 & before & after & evs & H1 & Hb & _).
  exists sc_s, st1. split; [exact H1|]. exists before. exact Hb.
Defined.

(** [{ x := x + 1 }]: the block leaves the scope it was walked in. *)
Lemma block_exits_its_scopes_witness :
  exists ns st',
    @WalkStmt unit unit Everywhere tt blockDefineX [0] bodyState
    = Finished (ns, st')
    /\ ns = [0].
Proof.
  assert (Hw : exists r,
             @WalkStmt unit unit Everywhere tt blockDefineX [0] bodyState
             = Finished r) by (eexists; vm_compute; reflexivity).
  destruct Hw as [[ns st'] Hw]. exists ns, st'. split; [exact Hw|].
  assert (Hcall : @callVisitStmt unit unit Everywhere tt [0] blockDefineX
                    bodyState
                  = Finished (Some tt,
                              {| heap := bodyHeap; world := tt;
                                 trace := [EvStmt [0] blockDefineX bodyHeap] |}))
    by reflexivity.
  exact (proj1 (@block_exits_its_scopes unit unit Everywhere tt tt [defineX]
                  [0] ns bodyState _ st' Hcall Hw)).
Defined.

Example walk_blockDefineX :
  exists st',
    @WalkStmt unit unit Everywhere tt blockDefineX [0] bodyState
    = Finished ([0], st')
    /\ map eventScope (trace st')
       = [[0]; [1; 0]; [1; 0]; [1; 0]; [1; 0]; [2; 1; 0]; [1; 0]]
    /\ (exists h, trace st' !! 5 = Some (EvExit [2; 1; 0] h))
    /\ (exists h, trace st' !! 6 = Some (EvExit [1; 0] h)).
Proof.
  eexists. split; [vm_compute; reflexivity|].
  split; [vm_compute; reflexivity|].
  split; eexists; vm_compute; reflexivity.
Qed.

End walker_more.

(** ** More on the implicit error-check pass *)

Module shorterror_more.

Import patch main shorterror shorterror_spec shorterror_facts
       shorterror_more_spec.

(** *** Decimal numerals *)

Lemma digits_valueOf (fuel : nat) :
  forall (n : N) (s : string),
    (N.to_nat n <= fuel)%nat -> (0 < n)%N ->
    exists k, forall a,
        valueOf (strings.digits fuel n s) a = valueOf s (a * k + n)%N.
Proof.
  induction fuel as [|fuel IH]; intros n s Hfuel Hpos; [lia|].
  cbn [strings.digits].
  assert (Hd : (n mod 10 < 10)%N) by (apply N.mod_lt; lia).
  assert (Hc : N_of_ascii (ascii_of_N (48 + n mod 10)) = (48 + n mod 10)%N)
    by (apply N_ascii_embedding; lia).
  pose proof (N.div_mod n 10 ltac:(lia)) as Hdm.
  assert (Hlt : (n / 10 < n)%N) by (apply N.div_lt; lia).
  revert Hd Hc Hdm Hlt. generalize (n / 10)%N (n mod 10)%N.
  intros q d Hd Hc Hdm Hlt.
  destruct (N.eqb q 0) eqn:Eq.
  - apply N.eqb_eq in Eq. exists 10%N. intros a. cbn [valueOf]. rewrite Hc.
    f_equal. lia.
  - apply N.eqb_neq in Eq.
    destruct (IH q (String (ascii_of_N (48 + d)) s)) as (k & Hk); [lia|lia|].
    exists (10 * k)%N. intros a. rewrite Hk. cbn [valueOf]. rewrite Hc.
    f_equal. lia.
Qed.

Lemma Itoa_valueOf (z : Z) : 0 <= z -> valueOf (strings.Itoa z) 0 = Z.to_N z.
Proof.
  intros Hz. destruct z as [|p|p]; [reflexivity| |lia].
  unfold strings.Itoa.
  destruct (digits_valueOf (Pos.to_nat p) (Npos p) EmptyString) as (k & Hk);
    [lia|lia|].
  rewrite Hk. simpl. lia.
Qed.

Lemma append_inj_l (stem a b : string) : stem +:+ a = stem +:+ b -> a = b.
Proof.
  induction stem as [|c stem IH]; [auto|].
  change (String c stem +:+ a) with (String c (stem +:+ a)).
  change (String c stem +:+ b) with (String c (stem +:+ b)).
  intros [= Heq]. auto.
Qed.

Lemma names_differ (stem : string) (j k : Z) :
  0 <= j -> 0 <= k -> j <> k ->
  stem +:+ strings.Itoa j <> stem +:+ strings.Itoa k.
Proof.
  intros Hj Hk Hne Heq. apply append_inj_l in Heq.
  apply (f_equal (fun s => valueOf s 0)) in Heq.
  rewrite !Itoa_valueOf in Heq by assumption. lia.
Qed.

(** *** Temporary names *)

Lemma pbind_inv {A B} (m : P A) (k : A -> P B) (w : PassWorld)
      (r : B * PassWorld) :
  pbind m k w = Finished r ->
  exists a w1, m w = Finished (a, w1) /\ k a w1 = Finished r.
Proof.
  unfold pbind. destruct (m w) as [[a w1]|msg]; [eauto|discriminate].
Qed.

Lemma tempVar_run (v : nat) (stem : string) (h : Heap) (sc : ScopeRef)
      (w w1 : PassWorld) (o : ShortError) (name : string) :
  objects w !! v = Some o ->
  tempVar v stem h sc w = Finished (name, w1) ->
  exists k,
    tmpvar o <= k < tempVarLimit
    /\ name = stem +:+ strings.Itoa k
    /\ Lookup h sc name = None
    /\ w1 = {| objects := <[v := withCounter o (k + 1)]> (objects w);
               patches := patches w; stdout := stdout w |}.
Proof.
  intros Hv. unfold tempVar, pbind, getObj. rewrite Hv.
  destruct (tempVar_loop_spec h stem sc (tempVarTurns (tmpvar o))
              (tmpvar o) (le_n _))
    as [(k & Hk & Hrun & Hfree & _)|(Hrun & _)]; rewrite Hrun;
    [|discriminate].
  unfold setObj, pret. intros [= <- <-]. exists k.
  split; [exact Hk|]. split; [reflexivity|]. split; [exact Hfree|reflexivity].
Qed.

(** X15. One visitor never hands out a temporary name twice for the same
    stem.  A call of [tempVar] that returns leaves the visitor's counter
    above the number it used, and a later call on the same visitor, in
    whatever scope, with the counter at or above where the first call left
    it, returns a different name. *)
Theorem tempVar_names_never_repeat (v : nat) (stem : string) (h : Heap)
        (sc : ScopeRef) (w w1 : PassWorld) (o : ShortError) (n1 : string) :
  objects w !! v = Some o ->
  0 <= tmpvar o ->
  tempVar v stem h sc w = Finished (n1, w1) ->
  exists o1,
    objects w1 !! v = Some o1
    /\ tmpvar o < tmpvar o1
    /\ forall h' sc' w2 o2 n2 w3,
        objects w2 !! v = Some o2 ->
        tmpvar o1 <= tmpvar o2 ->
        tempVar v stem h' sc' w2 = Finished (n2, w3) ->
        n2 <> n1.
Proof.
  intros Hv Hpos Hrun.
  destruct (tempVar_run _ _ _ _ _ _ _ _ Hv Hrun) as (k & Hk & -> & _ & ->).
  exists (withCounter o (k + 1)). simpl. split.
  - apply list_lookup_insert_eq. now apply lookup_lt_Some in Hv.
  - split; [lia|].
    intros h' sc' w2 o2 n2 w3 Hv2 Hle Hrun2.
    destruct (tempVar_run _ _ _ _ _ _ _ _ Hv2 Hrun2) as (k2 & Hk2 & -> & _).
    apply names_differ; lia.
Qed.

Section Pass.

Context `{SourceFile}.

(** X16. What [VisitExpr] does with a call of [must] on one argument, when
    it returns: it does not prune, prints nothing, and adds two patches
    after those made before, with two names that the scope does not bind.
    Inside a block the first patch inserts the declaration of both names
    and the check of the error at the start of the statement the visitor
    saw last, and the second replaces the call by the first name.  Outside
    of any block the call is replaced first, the declaration goes to the
    end of the file, and the check is added to the text for [init]. *)
Theorem VisitExpr_must_rewrites (v : nat) (h : Heap) (sc : ScopeRef)
        (e arg : expr) (fun_ : Ident) (w w' : PassWorld) (o : ShortError)
        (r : option nat) :
  mustCall e = Some (fun_, [arg]) ->
  objects w !! v = Some o ->
  ShortError_VisitExpr v h sc e w = Finished (r, w') ->
  r = Some v
  /\ stdout w' = stdout w
  /\ exists tmp err o',
      Lookup h sc tmp = None
      /\ Lookup h sc err = None
      /\ tmp <> err
      /\ objects w' !! v = Some o'
      /\ match block o with
         | Some _ =>
           patches w'
           = patches w
             ++ [Insert (stmtPos (stmt_ o)) (blockDeclaration tmp err (Get arg));
                 Replace (exprPos e) (exprEnd e) tmp]
           /\ initTxt o' = initTxt o
         | None =>
           patches w'
           = patches w
             ++ [Replace (exprPos e) (exprEnd e) tmp;
                 Insert afterImports (fileDeclaration tmp err (Get arg))]
           /\ initTxt o' = initTxt o +:+ fileCheck err
         end.
Proof.
  intros Hmust Hv Hrun. unfold ShortError_VisitExpr in Hrun.
  rewrite Hmust in Hrun.
  apply pbind_inv in Hrun. destruct Hrun as (tmp & w1 & Htmp & Hrun).
  destruct (tempVar_run _ _ _ _ _ _ _ _ Hv Htmp) as (k1 & Hk1 & -> & Hf1 & ->).
  assert (Hlt : (v < length (objects w))%nat) by now apply lookup_lt_Some in Hv.
  apply pbind_inv in Hrun. destruct Hrun as (err & w2 & Herr & Hrun).
  assert (Hv1 : objects
                  {| objects := <[v := withCounter o (k1 + 1)]> (objects w);
                     patches := patches w; stdout := stdout w |} !! v
                = Some (withCounter o (k1 + 1)))
    by (simpl; now apply list_lookup_insert_eq).
  destruct (tempVar_run _ _ _ _ _ _ _ _ Hv1 Herr) as (k2 & Hk2 & -> & Hf2 & ->).
  simpl in Hrun.
  unfold pbind at 1, getObj in Hrun. simpl in Hrun.
  rewrite list_lookup_insert_eq in Hrun by (rewrite length_insert; exact Hlt).
  simpl in Hrun.
  assert (Hne : "tmp_" +:+ strings.Itoa k1 <> "err_" +:+ strings.Itoa k2)
    by discriminate.
  destruct (block o) as [b|] eqn:Eb.
  - unfold pbind, appendPatches, pret in Hrun. simpl in Hrun.
    injection Hrun as <- <-. simpl.
    split; [reflexivity|]. split; [reflexivity|].
    exists ("tmp_" +:+ strings.Itoa k1), ("err_" +:+ strings.Itoa k2).
    eexists. split; [exact Hf1|]. split; [exact Hf2|]. split; [exact Hne|].
    split.
    { apply list_lookup_insert_eq. rewrite length_insert. exact Hlt. }
    split; [|reflexivity].
    rewrite <- app_assoc. reflexivity.
  - unfold pbind, addToInit, pbind, getObj, setObj, appendPatches, pret in Hrun.
    simpl in Hrun.
    rewrite list_lookup_insert_eq in Hrun by (rewrite length_insert; exact Hlt).
    simpl in Hrun. injection Hrun as <- <-. simpl.
    split; [reflexivity|]. split; [reflexivity|].
    exists ("tmp_" +:+ strings.Itoa k1), ("err_" +:+ strings.Itoa k2).
    eexists. split; [exact Hf1|]. split; [exact Hf2|]. split; [exact Hne|].
    split.
    { apply list_lookup_insert_eq. rewrite !length_insert. exact Hlt. }
    split; reflexivity.
Qed.

Lemma initTxt_not_empty (txt err : string) :
  (0 <? String.length (txt +:+ initCheck err))%nat = true.
Proof.
  apply Nat.ltb_lt. unfold initCheck.
  change ("if " +:+ err +:+ " != nil { panic(" +:+ err +:+ ") }")
    with (String "i" ("f " +:+ err +:+ " != nil { panic(" +:+ err +:+ ") }")).
  destruct txt as [|c txt].
  - change (EmptyString +:+ String "i" ?x) with (String "i" x).
    cbn [String.length]. lia.
  - change (String c txt +:+ ?x) with (String c (txt +:+ x)).
    cbn [String.length]. lia.
Qed.

(** X17. A top-level declaration [var names = must(arg)] gets its error
    checked in [init].  When [VisitDecl] returns for it, it prunes, and a
    following [ExitScope] for the file returns the visitor; nothing is
    printed, and three patches are added to those made before: an error
    variable that the scope does not bind is inserted after the last name,
    the call is replaced by the text of its argument, and the text for
    [init], which ends with the check of that variable, is inserted after
    the brace of the first function named [init], or as a new function
    [init] at the end of the file when there is none. *)
Theorem VisitDecl_must_checked_in_init (v : nat) (h : Heap) (sc : ScopeRef)
        (names : list Ident) (fun_ : Ident) (arg : expr) (file : File)
        (w w1 w2 : PassWorld) (o : ShortError) (r r2 : option nat) :
  IdentName fun_ = MustKeyword ->
  objects w !! v = Some o ->
  ShortError_VisitDecl v h sc
    (GenDecl [ValueSpec names [CallExpr (IdentExpr fun_) [arg]]]) w
  = Finished (r, w1) ->
  ShortError_ExitScope v (Some file) w1 = Finished (r2, w2) ->
  r = None /\ r2 = Some v /\ stdout w2 = stdout w
  /\ exists err lastName at_ text,
      last names = Some lastName
      /\ Lookup h sc err = None
      /\ patches w2
         = patches w
           ++ [Insert (identEnd lastName) (", " +:+ err);
               Replace (exprPos (CallExpr (IdentExpr fun_) [arg]))
                       (exprEnd (CallExpr (IdentExpr fun_) [arg])) (Get arg);
               Insert at_ text]
      /\ match findinit (Decls file) with
         | Some (FuncDecl _ _ _ body) =>
           at_ = stmtPos body + 1 /\ text = initTxt o +:+ initCheck err
         | _ =>
           at_ = afterImports
           /\ text = ";func init() {" +:+ (initTxt o +:+ initCheck err) +:+ "}"
         end.
Proof.
  intros Hname Hv Hdecl Hexit.
  assert (Hlt : (v < length (objects w))%nat) by now apply lookup_lt_Some in Hv.
  unfold ShortError_VisitDecl, visitSpecs, visitSpec, mustCall in Hdecl.
  rewrite Hname, String.eqb_refl in Hdecl.
  apply pbind_inv in Hdecl. destruct Hdecl as (ret & w3 & Hspec & Hdecl).
  apply pbind_inv in Hspec. destruct Hspec as (err & w4 & Herr & Hspec).
  destruct (tempVar_run _ _ _ _ _ _ _ _ Hv Herr) as (k & Hk & -> & Hfree & ->).
  destruct (last names) as [lastName|] eqn:El; [|discriminate].
  unfold pbind, appendPatches, addToInit, pbind, getObj, setObj, pret in Hspec.
  simpl in Hspec. rewrite list_lookup_insert_eq in Hspec by exact Hlt.
  simpl in Hspec. injection Hspec as <- <-.
  unfold pret in Hdecl. injection Hdecl as <- <-.
  unfold ShortError_ExitScope in Hexit.
  unfold pbind at 1, getObj in Hexit. simpl in Hexit.
  rewrite list_lookup_insert_eq in Hexit by (rewrite length_insert; exact Hlt).
  simpl in Hexit.
  pose proof (initTxt_not_empty (initTxt o) ("tlderr_" +:+ strings.Itoa k))
    as Hlen.
  unfold initCheck in Hlen. rewrite Hlen in Hexit. clear Hlen.
  destruct (findinit (Decls file)) as [[recv name params body| |]|];
    [destruct body; try discriminate| | |];
    unfold pbind, appendPatches, pret in Hexit; simpl in Hexit;
    injection Hexit as <- <-; simpl;
    (split; [reflexivity|]); (split; [reflexivity|]); (split; [reflexivity|]);
    exists ("tlderr_" +:+ strings.Itoa k), lastName; eexists; eexists;
    (split; [reflexivity|]); (split; [exact Hfree|]);
    (split; [now rewrite <- app_assoc|]); split; reflexivity.
Qed.

End Pass.

(** The first name is [tmp_0]; a second call on the visitor gives
    another. *)
Lemma tempVar_names_never_repeat_witness :
  exists n1 w1,
    tempVar 0 "tmp_" [] [] inBlock = Finished (n1, w1)
    /\ exists o1, objects w1 !! 0%nat = Some o1 /\ 0 < tmpvar o1.
Proof.
  assert (Hw : exists r, tempVar 0 "tmp_" [] [] inBlock = Finished r)
    by (eexists; vm_compute; reflexivity).
  destruct Hw as [[n1 w1] Hw]. exists n1, w1. split; [exact Hw|].
  destruct (tempVar_names_never_repeat 0 "tmp_" [] [] inBlock w1 _ n1
              eq_refl ltac:(simpl; lia) Hw) as (o1 & Ho1 & Hlt & _).
  exists o1. split; [exact Ho1|exact Hlt].
Defined.

(** [must(a)] inside a block: the visitor goes on, with two more
    patches. *)
Lemma VisitExpr_must_rewrites_witness :
  exists r w',
    @ShortError_VisitExpr demoFile 0 [] [] mustOne inBlock = Finished (r, w')
    /\ r = Some 0%nat
    /\ stdout w' = [].
Proof.
  assert (Hw : exists r, @ShortError_VisitExpr demoFile 0 [] [] mustOne inBlock
                         = Finished r) by (eexists; vm_compute; reflexivity).
  destruct Hw as [[r w'] Hw]. exists r, w'. split; [exact Hw|].
  destruct (@VisitExpr_must_rewrites demoFile 0 [] [] mustOne _ _ inBlock w' _
              r eq_refl eq_refl Hw) as (Hr & Hout & _).
  split; [exact Hr|exact Hout].
Defined.

(** [var x = must(a)] in a file without [init]. *)
Lemma VisitDecl_must_checked_in_init_witness :
  exists w1 w2,
    @ShortError_VisitDecl demoFile 0 [] [] varMustOne (snd NewShortError)
    = Finished (None, w1)
    /\ @ShortError_ExitScope demoFile 0 (Some fileMustOne) w1
       = Finished (Some 0%nat, w2)
    /\ stdout w2 = [].
Proof.
  assert (Hd : exists r, @ShortError_VisitDecl demoFile 0 [] [] varMustOne
                           (snd NewShortError) = Finished r)
    by (eexists; vm_compute; reflexivity).
  destruct Hd as [[r w1] Hd].
  assert (He : exists r2, @ShortError_ExitScope demoFile 0 (Some fileMustOne) w1
                          = Finished r2).
  { vm_compute in Hd. injection Hd as <- <-. eexists. vm_compute. reflexivity. }
  destruct He as [[r2 w2] He].
  destruct (@VisitDecl_must_checked_in_init demoFile 0 [] []
              [{| IdentName := "x"; IdentPos := 10; Obj := None |}]
              {| IdentName := "must"; IdentPos := 15; Obj := None |}
              (ident "a" 20)
              fileMustOne (snd NewShortError) w1 w2 _ r r2 eq_refl eq_refl
              Hd He) as (-> & -> & Hout & _).
  exists w1, w2. split; [exact Hd|]. split; [exact He|exact Hout].
Defined.

Example var_must_patches :
  exists w1 w2,
    @ShortError_VisitDecl demoFile 0 [] [] varMustOne (snd NewShortError)
    = Finished (None, w1)
    /\ @ShortError_ExitScope demoFile 0 (Some fileMustOne) w1
       = Finished (Some 0%nat, w2)
    /\ patches w2
       = [Insert 11 ", tlderr_0"; Replace 15 25 "a";
          Insert 100 ";func init() {if tlderr_0 != nil { panic(tlderr_0) }}"].
Proof.
  eexists. eexists. split; [vm_compute; reflexivity|].
  split; vm_compute; reflexivity.
Qed.

End shorterror_more.
